(** * Viral-AI-Video-Clipper: the clip selection pipeline of
      [src/services/clipper.js], embedded in Rocq, with the helpers of
      [src/utils/helpers.js], the timing of the clips in
      [src/services/media.js] and the clip files listed by [src/index.js].

    Modelling conventions.
    - A JavaScript string is a list of code units.  The model keeps the code
      units below 256 (Latin-1), so a code unit is an [ascii]; the white
      space class, the line terminators and the case mappings are the
      restrictions of the ECMAScript ones to that range.
    - A JavaScript number is an exact rational ([Q]).  Every division of the
      modelled code is guarded by the code itself against a zero divisor,
      except the ones by the configured constants, which are noted where
      they occur.
      Sums, products and quotients are therefore exact: a comparison that
      in JavaScript is decided by the rounding of a double (a sum of tenths
      at a threshold, say) can come out on the other side here.
    - A regular expression literal is a term of [Regex.regex], run by a
      backtracking matcher that follows the ECMAScript matching order
      (alternatives left to right, greedy and lazy quantifiers, an
      iteration of a quantifier that consumes nothing is not continued).
    - Objects are records; a property that some producers leave out is an
      [option].  Logging ([appendToLog]) has no effect on any result and is
      left out. *)

From Stdlib Require Import List Bool Arith PeanoNat Lia ZArith NArith.
From Stdlib Require Import QArith Qminmax Qround Qabs Lqa.
From Stdlib Require Import Ascii String.
From Stdlib Require Import Permutation.
From Stdlib Require PrimFloat.
Import ListNotations.

(** ** JavaScript strings *)

Module Js.

Definition jsstring := list ascii.

(** A string literal of the source. *)
Definition str (s : string) : jsstring := list_ascii_of_string s.

Definition code (c : ascii) : N := N_of_ascii c.

Definition chr (n : N) : ascii := ascii_of_N n.

Definition newline : ascii := chr 10.
Definition dquote : ascii := chr 34.
Definition squote : ascii := chr 39.

(** [\s], which is also what [String.prototype.trim] strips: WhiteSpace and
    LineTerminator. *)
Definition isSpace (c : ascii) : bool :=
  let n := code c in
  ((9 <=? n) && (n <=? 13) || (n =? 32) || (n =? 160))%N.

(** [\d] *)
Definition isDigit (c : ascii) : bool :=
  let n := code c in ((48 <=? n) && (n <=? 57))%N.

(** [\w] *)
Definition isWordChar (c : ascii) : bool :=
  let n := code c in
  ((65 <=? n) && (n <=? 90) || (97 <=? n) && (n <=? 122)
   || (48 <=? n) && (n <=? 57) || (n =? 95))%N.

(** What [.] refuses without the [s] flag. *)
Definition isLineTerminator (c : ascii) : bool :=
  let n := code c in ((n =? 10) || (n =? 13))%N.

(** [String.prototype.toLowerCase], one code unit at a time. *)
Definition lowerChar (c : ascii) : ascii :=
  let n := code c in
  if ((65 <=? n) && (n <=? 90))%N then chr (n + 32)
  else if ((192 <=? n) && (n <=? 222) && negb (n =? 215))%N then chr (n + 32)
  else c.

Definition toLowerCase (s : jsstring) : jsstring := map lowerChar s.

(** The canonicalisation of the [i] flag for an ASCII pattern character:
    only the two ASCII cases of a letter match it. *)
Definition foldAscii (c : ascii) : ascii :=
  let n := code c in
  if ((65 <=? n) && (n <=? 90))%N then chr (n + 32) else c.

Definition eqChar (a b : ascii) : bool := (code a =? code b)%N.

Fixpoint eqStr (a b : jsstring) : bool :=
  match a, b with
  | [], [] => true
  | x :: a', y :: b' => eqChar x y && eqStr a' b'
  | _, _ => false
  end.

Fixpoint dropWhile (p : ascii -> bool) (s : jsstring) : jsstring :=
  match s with
  | [] => []
  | c :: tl => if p c then dropWhile p tl else s
  end.

Definition trimStart (s : jsstring) : jsstring := dropWhile isSpace s.
Definition trimEnd (s : jsstring) : jsstring := rev (dropWhile isSpace (rev s)).

(** [String.prototype.trim] *)
Definition trim (s : jsstring) : jsstring := trimEnd (trimStart s).

(** [s.substring(a, b)] for [0 <= a <= b]. *)
Definition substring (s : jsstring) (a b : nat) : jsstring :=
  firstn (b - a) (skipn a s).

(** [s.substring(a)] *)
Definition substringFrom (s : jsstring) (a : nat) : jsstring := skipn a s.

Fixpoint startsWith (p s : jsstring) : bool :=
  match p, s with
  | [], _ => true
  | x :: p', y :: s' => eqChar x y && startsWith p' s'
  | _ :: _, [] => false
  end.

(** [s.indexOf(p)]: the first position where [p] occurs, [None] for -1. *)
Fixpoint indexOfFrom (p s : jsstring) (i : nat) : option nat :=
  if startsWith p s then Some i
  else match s with
       | [] => None
       | _ :: tl => indexOfFrom p tl (S i)
       end.

Definition indexOf (s p : jsstring) : option nat := indexOfFrom p s 0.

(** [s.includes(p)] *)
Definition includes (s p : jsstring) : bool :=
  match indexOf s p with Some _ => true | None => false end.

(** [arr.join(sep)] *)
Fixpoint join (sep : jsstring) (l : list jsstring) : jsstring :=
  match l with
  | [] => []
  | [x] => x
  | x :: tl => x ++ sep ++ join sep tl
  end.

(** [s.split(sep)] for a non-empty string separator. *)
Fixpoint splitStrAux (fuel : nat) (sep acc s : jsstring) : list jsstring :=
  match fuel with
  | O => [rev acc ++ s]
  | S f =>
      match s with
      | [] => [rev acc]
      | c :: tl =>
          if startsWith sep s
          then rev acc :: splitStrAux f sep [] (skipn (List.length sep) s)
          else splitStrAux f sep (c :: acc) tl
      end
  end.

Definition splitStr (s sep : jsstring) : list jsstring :=
  splitStrAux (S (List.length s)) sep [] s.

(** The decimal digits of a number, as template literals print an
    integer. *)
Fixpoint digitsAux (fuel : nat) (n : N) (acc : jsstring) : jsstring :=
  match fuel with
  | O => acc
  | S f =>
      let acc' := chr (48 + n mod 10) :: acc in
      if (n <? 10)%N then acc' else digitsAux f (n / 10)%N acc'
  end.

Definition numToString (n : N) : jsstring :=
  digitsAux (S (N.to_nat (N.log2 n))) n [].

(** [parseInt(s, 10)] on a string of decimal digits (the only strings the
    code hands it are captures of [\d+]). *)
Definition parseInt (s : jsstring) : N :=
  fold_left (fun acc c => (acc * 10 + (code c - 48))%N) s 0%N.

End Js.

(** ** Regular expressions *)

Module Regex.
Import Js.

(** The syntax the source's literals need.  [Star g a] is [a*] when [g] and
    [a*?] otherwise; [a+], [a+?] and [a?] are written with it below. *)
Inductive regex : Type :=
| Empty : regex
| Chr : (ascii -> bool) -> regex
| Seq : regex -> regex -> regex
| Alt : regex -> regex -> regex
| Star : bool -> regex -> regex
| Group : nat -> regex -> regex
| Bol : regex
| Eol : regex
| WordB : regex.

(** A position in the input: the index, the character before it, the rest
    of the input, and the captures made so far. *)
Record mstate : Type := MState {
  pos : nat;
  behind : option ascii;
  ahead : jsstring;
  caps : list (nat * jsstring)
}.

Definition advance (st : mstate) (c : ascii) (tl : jsstring) : mstate :=
  MState (S (pos st)) (Some c) tl (caps st).

Definition setCap (n : nat) (from to : mstate) : mstate :=
  MState (pos to) (behind to) (ahead to)
         ((n, firstn (pos to - pos from) (ahead from)) :: caps to).

Definition orElse {A} (x : option A) (y : option A) : option A :=
  match x with Some _ => x | None => y end.

Definition isWordOpt (c : option ascii) : bool :=
  match c with Some c => isWordChar c | None => false end.

(** The matcher, in continuation-passing style: [run r st k] matches [r] at
    [st] and hands every way of doing so to [k], in the order of
    ECMAScript's backtracking, until [k] accepts one. *)
Fixpoint run (r : regex) (st : mstate) (k : mstate -> option mstate)
  : option mstate :=
  match r with
  | Empty => k st
  | Chr p =>
      match ahead st with
      | c :: tl => if p c then k (advance st c tl) else None
      | [] => None
      end
  | Seq a b => run a st (fun st' => run b st' k)
  | Alt a b => orElse (run a st k) (run b st k)
  | Star greedy a =>
      (fix loop (fuel : nat) (st : mstate) : option mstate :=
         match fuel with
         | O => k st
         | S f =>
             let again :=
               run a st (fun st' =>
                 if pos st <? pos st' then loop f st' else None) in
             if greedy then orElse again (k st) else orElse (k st) again
         end) (List.length (ahead st)) st
  | Group n a => run a st (fun st' => k (setCap n st st'))
  | Bol => if pos st =? 0 then k st else None
  | Eol => match ahead st with [] => k st | _ :: _ => None end
  | WordB =>
      if xorb (isWordOpt (behind st)) (isWordOpt (hd_error (ahead st)))
      then k st else None
  end.

(** One attempt at every start position, from left to right, as
    [RegExp.prototype.exec] does from [lastIndex]. *)
Fixpoint searchFrom (r : regex) (p : nat) (b : option ascii) (s : jsstring)
  : option (mstate * mstate) :=
  let st := MState p b s [] in
  match run r st Some with
  | Some e => Some (st, e)
  | None =>
      match s with
      | [] => None
      | c :: tl => searchFrom r (S p) (Some c) tl
      end
  end.

(** A match as the code reads it: [m[0]], the captures, and [m.index]. *)
Record jsmatch : Type := JsMatch {
  whole : jsstring;
  index : nat;
  groups : list (nat * jsstring)
}.

Definition toMatch (se : mstate * mstate) : jsmatch :=
  let (s, e) := se in
  JsMatch (firstn (pos e - pos s) (ahead s)) (pos s) (caps e).

(** [m[n]] for [n >= 1]; [None] is [undefined]. *)
Fixpoint lookupCap (n : nat) (l : list (nat * jsstring)) : option jsstring :=
  match l with
  | [] => None
  | (k, v) :: tl => if k =? n then Some v else lookupCap n tl
  end.

Definition group (m : jsmatch) (n : nat) : option jsstring :=
  lookupCap n (groups m).

(** [s.match(r)] for a regular expression without the [g] flag. *)
Definition exec (r : regex) (s : jsstring) : option jsmatch :=
  option_map toMatch (searchFrom r 0 None s).

(** [r.test(s)] for a regular expression without the [g] flag. *)
Definition test (r : regex) (s : jsstring) : bool :=
  match searchFrom r 0 None s with Some _ => true | None => false end.

(** [[...s.matchAll(r)]] for a regular expression with the [g] flag: the
    next search starts where the last match ended, one further when the
    match was empty. *)
Fixpoint matchAllFrom (r : regex) (fuel : nat) (p : nat) (b : option ascii)
  (s : jsstring) : list jsmatch :=
  match fuel with
  | O => []
  | S f =>
      match searchFrom r p b s with
      | None => []
      | Some (st, e) =>
          toMatch (st, e) ::
          (if pos st <? pos e
           then matchAllFrom r f (pos e) (behind e) (ahead e)
           else match ahead e with
                | [] => []
                | c :: tl => matchAllFrom r f (S (pos e)) (Some c) tl
                end)
      end
  end.

Definition matchAll (r : regex) (s : jsstring) : list jsmatch :=
  matchAllFrom r (S (List.length s)) 0 None s.

(** [s.match(r)] for a regular expression with the [g] flag: the matched
    strings, the empty list for [null]. *)
Definition matchG (r : regex) (s : jsstring) : list jsstring :=
  map whole (matchAll r s).

(** [s.split(r)] for a regular expression without captures that never
    matches the empty string. *)
Fixpoint splitFrom (r : regex) (fuel : nat) (b : option ascii)
  (acc s : jsstring) : list jsstring :=
  match fuel with
  | O => [rev acc ++ s]
  | S f =>
      match s with
      | [] => [rev acc]
      | c :: tl =>
          match run r (MState 0 b s []) Some with
          | Some e =>
              if 0 <? pos e
              then rev acc :: splitFrom r f (behind e) [] (ahead e)
              else splitFrom r f (Some c) (c :: acc) tl
          | None => splitFrom r f (Some c) (c :: acc) tl
          end
      end
  end.

Definition split (s : jsstring) (r : regex) : list jsstring :=
  splitFrom r (S (List.length s)) None [] s.

(** *** Writing a literal *)

Definition plus (a : regex) : regex := Seq a (Star true a).
Definition plusLazy (a : regex) : regex := Seq a (Star false a).
Definition star (a : regex) : regex := Star true a.
Definition starLazy (a : regex) : regex := Star false a.
Definition opt (a : regex) : regex := Alt a Empty.

Fixpoint seqs (l : list regex) : regex :=
  match l with
  | [] => Empty
  | [a] => a
  | a :: tl => Seq a (seqs tl)
  end.

Fixpoint alts (l : list regex) : regex :=
  match l with
  | [] => Chr (fun _ => false)
  | [a] => a
  | a :: tl => Alt a (alts tl)
  end.

(** A literal text, case sensitive. *)
Definition lit (s : string) : regex :=
  seqs (map (fun c => Chr (eqChar c)) (str s)).

(** A literal text under the [i] flag. *)
Definition liti (s : string) : regex :=
  seqs (map (fun c => Chr (fun x => eqChar (foldAscii x) (foldAscii c)))
            (str s)).

Definition litOf (ci : bool) (w : jsstring) : regex :=
  seqs (map (fun c => Chr (fun x =>
               if ci then eqChar (foldAscii x) (foldAscii c) else eqChar x c))
            w).

(** [a|b|...] of literal words, written as in the source, under the [i]
    flag ([wordsi]) or without it ([words]). *)
Definition wordsi (s : string) : regex :=
  alts (map (litOf true) (splitStr (str s) (str "|"))).

Definition words (s : string) : regex :=
  alts (map (litOf false) (splitStr (str s) (str "|"))).

Definition oneOf (s : string) : regex :=
  Chr (fun c => existsb (eqChar c) (str s)).

Definition noneOf (s : string) : regex :=
  Chr (fun c => negb (existsb (eqChar c) (str s))).

Definition space : regex := Chr isSpace.          (* \s *)
Definition digit : regex := Chr isDigit.          (* \d *)
Definition anyChar : regex := Chr (fun _ => true). (* [\s\S], or . under s *)
Definition dot : regex := Chr (fun c => negb (isLineTerminator c)). (* . *)
Definition nl : regex := Chr (eqChar newline).    (* \n *)

End Regex.

(** ** Numbers *)

Module Num.

Definition leb (a b : Q) : bool := Qle_bool a b.
Definition geb (a b : Q) : bool := Qle_bool b a.
Definition ltb (a b : Q) : bool := negb (Qle_bool b a).
Definition gtb (a b : Q) : bool := negb (Qle_bool a b).

Definition ofNat (n : nat) : Q := inject_Z (Z.of_nat n).

(** [x] is truthy: a number other than 0. *)
Definition truthy (x : Q) : bool := negb (Qeq_bool x 0).

(** [Math.ceil] and [Math.floor], for results that are array indices. *)
Definition ceil (x : Q) : nat := Z.to_nat (Qceiling x).
Definition floor (x : Q) : nat := Z.to_nat (Qfloor x).

(** [arr.sort(cmp)] for a comparator [cmp]: a stable sort (insertion sort
    from the right). *)
Fixpoint insertBy {A} (cmp : A -> A -> Q) (x : A) (l : list A) : list A :=
  match l with
  | [] => [x]
  | y :: tl => if Qle_bool (cmp x y) 0 then x :: l else y :: insertBy cmp x tl
  end.

Definition sortBy {A} (cmp : A -> A -> Q) (l : list A) : list A :=
  fold_right (insertBy cmp) [] l.

End Num.

(** ** The clipper service: data *)

Import Js Regex Num.

(** [CLIP_MIN_DURATION], [CLIP_MAX_DURATION] and [CLIP_IDEAL_DURATION] of
    [config/constants.js]: integers read from the environment, with the
    defaults 8, 30 and 15. *)
Record Constants : Type := mkConstants {
  CLIP_MIN_DURATION : Z;
  CLIP_MAX_DURATION : Z;
  CLIP_IDEAL_DURATION : Z
}.

Definition defaults : Constants := mkConstants 8 30 15.

Inductive ContentType : Type := music | educational | interview | generic.

Inductive DurationCategory : Type := very_short | short | medium | long.

Record ImpactFactors : Type := mkImpact {
  hasQuestion : bool;
  hasPowerfulWords : bool;
  hasNumbers : bool;
  impactBonus : Q
}.

(** A clip object.  The same shape serves candidates, scored clips and
    selections; a property an object does not have is [None].  The
    properties [sentenceGroup], [utterances], [completeEnding] and
    [viralElements], which none of the modelled functions reads, are left
    out. *)
Record Clip : Type := mkClip {
  text : jsstring;
  start : Q;
  end_ : Q;
  duration : Q;
  wordCount : option nat;
  sentenceCount : option nat;
  qualityScore : option Q;
  viralScore : option Q;
  impactFactors : option ImpactFactors;
  endsWithCompleteSentence : option bool;
  reason : option jsstring;
  targetAudience : option jsstring;
  durationEffectiveness : option jsstring;
  aiSelected : option bool;
  finalScore : option Q;
  durationCategory : option DurationCategory
}.

(** Truthiness of an optional property. *)
Definition truthyNum (x : option Q) : bool :=
  match x with Some q => truthy q | None => false end.

Definition truthyStr (x : option jsstring) : bool :=
  match x with Some (_ :: _) => true | _ => false end.

Definition truthyBool (x : option bool) : bool :=
  match x with Some b => b | None => false end.

(** [b.p - a.p] for a numeric property that may be missing: [NaN] then,
    which [sort] reads as 0. *)
Definition diffOpt (x y : option Q) : Q :=
  match x, y with Some a, Some b => a - b | _, _ => 0 end.

(** [text.split(/\s+/).length] *)
Definition countWords (s : jsstring) : nat :=
  List.length (split s (plus space)).

(** ** ContentTypeClassifier *)

(** [phraseCounts[phrase] = (phraseCounts[phrase] || 0) + 1] on an object
    whose keys keep their insertion order. *)
Fixpoint bump (phrase : jsstring) (counts : list (jsstring * nat))
  : list (jsstring * nat) :=
  match counts with
  | [] => [(phrase, 1%nat)]
  | (k, n) :: tl =>
      if eqStr k phrase then (k, S n) :: tl else (k, n) :: bump phrase tl
  end.

(** The phrases of [phraseLength] words: [i] from 0 to
    [words.length - phraseLength]. *)
Definition phrasesOfLength (ws : list jsstring) (phraseLength : nat)
  : list jsstring :=
  map (fun i =>
         toLowerCase (join (str " ") (firstn phraseLength (skipn i ws))))
      (seq 0 (S (List.length ws) - phraseLength)).

Definition phraseCounts (ws : list jsstring) (phraseLength : nat)
  : list (jsstring * nat) :=
  fold_left (fun counts phrase => bump phrase counts)
            (phrasesOfLength ws phraseLength) [].

Definition findRepeatedPhrases (txt : jsstring) : list (jsstring * nat) :=
  let ws := split txt (plus space) in
  let phrases :=
    flat_map (fun phraseLength =>
                filter (fun pc => 1 <? snd pc) (phraseCounts ws phraseLength))
             (seq 3 6) in
  sortBy (fun a b => ofNat (snd b) - ofNat (snd a)) phrases.

Definition musicKeywords : regex :=
  Group 1 (wordsi "chorus|verse|never gonna give you up|lyrics|singing|song|music|beat|melody|rhyme").

Definition educationalKeywords : regex :=
  Group 1 (wordsi "learn|teach|strategy|concept|principle|important|key|idea|method|technique|framework|step|process|solution").

Definition interviewKeywords : regex :=
  Group 1 (wordsi "interview|question|answer|asked|tell me about|talk about|discussed|conversation").

Definition detectContentType (txt : jsstring) : ContentType :=
  let repeatedPhrases := findRepeatedPhrases txt in
  if test musicKeywords txt || (3 <? List.length repeatedPhrases) then music
  else if test educationalKeywords txt then educational
  else if test interviewKeywords txt then interview
  else generic.

(** ** CandidateWindowGenerator: the text path *)

Definition powerfulWords : regex :=
  Group 1 (wordsi "amazing|incredible|never|always|best|worst|must|essential|critical|vital|key|revolutionary|game-changing|mind-blowing").

Definition numberWords : regex :=
  seqs [WordB;
        Group 1 (wordsi "one|two|three|four|five|ten|1|2|3|4|5|10|hundred|thousand|million|billion");
        WordB].

(** The test of [endsWithCompleteSentence]: one of [.!?], then any number
    of white space characters and quotation marks (double or single), then
    the end of the text. *)
Definition completeSentenceEnd : regex :=
  seqs [oneOf ".!?";
        star (Chr (fun c => isSpace c || eqChar c dquote || eqChar c squote));
        Eol].

(** The body of the inner loop of [createPotentialClips] for one window:
    the clip it pushes, if any.  The division by [CLIP_IDEAL_DURATION] is
    not guarded: the model is the code's when that constant is not 0. *)
Definition windowClip (K : Constants) (sentences : list jsstring)
  (timePerWord : Q) (sentencesPerGroup i : nat) : option Clip :=
  let sentenceGroup := firstn sentencesPerGroup (skipn i sentences) in
  let txt := join (str " ") sentenceGroup in
  let wordCount := countWords txt in
  if (wordCount <? 5)%nat then None else
  let wordsSoFar :=
    fold_left (fun n s => (n + countWords s)%nat) (firstn i sentences) 0%nat in
  let estimatedDuration := ofNat wordCount * timePerWord in
  let dynamicStartPadding := Qmin 1.5 (Qmax 0.5 (estimatedDuration * 0.05)) in
  let dynamicEndPadding := Qmin 2.5 (Qmax 1.0 (estimatedDuration * 0.1)) in
  let estimatedStartTime :=
    Qmax 0 (ofNat wordsSoFar * timePerWord - dynamicStartPadding) in
  let estimatedEndTime :=
    ofNat wordsSoFar * timePerWord + estimatedDuration + dynamicEndPadding in
  let adjustedDuration := estimatedEndTime - estimatedStartTime in
  let minDuration := Qmax 5 (inject_Z (CLIP_MIN_DURATION K) * 0.7) in
  let maxDuration := Qmin 60 (inject_Z (CLIP_MAX_DURATION K) * 1.5) in
  if geb adjustedDuration minDuration && leb adjustedDuration maxDuration
  then
    let ideal := inject_Z (CLIP_IDEAL_DURATION K) in
    let durationQuality := 1 - Qabs (adjustedDuration - ideal) / ideal in
    let hasQuestion := includes txt (str "?") in
    let hasPowerfulWords := test powerfulWords txt in
    let hasNumbers := test numberWords txt in
    let impactBonus :=
      (if hasQuestion then 0.1 else 0)
      + (if hasPowerfulWords then 0.15 else 0)
      + (if hasNumbers then 0.1 else 0) in
    let endsWithCompleteSentence := test completeSentenceEnd (trim txt) in
    let sentenceCompletionBonus :=
      if endsWithCompleteSentence then 0.5 else 0 in
    let qualityScore :=
      durationQuality + impactBonus + sentenceCompletionBonus in
    Some (mkClip txt estimatedStartTime estimatedEndTime adjustedDuration
            (Some wordCount) (Some sentencesPerGroup) (Some qualityScore)
            None
            (Some (mkImpact hasQuestion hasPowerfulWords hasNumbers
                     impactBonus))
            (Some endsWithCompleteSentence)
            None None None None None None)
  else None.

Definition optList {A} (x : option A) : list A :=
  match x with Some a => [a] | None => [] end.

(** The inner loop: [i] from 0 while [i <= sentences.length -
    sentencesPerGroup]. *)
Definition windowsOfSize (K : Constants) (sentences : list jsstring)
  (timePerWord : Q) (sentencesPerGroup : nat) : list Clip :=
  flat_map (fun i =>
              optList (windowClip K sentences timePerWord sentencesPerGroup i))
           (seq 0 (S (List.length sentences) - sentencesPerGroup)).

(** The outer loop: [sentencesPerGroup] from the maximum down to 1,
    stopping once 150 clips are there. *)
Fixpoint groupLoop (K : Constants) (sentences : list jsstring)
  (timePerWord : Q) (sentencesPerGroup : nat) (potentialClips : list Clip)
  : list Clip :=
  match sentencesPerGroup with
  | O => potentialClips
  | S smaller =>
      let potentialClips :=
        potentialClips
        ++ windowsOfSize K sentences timePerWord sentencesPerGroup in
      if (150 <=? List.length potentialClips)%nat then potentialClips
      else groupLoop K sentences timePerWord smaller potentialClips
  end.

Definition createPotentialClips (K : Constants) (sentences : list jsstring)
  (timePerWord : Q) (contentType : ContentType) : list Clip :=
  let MAX_SENTENCES_PER_CLIP :=
    match contentType with music => 7%nat | _ => 6%nat end in
  groupLoop K sentences timePerWord MAX_SENTENCES_PER_CLIP [].

(** [/[^.!?]+[.!?]+/g] *)
Definition sentenceRegex : regex :=
  Seq (plus (noneOf ".!?")) (plus (oneOf ".!?")).

(** The timestamp validation of [identifyClipsFromFullText]; [audioDuration]
    is [None] when the transcript gives none. *)
Definition validateClip (K : Constants) (audioDuration : option Q)
  (clip : Clip) : Clip :=
  let maxTime :=
    match audioDuration with
    | Some d => if truthy d then d else 24 * 60 * 60
    | None => 24 * 60 * 60
    end in
  let minSpan := inject_Z (CLIP_MIN_DURATION K) * 0.7 in
  let validatedStart := Qmax 0 (Qmin (start clip) (maxTime - minSpan)) in
  let validatedEnd :=
    Qmin maxTime (Qmax (validatedStart + minSpan) (end_ clip)) in
  mkClip (text clip) validatedStart validatedEnd
         (validatedEnd - validatedStart)
         (wordCount clip) (sentenceCount clip) (qualityScore clip)
         (viralScore clip) (impactFactors clip)
         (endsWithCompleteSentence clip) (reason clip) (targetAudience clip)
         (durationEffectiveness clip) (aiSelected clip) (finalScore clip)
         (durationCategory clip).

(** [identifyClipsFromFullText] up to [validatedClips]: the candidates of
    the text path. *)
Definition textPathSentences (transcriptText : jsstring) : list jsstring :=
  matchG sentenceRegex transcriptText.

Definition textPathTimePerWord (transcriptText : jsstring)
  (audioDuration : option Q) : Q :=
  let totalWords := countWords transcriptText in
  match audioDuration with
  | Some d =>
      if truthy d && (0 <? totalWords)%nat then d / ofNat totalWords else 0.4
  | None => 0.4
  end.

Definition textPathPotentialClips (K : Constants) (transcriptText : jsstring)
  (audioDuration : option Q) : list Clip :=
  let sentences := textPathSentences transcriptText in
  match sentences with
  | [] => []
  | _ :: _ =>
      let contentType := detectContentType transcriptText in
      let timePerWord := textPathTimePerWord transcriptText audioDuration in
      createPotentialClips K sentences timePerWord contentType
  end.

Definition textPathValidatedClips (K : Constants) (transcriptText : jsstring)
  (audioDuration : option Q) : list Clip :=
  map (validateClip K audioDuration)
      (textPathPotentialClips K transcriptText audioDuration).

(** ** FallbackRanker *)

Definition narrativeOpening : regex :=
  Seq Bol (Group 1 (wordsi "when|once|there was|i|we|they|if you|eventually|at first|finally|ultimately")).

Definition emotionalImpactWords : regex :=
  wordsi "amazing|incredible|surprising|shocking|mind-blowing|never|always|changed|stunned|couldn't believe|realized|discovered|astonishing|powerful|transformative|fascinating".

Definition educationalValueWords : regex :=
  wordsi "learn|understand|know|explain|how to|works|actually|truth|fact|study|research|found|most people don't|realize|secret|technique|method|steps".

Definition curiosityOpening : regex :=
  Seq Bol (Group 1 (wordsi "what if|here's why|the truth about|most people don't know|the secret to|this is how|i never knew|you won't believe|the real reason")).

Definition twistWords : regex :=
  wordsi "but|however|surprisingly|instead|contrary|opposite|unlike|unexpected|twist|plot twist|actually|reality|truth".

(** The duration category of a clip. *)
Definition categoryOf (d : Q) : DurationCategory :=
  if ltb d 10 then very_short
  else if ltb d 20 then short
  else if ltb d 30 then medium
  else long.

Definition categoryEqb (a b : DurationCategory) : bool :=
  match a, b with
  | very_short, very_short | short, short | medium, medium | long, long => true
  | _, _ => false
  end.

(** The viral score of the callback of [filteredClips.map]. *)
Definition fallbackViralScore (clip : Clip) : Q :=
  let txt := toLowerCase (text clip) in
  let narrative :=
    if test narrativeOpening txt && (50 <? List.length txt)%nat
    then 0.3 else 0 in
  let emotionalImpact := List.length (matchG emotionalImpactWords txt) in
  let educationalValue := List.length (matchG educationalValueWords txt) in
  let curiosity := if test curiosityOpening txt then 0.3 else 0 in
  let twist := if test twistWords txt then 0.2 else 0 in
  let wordCount := countWords txt in
  let densityScore :=
    if (15 <? wordCount)%nat && (wordCount <? 50)%nat then 0.2 else 0 in
  narrative
  + Qmin 0.4 (ofNat emotionalImpact * 0.1)
  + Qmin 0.4 (ofNat educationalValue * 0.1)
  + curiosity + twist + densityScore.

Definition fallbackReason (viral : Q) : jsstring :=
  str "Selected for likely viral elements: "
  ++ (if gtb viral 0.5 then str "High viral potential"
      else if gtb viral 0.3 then str "Moderate viral potential"
      else str "Potential interest elements").

(** The object the callback returns: the clip with [viralScore],
    [finalScore], [durationCategory] and [reason] set. *)
Definition scoreClip (clip : Clip) : Clip :=
  let viral := fallbackViralScore clip in
  let final :=
    match qualityScore clip with
    | Some q => if truthy q then q * 0.4 + viral * 0.6 else viral
    | None => viral
    end in
  mkClip (text clip) (start clip) (end_ clip) (duration clip)
         (wordCount clip) (sentenceCount clip) (qualityScore clip)
         (Some viral) (impactFactors clip) (endsWithCompleteSentence clip)
         (Some (fallbackReason viral)) (targetAudience clip)
         (durationEffectiveness clip) (aiSelected clip) (Some final)
         (Some (categoryOf (duration clip))).

(** A scored clip with its identity: the position of the object in
    [scoredClips] ([includes] compares objects, not contents). *)
Abbreviation Scored := (nat * Clip)%type (only parsing).

Definition byFinalScore (a b : Scored) : Q :=
  diffOpt (finalScore (snd b)) (finalScore (snd a)).

Definition inCategory (cat : DurationCategory) (c : Scored) : bool :=
  match durationCategory (snd c) with
  | Some k => categoryEqb k cat
  | None => false
  end.

Definition categories : list DurationCategory :=
  [very_short; short; medium; long].

(** [clipsByDuration]: per category, its clips by descending final score. *)
Definition clipsByDuration (scoredClips : list Scored)
  (cat : DurationCategory) : list Scored :=
  sortBy byFinalScore (filter (inCategory cat) scoredClips).

(** The top clip of every non-empty category, in the order of the
    categories. *)
Definition bucketPicks (scoredClips : list Scored) : list Scored :=
  flat_map (fun cat => firstn 1 (clipsByDuration scoredClips cat)) categories.

(** The overlap test of the top-up loop. *)
Definition overlapsOver40 (nextBestClip existingClip : Clip) : bool :=
  let timeOverlap :=
    Qmax 0 (Qmin (end_ nextBestClip) (end_ existingClip)
            - Qmax (start nextBestClip) (start existingClip)) in
  let shortestDuration :=
    Qmin (end_ nextBestClip - start nextBestClip)
         (end_ existingClip - start existingClip) in
  gtb timeOverlap (shortestDuration * 0.4).

(** The [while] loop: [remainingClips.shift()] until five clips are
    selected or none remains. *)
Fixpoint topUp (selectedClips remainingClips : list Scored) : list Scored :=
  match remainingClips with
  | [] => selectedClips
  | nextBestClip :: rest =>
      if (List.length selectedClips <? 5)%nat then
        if existsb (fun e => overlapsOver40 (snd nextBestClip) (snd e))
                   selectedClips
        then topUp selectedClips rest
        else topUp (selectedClips ++ [nextBestClip]) rest
      else selectedClips
  end.

Definition isSelected (selectedClips : list Scored) (c : Scored) : bool :=
  existsb (fun s => fst s =? fst c) selectedClips.

Definition scoreAll (filteredClips : list Clip) : list Scored :=
  combine (seq 0 (List.length filteredClips)) (map scoreClip filteredClips).

Definition fallbackSelected (filteredClips : list Clip) : list Scored :=
  match filteredClips with
  | [] => []
  | _ :: _ =>
      let scoredClips := scoreAll filteredClips in
      let selectedClips := bucketPicks scoredClips in
      if (5 <? List.length selectedClips)%nat
      then firstn 5 (sortBy byFinalScore selectedClips)
      else if (List.length selectedClips <? 5)%nat
      then
        let remainingClips :=
          sortBy byFinalScore
                 (filter (fun c => negb (isSelected selectedClips c))
                         scoredClips) in
        topUp selectedClips remainingClips
      else selectedClips
  end.

Definition fallbackClipSelection (filteredClips : list Clip) : list Clip :=
  map snd (fallbackSelected filteredClips).

(** ** DiversitySelector *)

Definition durationBuckets : list (Q * Q) :=
  [(5, 10); (10, 15); (15, 20); (20, 30); (30, 60)].

Definition inBucket (b : Q * Q) (clip : Clip) : bool :=
  geb (duration clip) (fst b) && leb (duration clip) (snd b).

(** The bucket a clip is pushed to: the first one whose range holds its
    duration. *)
Fixpoint firstBucket (bs : list (Q * Q)) (k : nat) (clip : Clip)
  : option nat :=
  match bs with
  | [] => None
  | b :: tl => if inBucket b clip then Some k else firstBucket tl (S k) clip
  end.

Definition bucketOf (clip : Clip) : option nat :=
  firstBucket durationBuckets 0 clip.

Definition inBucketNo (k : nat) (clip : Clip) : bool :=
  match bucketOf clip with Some j => j =? k | None => false end.

Definition byQuality (a b : Clip) : Q :=
  diffOpt (qualityScore b) (qualityScore a).

(** The similarity test of the de-duplication. *)
Definition similarClips (c clip : Clip) : bool :=
  let timeOverlap := ltb (Qabs (start c - start clip)) 10 in
  let textSimilarity :=
    includes (text c) (substring (text clip) 0 50)
    || includes (text clip) (substring (text c) 0 50) in
  timeOverlap && textSimilarity.

Definition pushUnique (uniqueSelection : list Clip) (clip : Clip)
  : list Clip :=
  if existsb (fun c => similarClips c clip) uniqueSelection
  then uniqueSelection
  else uniqueSelection ++ [clip].

Definition isComplete (clip : Clip) : bool :=
  truthyBool (endsWithCompleteSentence clip).

Definition preferredClips (scoredClips : list Clip) (maxClips : nat)
  : list Clip :=
  let complete := filter isComplete scoredClips in
  if (ceil (ofNat maxClips * 0.5) <=? List.length complete)%nat
  then complete else scoredClips.

(** The sorted buckets of the clips after the top ones. *)
Definition sortedBuckets (remainingClips : list Clip) : list (list Clip) :=
  map (fun k => sortBy byQuality (filter (inBucketNo k) remainingClips))
      (seq 0 (List.length durationBuckets)).

Definition selectFromBuckets (buckets : list (list Clip))
  (remainingSlots : nat) : list Clip :=
  let totalClipsInBuckets :=
    fold_left (fun sum b => (sum + List.length b)%nat) buckets 0%nat in
  if (0 <? totalClipsInBuckets)%nat then
    let nonEmpty :=
      List.length (filter (fun b => (0 <? List.length b)%nat) buckets) in
    let clipsPerBucket := Nat.max 1 (remainingSlots / nonEmpty) in
    let selectedFromBuckets := flat_map (firstn clipsPerBucket) buckets in
    let usedSlots := List.length selectedFromBuckets in
    if (usedSlots <? remainingSlots)%nat then
      let allRemainingClips :=
        sortBy byQuality (flat_map (skipn clipsPerBucket) buckets) in
      selectedFromBuckets
      ++ firstn (remainingSlots - usedSlots) allRemainingClips
    else selectedFromBuckets
  else [].

Definition combinedSelection (scoredClips : list Clip) (maxClips : nat)
  : list Clip :=
  let preferred := preferredClips scoredClips maxClips in
  let topCount := ceil (ofNat maxClips * 0.2) in
  let topClips := firstn topCount preferred in
  let remainingClips := skipn topCount preferred in
  let remainingSlots := (maxClips - List.length topClips)%nat in
  topClips ++ selectFromBuckets (sortedBuckets remainingClips) remainingSlots.

Definition getDiverseClipSelectionWithDurations (scoredClips : list Clip)
  (maxClips : nat) : list Clip :=
  let uniqueSelection :=
    fold_left pushUnique (combinedSelection scoredClips maxClips) [] in
  firstn maxClips uniqueSelection.

(** The buckets a list of clips spans. *)
Definition spansBucket (l : list Clip) (k : nat) : bool :=
  existsb (inBucketNo k) l.

Definition bucketsSpanned (l : list Clip) : nat :=
  List.length (filter (spansBucket l) (seq 0 (List.length durationBuckets))).

(** ** OverlapResolver *)

(** The comparator of the first sort; [ia] and [ib] are
    [clips.indexOf(a)] and [clips.indexOf(b)]. *)
Definition byScoreThenReason (a b : nat * Clip) : Q :=
  let (ia, ca) := a in
  let (ib, cb) := b in
  if truthyNum (qualityScore ca) && truthyNum (qualityScore cb)
  then diffOpt (qualityScore cb) (qualityScore ca)
  else if truthyStr (reason ca) && negb (truthyStr (reason cb)) then -1
  else if negb (truthyStr (reason ca)) && truthyStr (reason cb) then 1
  else ofNat ia - ofNat ib.

Definition OVERLAP_THRESHOLD : Q := 0.5.

(** The callback of [some] and of [find]: [clip] overlaps [existingClip]
    by more than the threshold of the shorter of the two. *)
Definition significantOverlap (clip existingClip : Clip) : bool :=
  let clipDuration := end_ clip - start clip in
  let existingDuration := end_ existingClip - start existingClip in
  let overlapStart := Qmax (start clip) (start existingClip) in
  let overlapEnd := Qmin (end_ clip) (end_ existingClip) in
  if leb overlapEnd overlapStart then false
  else
    let overlapDuration := overlapEnd - overlapStart in
    let overlapRatio := overlapDuration / Qmin clipDuration existingDuration in
    gtb overlapRatio OVERLAP_THRESHOLD.

(** The replacement condition: both scores are truthy and the new one is
    more than 1.2 times the old one. *)
Definition muchBetter (clip overlappingClip : Clip) : bool :=
  match qualityScore clip, qualityScore overlappingClip with
  | Some q, Some q' => truthy q && truthy q' && gtb q (q' * 1.2)
  | _, _ => false
  end.

(** [finalClips.splice(finalClips.indexOf(overlappingClip), 1, clip)] where
    [overlappingClip] is what [find] returned: the first clip that [clip]
    overlaps is replaced. *)
Fixpoint replaceFirst {A} (p : A -> bool) (new : A) (l : list A) : list A :=
  match l with
  | [] => []
  | x :: tl => if p x then new :: tl else x :: replaceFirst p new tl
  end.

Definition resolveStep (finalClips : list Clip) (clip : Clip) : list Clip :=
  if negb (existsb (significantOverlap clip) finalClips)
  then finalClips ++ [clip]
  else
    match find (significantOverlap clip) finalClips with
    | Some overlappingClip =>
        if muchBetter clip overlappingClip
        then replaceFirst (significantOverlap clip) clip finalClips
        else finalClips
    | None => finalClips
    end.

Definition sortForOverlap (clips : list Clip) : list Clip :=
  map snd (sortBy byScoreThenReason
                  (combine (seq 0 (List.length clips)) clips)).

Definition analyzeClipsForQualityAndOverlap (clips : list Clip) : list Clip :=
  fold_left resolveStep (sortForOverlap clips) [].

(** The same pass with a note on every kept clip: the clip it replaced, if
    it came in by the replacement rule. *)
Abbreviation Kept := (Clip * option Clip)%type (only parsing).

Definition resolveStepNoted (finalClips : list Kept) (clip : Clip)
  : list Kept :=
  let overlaps := fun k : Kept => significantOverlap clip (fst k) in
  if negb (existsb overlaps finalClips)
  then finalClips ++ [(clip, None)]
  else
    match find overlaps finalClips with
    | Some overlapping =>
        if muchBetter clip (fst overlapping)
        then replaceFirst overlaps (clip, Some (fst overlapping)) finalClips
        else finalClips
    | None => finalClips
    end.

Definition analyzeNoted (clips : list Clip) : list Kept :=
  fold_left resolveStepNoted (sortForOverlap clips) [].

(** ** AISelectionAdapter: parsing the reply *)

(** [SELECTED CLIP #: n], under the flags [gi]. *)
Definition selectedClipRegex : regex :=
  seqs [wordsi "SELECTED"; plus space; wordsi "CLIP"; plus space;
        opt (Alt (words "#") (wordsi "NUMBER")); star space;
        opt (words ":"); star space; Group 1 (plus digit)].

(** [CLIP #: n], under the flags [gi]. *)
Definition clipNumberRegex : regex :=
  seqs [wordsi "CLIP"; plus space;
        opt (Alt (words "#") (wordsi "NUMBER")); star space;
        opt (words ":"); star space; Group 1 (plus digit)].

(** The third format, under the flags [gis]: a clip or selection number,
    anything up to a line break, anything up to [VIRAL POTENTIAL:], the
    captured text, and then an empty line, a line starting with [TARGET],
    or the letter the escape [\Z] stands for. *)
Definition viralPotentialRegex : regex :=
  seqs [wordsi "CLIP|SELECTION"; star space;
        Alt (plus digit) (Seq (words "#") (plus digit));
        starLazy anyChar; nl; starLazy anyChar;
        wordsi "VIRAL"; star space; wordsi "POTENTIAL"; star space;
        words ":"; Group 1 (plusLazy anyChar);
        alts [Seq nl nl; Seq nl (wordsi "TARGET"); wordsi "Z"]].

Definition clipNumberExtract : regex :=
  seqs [wordsi "CLIP|SELECTION"; star space;
        opt (Seq (opt (words "#")) (star space)); Group 1 (plus digit)].

(** The end of a section: the listed headers after one or two line breaks,
    an empty line followed by white space only, or the end of the text. *)
Definition sectionEnd (headers : list string) : regex :=
  alts (flat_map (fun h => [seqs [nl; nl; wordsi h]; Seq nl (wordsi h)])
                 headers
        ++ [seqs [nl; nl; star space; Eol]; Eol]).

Definition potentialRegex : regex :=
  seqs [wordsi "VIRAL"; star space; wordsi "POTENTIAL"; star space;
        opt (words ":"); star space; Group 1 (plusLazy anyChar);
        sectionEnd ["TARGET"; "SELECTED"; "DURATION"]%string].

Definition audienceRegex : regex :=
  seqs [wordsi "TARGET"; star space; wordsi "AUDIENCE"; star space;
        opt (words ":"); star space; Group 1 (plusLazy anyChar);
        sectionEnd ["SELECTED"; "DURATION"]%string].

Definition durationRegex : regex :=
  seqs [wordsi "DURATION"; star space; wordsi "EFFECTIVENESS"; star space;
        opt (words ":"); star space; Group 1 (plusLazy anyChar);
        sectionEnd ["SELECTED"]%string].

(** The last strategy: a line that mentions [CLIP n] or [clip n]. *)
Definition mentionRegex : regex :=
  seqs [Alt Bol nl; starLazy dot; Group 1 (words "CLIP|clip"); plus space;
        Group 2 (plus digit); alts [Eol; nl; words ":"]].

Definition firstNumber : regex :=
  seqs [WordB; Group 1 (plus digit); WordB].

(** An entry of [selectedClipMatches]: a match of one of the first two
    formats, or the array the third format builds, whose first entry is
    [null]. *)
Record ClipMatch : Type := mkClipMatch {
  m0 : option jsstring;
  m1 : jsstring;
  m2 : option jsstring
}.

Definition captured (m : jsmatch) (n : nat) : jsstring :=
  match group m n with Some s => s | None => [] end.

Definition ofRegexMatch (m : jsmatch) : ClipMatch :=
  mkClipMatch (Some (whole m)) (captured m 1) None.

(** The callback of [potentialMatches.map], before [filter(Boolean)]. *)
Definition contextualMatch (m : jsmatch) : option ClipMatch :=
  let contextBefore := hd [] (splitStr (whole m) (str "VIRAL POTENTIAL")) in
  match exec clipNumberExtract contextBefore with
  | Some clipNumberMatch =>
      Some (mkClipMatch None (captured clipNumberMatch 1)
              (Some (trim (captured m 1))))
  | None => None
  end.

(** [selectedClipMatches] after the three formats. *)
Definition selectedClipMatches (aiResponseText : jsstring) : list ClipMatch :=
  match matchAll selectedClipRegex aiResponseText with
  | (_ :: _) as ms => map ofRegexMatch ms
  | [] =>
      match matchAll clipNumberRegex aiResponseText with
      | (_ :: _) as ms => map ofRegexMatch ms
      | [] =>
          flat_map (fun m => optList (contextualMatch m))
                   (matchAll viralPotentialRegex aiResponseText)
      end
  end.

Definition orDefault (s dflt : jsstring) : jsstring :=
  match s with [] => dflt | _ :: _ => s end.

Definition withSelection (clip : Clip) (reason' : jsstring)
  (audience : option jsstring) (effectiveness : option jsstring) : Clip :=
  mkClip (text clip) (start clip) (end_ clip) (duration clip)
         (wordCount clip) (sentenceCount clip) (qualityScore clip)
         (viralScore clip) (impactFactors clip)
         (endsWithCompleteSentence clip) (Some reason') audience
         effectiveness (Some true) (finalScore clip) (durationCategory clip).

(** The section texts the callback extracts for one match. *)
Definition contextAfter (aiResponseText : jsstring) (m : ClipMatch)
  : jsstring :=
  let clipMention :=
    match m0 m with
    | Some ((_ :: _) as s) => s
    | _ => str "CLIP " ++ m1 m
    end in
  match indexOf aiResponseText clipMention with
  | Some i => substringFrom aiResponseText i
  | None => aiResponseText
  end.

Definition extractReason (aiResponseText : jsstring) (m : ClipMatch)
  : jsstring :=
  match exec potentialRegex (contextAfter aiResponseText m) with
  | Some potentialMatch => trim (captured potentialMatch 1)
  | None =>
      match m2 m with
      | Some ((_ :: _) as r) => trim r
      | _ => []
      end
  end.

Definition extractSection (r : regex) (aiResponseText : jsstring)
  (m : ClipMatch) : jsstring :=
  match exec r (contextAfter aiResponseText m) with
  | Some found => trim (captured found 1)
  | None => []
  end.

(** The 0-based index [parseInt(match[1], 10) - 1]. *)
Definition clipNumberOf (m : ClipMatch) : Z := Z.of_N (parseInt (m1 m)) - 1.

(** The callback of [selectedClipMatches.map]: the selection, or [None]
    for [null]. *)
Definition selectionOf (clipsForAI : list Clip) (aiResponseText : jsstring)
  (m : ClipMatch) : option Clip :=
  let clipNumber := clipNumberOf m in
  let reason' := extractReason aiResponseText m in
  let audience := extractSection audienceRegex aiResponseText m in
  let durationEffectiveness :=
    extractSection durationRegex aiResponseText m in
  if (0 <=? clipNumber)%Z && (clipNumber <? Z.of_nat (List.length clipsForAI))%Z
  then
    match nth_error clipsForAI (Z.to_nat clipNumber) with
    | Some clip =>
        Some (withSelection clip
                (orDefault reason'
                   (str "Selected by AI (Clip "
                    ++ numToString (Z.to_N (clipNumber + 1)) ++ str ")"))
                (Some (orDefault audience (str "General audience")))
                (Some durationEffectiveness))
    | None => None
    end
  else None.

(** [selectedClips] after the first three strategies. *)
Definition parseSelections (clipsForAI : list Clip) (aiResponseText : jsstring)
  : list Clip :=
  flat_map (fun m => optList (selectionOf clipsForAI aiResponseText m))
           (selectedClipMatches aiResponseText).

(** The indices of the last strategy: one per mention, those within the
    pool, without repetitions ([new Set] keeps the first occurrences). *)
Definition mentionIndex (mention : jsstring) : Z :=
  match exec firstNumber mention with
  | Some m => Z.of_N (parseInt (captured m 1)) - 1
  | None => -1
  end.

Fixpoint uniqueZ (l : list Z) (seen : list Z) : list Z :=
  match l with
  | [] => []
  | x :: tl =>
      if existsb (Z.eqb x) seen then uniqueZ tl seen
      else x :: uniqueZ tl (x :: seen)
  end.

Definition mentionedIndices (clipsForAI : list Clip)
  (aiResponseText : jsstring) : list Z :=
  let clipIndices :=
    filter (fun i => (0 <=? i)%Z && (i <? Z.of_nat (List.length clipsForAI))%Z)
           (map mentionIndex (matchG mentionRegex aiResponseText)) in
  uniqueZ clipIndices [].

Definition withMention (clip : Clip) (reason' : jsstring) : Clip :=
  mkClip (text clip) (start clip) (end_ clip) (duration clip)
         (wordCount clip) (sentenceCount clip) (qualityScore clip)
         (viralScore clip) (impactFactors clip)
         (endsWithCompleteSentence clip) (Some reason') (targetAudience clip)
         (durationEffectiveness clip) (Some true) (finalScore clip)
         (durationCategory clip).

Definition mentionSelections (clipsForAI : list Clip)
  (aiResponseText : jsstring) : list Clip :=
  flat_map (fun i =>
              match nth_error clipsForAI (Z.to_nat i) with
              | Some clip =>
                  [withMention clip
                     (str "Mentioned by AI as Clip "
                      ++ numToString (Z.to_N (i + 1)))]
              | None => []
              end)
           (mentionedIndices clipsForAI aiResponseText).

(** What the awaited chat completion gives: an exception (a rejected call,
    or a response without the expected content), or the reply text. *)
Inductive LlmResult : Type :=
| LlmError : LlmResult
| LlmReply : jsstring -> LlmResult.

(** [createPromptForContentType] reads [clip.impactFactors.hasQuestion]: it
    throws on a clip without [impactFactors], inside the outer [try]. *)
Definition promptThrows (clipsForAI : list Clip) : bool :=
  existsb (fun c => match impactFactors c with None => true | _ => false end)
          clipsForAI.

(** The [try] block of [identifyClipsFromFullText] on the pool
    [clipsForAI]. *)
Definition selectFromFullText (clipsForAI : list Clip) (llm : LlmResult)
  : list Clip :=
  if promptThrows clipsForAI then fallbackClipSelection clipsForAI
  else
    match llm with
    | LlmError => fallbackClipSelection clipsForAI
    | LlmReply aiResponseText =>
        match parseSelections clipsForAI aiResponseText with
        | (_ :: _) as selectedClips => selectedClips
        | [] =>
            match mentionSelections clipsForAI aiResponseText with
            | (_ :: _) as selectedClips => selectedClips
            | [] => fallbackClipSelection clipsForAI
            end
        end
    end.

(** The [try] block of [identifyClipsFromUtterances]: the same without the
    last strategy. *)
Definition selectFromUtterances (clipsForAI : list Clip) (llm : LlmResult)
  : list Clip :=
  if promptThrows clipsForAI then fallbackClipSelection clipsForAI
  else
    match llm with
    | LlmError => fallbackClipSelection clipsForAI
    | LlmReply aiResponseText =>
        match parseSelections clipsForAI aiResponseText with
        | (_ :: _) as selectedClips => selectedClips
        | [] => fallbackClipSelection clipsForAI
        end
    end.

(** ** CandidateWindowGenerator: the utterance path and the basic fallback *)

(** An utterance of the transcript; [u_start] and [u_end] are in
    milliseconds. *)
Record Utterance : Type := mkUtterance {
  u_text : jsstring;
  u_start : Q;
  u_end : Q
}.

(** A sentence terminator, then white space up to the end. *)
Definition terminatorAtEnd : regex :=
  seqs [oneOf ".!?"; star space; Eol].

(** A sentence terminator followed by white space (flag [g]). *)
Definition sentenceBoundary : regex := Seq (oneOf ".!?") (plus space).

(** A run of sentence terminators (flag [g]). *)
Definition terminatorRun : regex := plus (oneOf ".!?").

Definition emotionalLanguage : regex :=
  wordsi "amazing|incredible|surprising|shocking|never|always|changed|stunned|realized|discovered|astonishing|powerful".

Definition storyElement : regex :=
  wordsi "when|there was|once|eventually|at first|finally|ultimately".

Definition educationalValue : regex :=
  wordsi "learn|understand|know|explain|how to|works|actually|truth|fact|research|found|most people don't|realize|secret".

Definition curiosityHook : regex :=
  wordsi "what if|here's why|the truth about|most people don't know|the secret to|this is how|you won't believe|the real reason".

Definition viralIndicators (txt : jsstring) : Q :=
  (if test emotionalLanguage txt then 0.15 else 0)
  + (if test storyElement txt then 0.15 else 0)
  + (if test educationalValue txt then 0.15 else 0)
  + (if test curiosityHook txt then 0.25 else 0).

(** [lastBoundary.index + lastBoundary[0].length] for the last match of
    [sentenceBoundary], if there is one. *)
Definition lastBoundaryIndex (txt : jsstring) : option nat :=
  match rev (matchAll sentenceBoundary txt) with
  | lastBoundary :: _ =>
      Some (index lastBoundary + List.length (whole lastBoundary))%nat
  | [] => None
  end.

Definition candidate (txt : jsstring) (st en dur : Q) (wc sc : nat)
  (quality viral : Q) : Clip :=
  mkClip txt st en dur (Some wc) (Some sc) (Some quality) (Some viral)
         None None None None None None None None.

(** The clip a window pushes once its adjusted duration is at least 5. *)
Definition windowCandidate (windowUtterances : list Utterance)
  (windowStart windowEnd : Q) : Clip :=
  let adjustedDuration := windowEnd - windowStart in
  let txt := join (str " ") (map u_text windowUtterances) in
  let wordCount := countWords txt in
  let sentenceCount := List.length (matchG terminatorRun txt) in
  let viralScore := viralIndicators txt in
  let qualityScore :=
    0.3 * (1 - Qabs (adjustedDuration - 15) / 15)
    + 0.1 * ofNat sentenceCount
    + (ofNat wordCount / adjustedDuration) / 5
    + 0.5 * viralScore in
  candidate txt windowStart windowEnd adjustedDuration wordCount
            sentenceCount qualityScore viralScore.

(** The inner loop over [j]: [rest] are the utterances from [j] on, and
    [windowUtterances], [windowEnd] and [potentialClips] the variables the
    loop updates.  The [break] branch also pops [windowUtterances], which
    nothing reads afterwards. *)
Fixpoint windowLoop (windowStart : Q) (rest : list Utterance)
  (windowUtterances : list Utterance) (windowEnd : Q)
  (potentialClips : list Clip) : list Clip :=
  match rest with
  | [] => potentialClips
  | utterance :: rest' =>
      let utteranceEnd := u_end utterance / 1000 in
      if gtb (utteranceEnd - windowStart) 60 then potentialClips
      else
        let windowUtterances := windowUtterances ++ [utterance] in
        let windowEnd := utteranceEnd in
        let duration := windowEnd - windowStart in
        if geb duration 5 then
          let lastUtterance := utterance in
          let lastText := trim (u_text lastUtterance) in
          let endsWithSentenceTerminator := test terminatorAtEnd lastText in
          let adjusted :=
            if negb endsWithSentenceTerminator
               && (1 <? List.length windowUtterances)%nat
            then
              match lastBoundaryIndex lastText with
              | Some boundaryIndex =>
                  let utteranceDuration :=
                    (u_end lastUtterance - u_start lastUtterance) / 1000 in
                  let boundaryRatio :=
                    ofNat boundaryIndex / ofNat (List.length lastText) in
                  let partialUtteranceTime :=
                    utteranceDuration * boundaryRatio in
                  let completeText :=
                    trim (substring lastText 0 boundaryIndex) in
                  (removelast windowUtterances
                   ++ [mkUtterance completeText (u_start lastUtterance)
                         (u_start lastUtterance
                          + partialUtteranceTime * 1000)],
                   u_start lastUtterance / 1000 + partialUtteranceTime)
              | None =>
                  (removelast windowUtterances,
                   u_start lastUtterance / 1000)
              end
            else (windowUtterances, windowEnd) in
          let windowUtterances := fst adjusted in
          let windowEnd := snd adjusted in
          let adjustedDuration := windowEnd - windowStart in
          let potentialClips :=
            if geb adjustedDuration 5
            then potentialClips
                 ++ [windowCandidate windowUtterances windowStart windowEnd]
            else potentialClips in
          windowLoop windowStart rest' windowUtterances windowEnd
                     potentialClips
        else
          windowLoop windowStart rest' windowUtterances windowEnd
                     potentialClips
  end.

(** The single-utterance candidate of [utterances[i]], if it is pushed. *)
Definition singleCandidate (u : Utterance) : option Clip :=
  let singleUtteranceDuration := (u_end u - u_start u) / 1000 in
  if geb singleUtteranceDuration 5 && leb singleUtteranceDuration 60 then
    let txt := u_text u in
    let wordCount := countWords txt in
    if (10 <=? wordCount)%nat then
      let sentenceCount := List.length (matchG terminatorRun txt) in
      let endsWithSentenceTerminator := test terminatorAtEnd (trim txt) in
      if (1 <=? sentenceCount)%nat then
        let adjusted :=
          if negb endsWithSentenceTerminator then
            match lastBoundaryIndex txt with
            | Some boundaryIndex =>
                let boundaryRatio :=
                  ofNat boundaryIndex / ofNat (List.length txt) in
                let partialUtteranceTime :=
                  singleUtteranceDuration * boundaryRatio in
                (u_start u / 1000 + partialUtteranceTime,
                 trim (substring txt 0 boundaryIndex))
            | None => (u_end u / 1000, txt)
            end
          else (u_end u / 1000, txt) in
        let adjustedEndTime := fst adjusted in
        let adjustedText := snd adjusted in
        let adjustedDuration := adjustedEndTime - u_start u / 1000 in
        if geb adjustedDuration 5 then
          let adjustedWordCount := countWords adjustedText in
          let adjustedSentenceCount :=
            List.length (matchG terminatorRun adjustedText) in
          let viralScore := viralIndicators adjustedText in
          let qualityScore :=
            0.3 * (1 - Qabs (adjustedDuration - 15) / 15)
            + 0.1 * ofNat adjustedSentenceCount
            + 0.5 * viralScore in
          Some (candidate adjustedText (u_start u / 1000) adjustedEndTime
                  adjustedDuration adjustedWordCount adjustedSentenceCount
                  qualityScore viralScore)
        else None
      else None
    else None
  else None.

(** The body of the outer loop for the utterances from [i] on. *)
Definition windowsFrom (fromI : list Utterance) : list Clip :=
  match fromI with
  | [] => []
  | first :: _ =>
      let windowStart := u_start first / 1000 in
      windowLoop windowStart fromI [] windowStart []
      ++ optList (singleCandidate first)
  end.

(** [potentialClips] of [identifyClipsFromUtterances]. *)
Definition utterancePotentialClips (utterances : list Utterance)
  : list Clip :=
  flat_map (fun i => windowsFrom (skipn i utterances))
           (seq 0 (List.length utterances)).

(** The clip under construction in [identifyClips]. *)
Record Current : Type := mkCurrent {
  c_start : Q;
  c_end : Q;
  c_text : jsstring;
  c_duration : Q
}.

Definition currentOf (u : Utterance) : Current :=
  let st := u_start u / 1000 in
  let en := u_end u / 1000 in
  mkCurrent st en (u_text u) (en - st).

(** The trimming to the last sentence boundary, done before a clip is
    closed.  The ratio is taken against the length of the text already
    trimmed, as the code does. *)
Definition trimToSentence (currentClip : Current) : Current :=
  if test terminatorAtEnd (trim (c_text currentClip)) then currentClip
  else
    match lastBoundaryIndex (c_text currentClip) with
    | Some boundaryIndex =>
        let txt := trim (substring (c_text currentClip) 0 boundaryIndex) in
        let textRatio := ofNat boundaryIndex / ofNat (List.length txt) in
        let adjustedDuration := c_duration currentClip * textRatio in
        mkCurrent (c_start currentClip)
                  (c_start currentClip + adjustedDuration) txt
                  adjustedDuration
    | None => currentClip
    end.

Definition basicClip (c : Current) : Clip :=
  mkClip (c_text c) (c_start c) (c_end c) (c_duration c)
         None None None None None None
         (Some (str "Basic clip identification"))
         None None None None None.

Definition pushIfLongEnough (K : Constants) (clips : list Clip)
  (c : Current) : list Clip :=
  if geb (c_duration c) (inject_Z (CLIP_MIN_DURATION K))
  then clips ++ [basicClip c] else clips.

(** The loop of [identifyClips] over [utterances[1..]], and what follows
    it. *)
Fixpoint basicLoop (K : Constants) (rest : list Utterance)
  (currentClip : Current) (clips : list Clip) : list Clip :=
  match rest with
  | [] => pushIfLongEnough K clips (trimToSentence currentClip)
  | utterance :: rest' =>
      let utteranceEnd := u_end utterance / 1000 in
      if gtb (utteranceEnd - c_start currentClip)
             (inject_Z (CLIP_MAX_DURATION K))
      then
        basicLoop K rest' (currentOf utterance)
                  (pushIfLongEnough K clips (trimToSentence currentClip))
      else
        basicLoop K rest'
          (mkCurrent (c_start currentClip) utteranceEnd
             (c_text currentClip ++ str " " ++ u_text utterance)
             (utteranceEnd - c_start currentClip))
          clips
  end.

Definition identifyClips (K : Constants) (utterances : list Utterance)
  : list Clip :=
  match utterances with
  | [] => []
  | first :: rest => firstn 5 (basicLoop K rest (currentOf first) [])
  end.

(** ** What the matcher accepts *)

(** [Matches r st st']: the expression [r] can match from the position
    [st] to the position [st'].  An iteration of a quantifier consumes at
    least one character. *)
Inductive Matches : regex -> mstate -> mstate -> Prop :=
| M_Empty : forall st, Matches Empty st st
| M_Chr : forall p st c tl,
    ahead st = c :: tl -> p c = true -> Matches (Chr p) st (advance st c tl)
| M_Seq : forall a b st1 st2 st3,
    Matches a st1 st2 -> Matches b st2 st3 -> Matches (Seq a b) st1 st3
| M_AltL : forall a b st st', Matches a st st' -> Matches (Alt a b) st st'
| M_AltR : forall a b st st', Matches b st st' -> Matches (Alt a b) st st'
| M_StarStop : forall g a st, Matches (Star g a) st st
| M_StarMore : forall g a st1 st2 st3,
    Matches a st1 st2 -> (pos st1 < pos st2)%nat ->
    Matches (Star g a) st2 st3 ->
    Matches (Star g a) st1 st3
| M_Group : forall n a st st',
    Matches a st st' -> Matches (Group n a) st (setCap n st st')
| M_Bol : forall st, pos st = 0%nat -> Matches Bol st st
| M_Eol : forall st, ahead st = [] -> Matches Eol st st
| M_WordB : forall st,
    xorb (isWordOpt (behind st)) (isWordOpt (hd_error (ahead st))) = true ->
    Matches WordB st st.

(** The character before a position reached by consuming [w]. *)
Definition lastOr (w : jsstring) (b : option ascii) : option ascii :=
  match rev w with c :: _ => Some c | [] => b end.

(** The last character of a text that is not white space. *)
Definition lastNonSpace (s : jsstring) : option ascii :=
  find (fun c => negb (isSpace c)) (rev s).

Definition isTerminator (c : ascii) : bool := existsb (eqChar c) (str ".!?").

(** ** Concrete inputs *)

(** The scenario of the specification: a transcript of three sentences
    without an audio duration. *)
Definition scenarioTranscript : jsstring :=
  str "Learning is key. This is the best strategy you will ever find. It changes everything.".

Definition scenarioClip : Clip :=
  hd (basicClip (mkCurrent 0 0 [] 0))
     (textPathPotentialClips defaults scenarioTranscript None).

(** A transcript of one sentence of eight words with an audio duration of
    4.75 seconds. *)
Definition shortTranscript : jsstring := str "a b c d e f g h.".

Definition shortAudio : option Q := Some 4.75.

(** A transcript of twenty words, the last four in a sentence of their
    own, for an audio duration of 20 seconds: one second a word. *)
Definition lateTranscript : jsstring :=
  str "a b c d e f g h i j k l m n o p. q r s t.".

Definition lateAudio : option Q := Some 20.

(** ** Tactics for rational arithmetic *)

(** Replaces every [Qmax] and [Qmin] of the goal by a variable with the
    facts that bound it. *)
Ltac minmax_intro :=
  repeat match goal with
    | |- context [Qmax ?a ?b] =>
        generalize (Q.max_spec a b); generalize (Qmax a b); intros ?
    | |- context [Qmin ?a ?b] =>
        generalize (Q.min_spec a b); generalize (Qmin a b); intros ?
    end;
  intros.

Ltac qsolve :=
  minmax_intro;
  repeat match goal with
    | H : _ /\ _ |- _ => destruct H
    | H : _ \/ _ |- _ => destruct H
    end;
  lra.

(** ** The text-path score as the specification states it *)

Definition impactBonusOf (txt : jsstring) : Q :=
  (if includes txt (str "?") then 0.1 else 0)
  + (if test powerfulWords txt then 0.15 else 0)
  + (if test numberWords txt then 0.1 else 0).

Definition sentenceCompletionBonusOf (txt : jsstring) : Q :=
  if test completeSentenceEnd (trim txt) then 0.5 else 0.

(** [(1 - |duration - IDEAL| / IDEAL) + impactBonus +
    sentenceCompletionBonus] *)
Definition textPathScore (K : Constants) (d : Q) (txt : jsstring) : Q :=
  let ideal := inject_Z (CLIP_IDEAL_DURATION K) in
  (1 - Qabs (d - ideal) / ideal)
  + impactBonusOf txt + sentenceCompletionBonusOf txt.

(** ** The exception of the overlap rule *)

(** A kept clip came in by the replacement rule: it took the place of a
    clip it overlaps significantly, with a score above 1.2 times the score
    of that clip. *)
Definition keptByReplacement (k : Kept) : Prop :=
  exists replaced q q',
    snd k = Some replaced
    /\ significantOverlap (fst k) replaced = true
    /\ qualityScore (fst k) = Some q
    /\ qualityScore replaced = Some q'
    /\ q' * 1.2 < q.

Definition Compatible (a b : Kept) : Prop :=
  significantOverlap (fst a) (fst b) = true ->
  keptByReplacement a \/ keptByReplacement b.

(** The length of the time two clips share. *)
Definition sharedTime (a b : Clip) : Q :=
  Qmin (end_ a) (end_ b) - Qmax (start a) (start b).

Definition shorterSpan (a b : Clip) : Q :=
  Qmin (end_ a - start a) (end_ b - start b).

Definition timedClip (st en : Q) (quality : option Q) : Clip :=
  mkClip [] st en (en - st) None None quality None None None None None None
         None None None.

(** Three clips with negative scores: the third overlaps six of the ten
    seconds of each of the other two. *)
Definition overlapA : Clip := timedClip 0 10 (Some (-1)).
Definition overlapB : Clip := timedClip 10 20 (Some (-1.05)).
Definition overlapC : Clip := timedClip 4 16 (Some (-1.1)).


(** ** What the top-up loop accepts *)

(** [added] were accepted after [selected]: none of them overlaps, by more
    than 40% of the shorter span, a clip selected before it. *)
Fixpoint AcceptedAfter (selected added : list Scored) : Prop :=
  match added with
  | [] => True
  | x :: rest =>
      (forall e, In e selected -> overlapsOver40 (snd x) (snd e) = false)
      /\ AcceptedAfter (selected ++ [x]) rest
  end.

(** The categories that hold a clip of the list. *)
Definition categoriesOf (l : list Clip) : list DurationCategory :=
  filter (fun cat =>
            existsb (fun c => categoryEqb (categoryOf (duration c)) cat) l)
         categories.

(** ** Near-duplicates *)

(** No clip of the list is similar to a clip before it. *)
Definition NoSimilarPair (l : list Clip) : Prop :=
  ForallOrdPairs (fun a b => similarClips a b = false) l.

(** Three windows that start together: the texts of the first two open
    the third. *)
Definition textClip (txt : string) (st en : Q) (quality : Q) : Clip :=
  mkClip (str txt) st en (en - st) None None (Some quality) None None
         (Some true) None None None None None None.

Definition nestedPool : list Clip :=
  [textClip "Hello world." 0 7 0.9;
   textClip "Hello world. More." 0 12 0.8;
   textClip "Hello world. More. Even more." 0 17 0.7].

(** ** Pools and replies *)

(** The validated candidates of the scenario transcript: a pool as the
    text path sends it to the model. *)
Definition scenarioPool : list Clip :=
  textPathValidatedClips defaults scenarioTranscript None.

(** [n] candidates, the [i]-th with the text [candidate i]. *)
Definition numberedPool (n : nat) : list Clip :=
  map (fun i =>
         mkClip (str "candidate " ++ numToString (N.of_nat (S i)))
                (ofNat i * 10) (ofNat i * 10 + 8) 8
                None None (Some 1) None None None None None None None None
                None)
      (seq 0 n).

(** A reply, line by line. *)
Definition lines (l : list string) : jsstring :=
  join [newline] (map str l).

(** The reply of the specification's example. *)
Definition wellFormedReply : jsstring :=
  lines ["SELECTED CLIP #: 3"; "VIRAL POTENTIAL: great hook. ";
         "TARGET AUDIENCE: everyone"; ""]%string.

(** A reply that selects clip 12 and then clip 1. *)
Definition prefixReply : jsstring :=
  lines ["SELECTED CLIP #: 12"; "VIRAL POTENTIAL: alpha"; "";
         "SELECTED CLIP #: 1"; "VIRAL POTENTIAL: beta"; ""]%string.

(** A reply whose only selection is out of range and that mentions clip 2
    on a line of its own. *)
Definition mentionReply : jsstring :=
  lines ["SELECTED CLIP #: 99"; "clip 2"; ""]%string.

(** A reply without any clip number. *)
Definition emptyReply : jsstring := str "I cannot decide.".

(** ** The classifier as the specification describes it *)

(** [g] is the n-gram of the words at position [i]: the [n] consecutive
    words from the [i]-th on. *)
Definition NgramAt (ws : list jsstring) (n i : nat) (g : list jsstring)
  : Prop :=
  exists before after,
    ws = before ++ g ++ after
    /\ List.length before = i /\ List.length g = n.

(** The phrase of an n-gram: its words joined by single spaces, in lower
    case. *)
Definition phraseOf (g : list jsstring) : jsstring :=
  toLowerCase (join (str " ") g).

(** The phrase [p] of [n] words repeats: it is the phrase of the n-grams at
    two different positions. *)
Definition Repeats (ws : list jsstring) (n : nat) (p : jsstring) : Prop :=
  exists i j g g',
    (i < j)%nat
    /\ NgramAt ws n i g /\ NgramAt ws n j g'
    /\ phraseOf g = p /\ phraseOf g' = p.

Definition jsstring_dec (a b : jsstring) : {a = b} + {a <> b} :=
  list_eq_dec ascii_dec a b.

(** The phrases of [n] words the code counts twice or more, each once. *)
Definition repeatedNgrams (ws : list jsstring) (n : nat) : list jsstring :=
  filter (fun p => (1 <? count_occ jsstring_dec (phrasesOfLength ws n) p)%nat)
         (nodup jsstring_dec (phrasesOfLength ws n)).

(** The number of repeated phrases of 3 to 8 words. *)
Definition repeatedNgramCount (txt : jsstring) : nat :=
  list_sum (map (fun n => List.length
                            (repeatedNgrams (split txt (plus space)) n))
                (seq 3 6)).

(** The string the function returns. *)
Definition contentTypeName (t : ContentType) : jsstring :=
  match t with
  | music => str "music"
  | educational => str "educational"
  | interview => str "interview"
  | generic => str "generic"
  end.

(** [phraseCounts[q]], 0 when the key is missing. *)
Fixpoint countOf (q : jsstring) (counts : list (jsstring * nat)) : nat :=
  match counts with
  | [] => 0%nat
  | (k, n) :: tl => if eqStr k q then n else countOf q tl
  end.

(** ** Durations *)

(** The duration is the span of the clip and lasts five seconds or more. *)
Definition GoodDuration (clip : Clip) : Prop :=
  duration clip == end_ clip - start clip /\ 5 <= duration clip.

(** Four candidates of 8, 15, 25 and 40 seconds. *)
Definition clipOf8 : Clip := textClip "Eight seconds." 0 8 0.4.
Definition clipOf15 : Clip := textClip "Fifteen seconds." 10 25 0.3.
Definition clipOf25 : Clip := textClip "Twenty-five seconds." 30 55 0.2.
Definition clipOf40 : Clip := textClip "Forty seconds." 60 100 0.1.

(** * Beyond the selection: helpers, media timing, and the entry points *)

(** ** The helpers of [utils/helpers.js] *)

Module Helpers.

(** A clip as [validateClipTiming] reads it.  [t_start], [t_end] and
    [t_duration] hold a number, or [None] for a value [isNaN] holds of
    ([undefined], [NaN]); [t_rest] stands for the other properties, which
    the copy carries along. *)
Record TimedClip (A : Type) : Type := mkTimed {
  t_start : option Q;
  t_end : option Q;
  t_duration : option Q;
  t_rest : A
}.

Arguments mkTimed {A} _ _ _ _.
Arguments t_start {A} _.
Arguments t_end {A} _.
Arguments t_duration {A} _.
Arguments t_rest {A} _.

(** The [constraints] argument, two numbers. *)
Record Constraints : Type := mkConstraints {
  MIN_DURATION : Q;
  MAX_DURATION : Q
}.

Definition validateClipTiming {A} (clip : TimedClip A)
  (constraints : Constraints) : TimedClip A :=
  let start1 :=
    match t_start clip with
    | Some s => if ltb s 0 then 0 else s
    | None => 0
    end in
  let end1 :=
    match t_end clip with
    | Some e =>
        if leb e start1
        then start1 + Qmax (MIN_DURATION constraints) 15
        else e
    | None => start1 + Qmax (MIN_DURATION constraints) 15
    end in
  let duration1 := end1 - start1 in
  if gtb duration1 (MAX_DURATION constraints) then
    mkTimed (Some start1) (Some (start1 + MAX_DURATION constraints))
            (Some (MAX_DURATION constraints)) (t_rest clip)
  else if ltb duration1 (MIN_DURATION constraints) then
    mkTimed (Some start1) (Some (start1 + MIN_DURATION constraints))
            (Some (MIN_DURATION constraints)) (t_rest clip)
  else
    mkTimed (Some start1) (Some end1) (Some duration1) (t_rest clip).

Definition keywords : list jsstring :=
  map str ["important"; "key"; "essential"; "crucial"; "must";
           "best"; "top"; "first"; "finally"; "remember"; "strategy"]%string.

(** The [for] loop over the keywords: the first sentence that holds the
    first keyword some sentence holds. *)
Fixpoint matchingSentence (keywords sentences : list jsstring)
  : option jsstring :=
  match keywords with
  | [] => None
  | keyword :: others =>
      match find (fun s => includes (toLowerCase s) (toLowerCase keyword))
                 sentences with
      | Some s => Some s
      | None => matchingSentence others sentences
      end
  end.

(** [shown.substring(0, 100) + (measured.length > 100 ? '...' : '')] *)
Definition truncated (shown measured : jsstring) : jsstring :=
  substring shown 0 100
  ++ (if (100 <? List.length measured)%nat then str "..." else []).

(** [text] is [None] for [undefined] or [null]. *)
Definition getKeyPhrase (text : option jsstring) : jsstring :=
  match text with
  | None | Some [] => str "No text available"
  | Some txt =>
      let sentences := matchG sentenceRegex txt in
      match matchingSentence keywords sentences with
      | Some s => truncated (trim s) s
      | None =>
          match sentences with
          | first :: _ => truncated (trim first) first
          | [] => truncated txt txt
          end
      end
  end.

End Helpers.

Import Helpers.

(** ** The timing of [generateClip] in [services/media.js] *)

Module Media.

(** What the [try] block that adjusts the times of a clip ends with: the
    error it throws again, or the [start], [end] and [duration] it leaves in
    the clip. *)
Inductive Timing : Type :=
| TimingError : jsstring -> Timing
| TimingOk : Q -> Q -> Q -> Timing.

Definition MIN_VIABLE_DURATION : Q := 6.0.

(** [videoDuration] is what [parseFloat] made of the output of [ffprobe],
    [None] for [NaN]. *)
Definition clipTiming (clipStart clipEnd : Q) (videoDuration : option Q)
  : Timing :=
  match videoDuration with
  | None => TimingError (str "Cannot generate clip: Invalid video duration")
  | Some videoDuration =>
      if geb clipStart videoDuration then
        TimingError
          (str "Cannot generate clip: Clip start time is beyond video duration")
      else
        let baseClipDuration := clipEnd - clipStart in
        let PADDING_START := Qmin 1.5 (Qmax 0.3 (baseClipDuration * 0.03)) in
        let PADDING_END := Qmin 2.5 (Qmax 0.5 (baseClipDuration * 0.07)) in
        let adjustedStart := Qmax 0 (clipStart - PADDING_START) in
        let adjustedEnd := Qmin videoDuration (clipEnd + PADDING_END) in
        let originalDuration := clipEnd - clipStart in
        let adjustedDuration := adjustedEnd - adjustedStart in
        let isVeryShortClip := ltb originalDuration 6 in
        let extended :=
          if isVeryShortClip && ltb adjustedDuration MIN_VIABLE_DURATION then
            let additionalPadding :=
              Qmin 2 (MIN_VIABLE_DURATION - adjustedDuration) in
            let newEnd := Qmin videoDuration (adjustedEnd + additionalPadding) in
            let newStart := adjustedStart in
            let newDuration := newEnd - newStart in
            let newStart :=
              if ltb newDuration MIN_VIABLE_DURATION
              then Qmax 0 (newStart - (MIN_VIABLE_DURATION - newDuration))
              else newStart in
            (newStart, newEnd, newEnd - newStart)
          else (adjustedStart, adjustedEnd, adjustedDuration) in
        let '(start', end', duration') := extended in
        if leb duration' 0 then
          TimingError (str "Cannot generate clip: Invalid clip duration")
        else TimingOk start' end' duration'
  end.

End Media.

Import Media.

(** ** The chapters path *)

(** A chapter of the transcript; [ch_start] and [ch_end] are in
    milliseconds, and a text that is missing is [None]. *)
Record Chapter : Type := mkChapter {
  ch_start : Q;
  ch_end : Q;
  ch_headline : option jsstring;
  ch_summary : option jsstring;
  ch_gist : option jsstring
}.

(** The clip [identifyClipsFromChapters] makes of a chapter. *)
Record ChapterClip : Type := mkChapterClip {
  cc_start : Q;
  cc_end : Q;
  cc_duration : Q;
  cc_text : jsstring;
  cc_gist : jsstring;
  cc_reason : jsstring
}.

(** [x || dflt] for a string that can be missing. *)
Definition strOr (x : option jsstring) (dflt : jsstring) : jsstring :=
  match x with
  | Some ((_ :: _) as s) => s
  | _ => dflt
  end.

Definition chapterQualifies (K : Constants) (chapter : Chapter) : bool :=
  let duration := (ch_end chapter - ch_start chapter) / 1000 in
  geb duration (inject_Z (CLIP_MIN_DURATION K))
  && leb duration (inject_Z (CLIP_MAX_DURATION K)).

Definition chapterClip (chapter : Chapter) : ChapterClip :=
  let st := ch_start chapter / 1000 in
  let en := ch_end chapter / 1000 in
  mkChapterClip st en (en - st)
    (strOr (ch_headline chapter) (strOr (ch_summary chapter) []))
    (strOr (ch_gist chapter) [])
    (str "Chapter: " ++ strOr (ch_headline chapter) (str "Untitled")).

(** When no chapter qualifies the code returns [identifyClips({ chapters })],
    which finds no utterances and returns the empty list. *)
Definition identifyClipsFromChapters (K : Constants)
  (chapters : list Chapter) : list ChapterClip :=
  let potentialClips := map chapterClip (filter (chapterQualifies K) chapters) in
  match potentialClips with
  | [] => []
  | _ :: _ => firstn 5 potentialClips
  end.

(** ** The words path *)

(** A word of the transcript; the speaker is [None] for [null]. *)
Record Word : Type := mkWord {
  w_text : jsstring;
  w_start : Q;
  w_end : Q;
  w_speaker : option jsstring
}.

(** The utterance [identifyClipsFromWords] builds. *)
Record WordUtterance : Type := mkWordUtterance {
  wu_words : list Word;
  wu_start : Q;
  wu_end : Q;
  wu_text : jsstring;
  wu_speaker : option jsstring
}.

(** [a !== b] on speakers. *)
Definition speakerDiffers (a b : option jsstring) : bool :=
  match a, b with
  | None, None => false
  | Some x, Some y => negb (eqStr x y)
  | _, _ => true
  end.

(** The callback of [words.forEach], on the pair of [utterances] and
    [currentUtterance]. *)
Definition addWord (state : list WordUtterance * WordUtterance) (word : Word)
  : list WordUtterance * WordUtterance :=
  let (utterances, currentUtterance) := state in
  let (utterances, currentUtterance) :=
    if speakerDiffers (w_speaker word) (wu_speaker currentUtterance)
       && (0 <? List.length (wu_words currentUtterance))%nat
    then (utterances ++ [currentUtterance],
          mkWordUtterance [] (w_start word) (w_end word) [] (w_speaker word))
    else (utterances, currentUtterance) in
  (utterances,
   mkWordUtterance (wu_words currentUtterance ++ [word])
                   (wu_start currentUtterance)
                   (w_end word)
                   (wu_text currentUtterance ++ w_text word ++ str " ")
                   (w_speaker word)).

Definition groupWords (words : list Word) : list WordUtterance :=
  let (utterances, currentUtterance) :=
    fold_left addWord words ([], mkWordUtterance [] 0 0 [] None) in
  if (0 <? List.length (wu_words currentUtterance))%nat
  then utterances ++ [currentUtterance]
  else utterances.

(** What [identifyClipsFromUtterances] reads of such an utterance. *)
Definition utteranceOfWords (u : WordUtterance) : Utterance :=
  mkUtterance (wu_text u) (wu_start u) (wu_end u).

(** ** The pools sent to the model *)

(** A value of [Math.random()]: a number [r] with [0 <= r < 1], given as
    [d_num / (d_num + d_more + 1)]. *)
Record Draw : Type := mkDraw {
  d_num : nat;
  d_more : nat
}.

Definition drawValue (d : Draw) : Q :=
  ofNat (d_num d) / ofNat (d_num d + d_more d + 1).

(** [l[i] = x] inside the array. *)
Definition setAt {A} (l : list A) (i : nat) (x : A) : list A :=
  firstn i l ++ x :: skipn (S i) l.

(** [[l[i], l[j]] = [l[j], l[i]]] for two indices inside the array (the
    loop below has no others). *)
Definition swapAt {A} (l : list A) (i j : nat) : list A :=
  match nth_error l i, nth_error l j with
  | Some x, Some y => setAt (setAt l i y) j x
  | _, _ => l
  end.

(** The shuffle loop: [i] from the last index down to 1, [random k] being
    the value of the call of [Math.random()] number [k]. *)
Fixpoint shuffleFrom {A} (i k : nat) (random : nat -> Draw) (l : list A)
  : list A :=
  match i with
  | O => l
  | S below =>
      let j := floor (drawValue (random k) * ofNat (i + 1)) in
      shuffleFrom below (S k) random (swapAt l i j)
  end.

Definition shuffle {A} (random : nat -> Draw) (l : list A) : list A :=
  shuffleFrom (List.length l - 1) 0 random l.

Definition CLIPS_FOR_AI : nat := 60.

(** The chain of tests that distributes the remaining clips of the text
    path: the number of the bucket, if any. *)
Definition poolBucketOf (clip : Clip) : option nat :=
  let d := duration clip in
  if geb d 3 && ltb d 10 then Some 0%nat
  else if geb d 10 && ltb d 20 then Some 1%nat
  else if geb d 20 && ltb d 30 then Some 2%nat
  else if geb d 30 && leb d 60 then Some 3%nat
  else None.

Definition inPoolBucket (k : nat) (clip : Clip) : bool :=
  match poolBucketOf clip with
  | Some n => (n =? k)%nat
  | None => false
  end.

(** What one bucket adds to [clipsForAI]. *)
Definition bucketContribution (remainingClips : list Clip) (k : nat)
  : list Clip :=
  let clips := filter (inPoolBucket k) remainingClips in
  match clips with
  | [] => []
  | _ :: _ =>
      let sorted := sortBy byQuality clips in
      let n :=
        Nat.min (List.length clips)
                (ceil (ofNat CLIPS_FOR_AI * 0.5
                       * (ofNat (List.length clips)
                          / ofNat (List.length remainingClips)))) in
      firstn n sorted
  end.

(** [clipsForAI] of the text path before the shuffle. *)
Definition balancedMix (validatedClips : list Clip) : list Clip :=
  let sortedClips := sortBy byQuality validatedClips in
  if (CLIPS_FOR_AI <? List.length sortedClips)%nat then
    let half := floor (ofNat CLIPS_FOR_AI * 0.5) in
    let topByQuality := firstn half sortedClips in
    let remainingClips := skipn half sortedClips in
    topByQuality
    ++ flat_map (bucketContribution remainingClips) (seq 0 4)
  else sortedClips.

(** [clipsForAI] of the text path: shuffled, then cut to 60. *)
Definition textPathPool (random : nat -> Draw) (validatedClips : list Clip)
  : list Clip :=
  firstn CLIPS_FOR_AI (shuffle random (balancedMix validatedClips)).

Definition MAX_CLIPS_FOR_AI : nat := 40.

(** The four lists of [viralCategories].  A candidate of the utterance path
    carries in [viralElements] the results of these four tests on its
    text. *)
Definition viralCategories (remainingClips : list Clip) : list (list Clip) :=
  [filter (fun c => test emotionalLanguage (text c)) remainingClips;
   filter (fun c => test storyElement (text c)) remainingClips;
   filter (fun c => test educationalValue (text c)) remainingClips;
   filter (fun c => test curiosityHook (text c)) remainingClips].

Definition categoryContribution (categoryClips : list Clip) : list Clip :=
  match categoryClips with
  | [] => []
  | _ :: _ =>
      let toAdd :=
        Nat.min (List.length categoryClips)
                (ceil (ofNat MAX_CLIPS_FOR_AI * 0.125)) in
      firstn toAdd (sortBy byQuality categoryClips)
  end.

(** [clipsForAI] of the utterance path: cut to 40, then shuffled. *)
Definition utterancePool (random : nat -> Draw) (potentialClips : list Clip)
  : list Clip :=
  let potentialClips := sortBy byQuality potentialClips in
  let clipsForAI :=
    if (MAX_CLIPS_FOR_AI <? List.length potentialClips)%nat then
      let half := ceil (ofNat MAX_CLIPS_FOR_AI * 0.5) in
      let topClips := firstn half potentialClips in
      let remainingClips := skipn half potentialClips in
      topClips
      ++ flat_map categoryContribution (viralCategories remainingClips)
    else potentialClips in
  shuffle random (firstn MAX_CLIPS_FOR_AI clipsForAI).

(** ** The entry points *)

(** The transcript; a property that is missing is [None]. *)
Record TranscriptData : Type := mkTranscript {
  td_text : option jsstring;
  td_audio_duration : option Q;
  td_audioDuration : option Q;
  td_utterances : option (list Utterance);
  td_words : option (list Word);
  td_chapters : option (list Chapter)
}.

(** [transcriptData.audio_duration || transcriptData.audioDuration] *)
Definition audioDurationOf (transcriptData : TranscriptData) : option Q :=
  match td_audio_duration transcriptData with
  | Some d => if truthy d then Some d else td_audioDuration transcriptData
  | None => td_audioDuration transcriptData
  end.

Definition identifyClipsFromFullText (K : Constants)
  (transcriptData : TranscriptData) (random : nat -> Draw) (llm : LlmResult)
  : list Clip :=
  let transcriptText :=
    match td_text transcriptData with Some t => t | None => [] end in
  let audioDuration := audioDurationOf transcriptData in
  match textPathSentences transcriptText with
  | [] => []
  | _ :: _ =>
      let validatedClips :=
        textPathValidatedClips K transcriptText audioDuration in
      match textPathPool random validatedClips with
      | [] => []
      | (_ :: _) as clipsForAI => selectFromFullText clipsForAI llm
      end
  end.

Definition identifyClipsFromUtterances (K : Constants)
  (utterances : list Utterance) (random : nat -> Draw) (llm : LlmResult)
  : list Clip :=
  match utterancePotentialClips utterances with
  | [] => identifyClips K utterances
  | (_ :: _) as potentialClips =>
      selectFromUtterances (utterancePool random potentialClips) llm
  end.

Definition identifyClipsFromWords (K : Constants) (words : list Word)
  (random : nat -> Draw) (llm : LlmResult) : list Clip :=
  identifyClipsFromUtterances K (map utteranceOfWords (groupWords words))
                              random llm.

(** What [identifyClipsWithAI] returns: clips of the transcript, or the
    clips of the chapters path, which are of another shape. *)
Inductive Identified : Type :=
| TranscriptClips : list Clip -> Identified
| ChapterClips : list ChapterClip -> Identified.

Definition nonEmpty {A} (x : option (list A)) : option (list A) :=
  match x with
  | Some (_ :: _) => x
  | _ => None
  end.

(** The transcript is an object ([main] calls the function with no other
    value). *)
Definition identifyClipsWithAI (K : Constants)
  (transcriptData : TranscriptData) (random : nat -> Draw) (llm : LlmResult)
  : Identified :=
  match nonEmpty (td_text transcriptData) with
  | Some _ =>
      TranscriptClips (identifyClipsFromFullText K transcriptData random llm)
  | None =>
      match nonEmpty (td_utterances transcriptData) with
      | Some utterances =>
          TranscriptClips
            (identifyClipsFromUtterances K utterances random llm)
      | None =>
          match nonEmpty (td_words transcriptData) with
          | Some words =>
              TranscriptClips (identifyClipsFromWords K words random llm)
          | None =>
              match nonEmpty (td_chapters transcriptData) with
              | Some chapters =>
                  ChapterClips (identifyClipsFromChapters K chapters)
              | None =>
                  TranscriptClips
                    (identifyClips K
                       (match td_utterances transcriptData with
                        | Some utterances => utterances
                        | None => []
                        end))
              end
          end
      end
  end.
(** ** What the grouping of the words keeps *)

(** The text the words spell: each word, then a space. *)
Definition spelled (ws : list Word) : jsstring :=
  flat_map (fun w => w_text w ++ str " ") ws.

(** An utterance that holds words of one speaker, with their text, and ends
    with its last word. *)
Definition Grouped (u : WordUtterance) : Prop :=
  (exists ws w, wu_words u = ws ++ [w] /\ wu_end u = w_end w)
  /\ (forall w, In w (wu_words u) -> w_speaker w = wu_speaker u)
  /\ wu_text u = spelled (wu_words u).

(** An utterance and the next one: the speaker changes, and the next one
    starts with its first word. *)
Definition Linked (u v : WordUtterance) : Prop :=
  wu_speaker u <> wu_speaker v
  /\ exists w ws, wu_words v = w :: ws /\ wu_start v = w_start w.

Fixpoint Chain (l : list WordUtterance) : Prop :=
  match l with
  | u :: ((v :: _) as tl) => Linked u v /\ Chain tl
  | _ => True
  end.

(** The state of the loop at its start, the utterances of a state, and what
    the loop keeps true of them. *)
Definition startState : list WordUtterance * WordUtterance :=
  ([], mkWordUtterance [] 0 0 [] None).

Definition allOf (state : list WordUtterance * WordUtterance)
  : list WordUtterance :=
  if (0 <? List.length (wu_words (snd state)))%nat
  then fst state ++ [snd state] else fst state.

Definition GroupingInv (state : list WordUtterance * WordUtterance)
  (processed : list Word) : Prop :=
  (wu_words (snd state) = [] -> state = startState)
  /\ List.concat (map wu_words (allOf state)) = processed
  /\ Forall Grouped (allOf state)
  /\ Chain (allOf state)
  /\ match allOf state with
     | u :: _ => wu_start u = 0
     | [] => True
     end.
(** ** Transcripts for the entry points *)

(** A transcript with a text that holds no sentence terminator, and with
    one long utterance. *)
Definition longUtterance : Utterance :=
  mkUtterance
    (str "This is how we learn to see what the data says and why it matters so much.")
    0 9000.

Definition unpunctuatedTranscript : TranscriptData :=
  mkTranscript (Some (str "no sentence ends here")) None None
               (Some [longUtterance]) None None.

(** The same utterance without a text. *)
Definition utteranceTranscript : TranscriptData :=
  mkTranscript None None None (Some [longUtterance]) None None.

Definition noDraw : nat -> Draw := fun _ => mkDraw 0 0.
(** An utterance that does not end before it starts. *)
Definition wellTimed (u : Utterance) : Prop := u_start u <= u_end u.
(** ** Letter case *)

(** The 256 code units of the model. *)
Definition allChars : list ascii := map ascii_of_nat (seq 0 256).

(** The character tests of an expression answer the same on a character
    and on its lower case. *)
Fixpoint caseBlind (r : regex) : bool :=
  match r with
  | Chr p => forallb (fun c => Bool.eqb (p (lowerChar c)) (p c)) allChars
  | Seq a b | Alt a b => caseBlind a && caseBlind b
  | Star _ a | Group _ a => caseBlind a
  | _ => true
  end.

(** A position of the matcher in the lower-cased text. *)
Definition lowerState (st : mstate) : mstate :=
  MState (pos st) (option_map lowerChar (behind st))
         (toLowerCase (ahead st))
         (map (fun c => (fst c, toLowerCase (snd c))) (caps st)).

(** ** The files of the clips *)

(** [`${n}`] for an integer [n]: all its digits, as JavaScript prints an
    integer below 10^21. *)
Definition intToString (z : Z) : jsstring :=
  if (z <? 0)%Z then str "-" ++ numToString (Z.to_N (- z))
  else numToString (Z.to_N z).

(** The name [generateClip] gives the file of a clip, from the time stamp
    of the run and the times the clip has when it is handed over. *)
Definition clipName (timestamp : N) (clipStart clipEnd : Q) : jsstring :=
  str "clip_" ++ numToString timestamp ++ str "_"
  ++ intToString (Qfloor clipStart) ++ str "_"
  ++ intToString (Qfloor clipEnd) ++ str ".mp4".

(** [/clip_\d+_(\d+)_(\d+)\.mp4/] *)
Definition clipFileRegex : regex :=
  seqs [lit "clip_"; plus digit; lit "_"; Group 1 (plus digit); lit "_";
        Group 2 (plus digit); lit ".mp4"].

(** The details the summary of [main] shows for a clip file: the first of
    the saved clips whose start, rounded down, is less than 5 from the
    start read in the name of the file. *)
Definition clipDetailOf (fileName : jsstring) (clipsWithDetails : list Clip)
  : option Clip :=
  match exec clipFileRegex fileName with
  | Some parsedTimestamps =>
      if (0 <? List.length clipsWithDetails)%nat then
        let startTime := Z.of_N (parseInt (captured parsedTimestamps 1)) in
        find (fun c => (Z.abs (Qfloor (start c) - startTime) <? 5)%Z)
             clipsWithDetails
      else None
  | None => None
  end.

(** [x % y] of JavaScript: the quotient is cut towards 0. *)
Definition remainder (x y : Q) : Q :=
  let q := x / y in
  x - y * inject_Z (if ltb q 0 then Qceiling q else Qfloor q).

(** [s.padStart(n, fill)] for a filler of one character. *)
Definition padStart (n : nat) (fill : ascii) (s : jsstring) : jsstring :=
  repeat fill (n - List.length s) ++ s.

(** The duration as the summary prints it, [M:SS]. *)
Definition formattedDuration (durationSec : Q) : jsstring :=
  let minutes := Qfloor (durationSec / 60) in
  let seconds := Qfloor (remainder durationSec 60) in
  intToString minutes ++ str ":" ++ padStart 2 "0"%char (intToString seconds).

(** The character before the position reached by reading [w]. *)
Definition behindAfter (b : option ascii) (w : jsstring) : option ascii :=
  fold_left (fun _ c => Some c) w b.

(** ** [generateClips]: the clips handed to [generateClip] *)

(** The first filter; the [start] and the [end] of a [Clip] are numbers,
    so the [typeof] tests pass. *)
Definition validClip (clip : Clip) : bool :=
  negb (geb (start clip) (end_ clip)).

(** The second filter; [videoDuration] is [None] for [NaN], which no start
    is greater than. *)
Definition withinVideo (videoDuration : option Q) (clip : Clip) : bool :=
  match videoDuration with
  | Some v => negb (gtb (start clip) v)
  | None => true
  end.

Definition clipsToGenerate (clips : list Clip) (videoDuration : option Q)
  : list Clip :=
  match filter validClip clips with
  | [] => []
  | (_ :: _) as validClips => filter (withinVideo videoDuration) validClips
  end.

(** ** The buckets and the near-duplicates, as the specification describes
    them *)

(** The five duration buckets, 5-10, 10-15, 15-20, 20-30 and 30-60
    seconds; a duration on the border of two buckets counts for the lower
    one. *)
Definition InBucket (k : nat) (d : Q) : Prop :=
  match k with
  | 0%nat => 5 <= d /\ d <= 10
  | 1%nat => 10 < d /\ d <= 15
  | 2%nat => 15 < d /\ d <= 20
  | 3%nat => 20 < d /\ d <= 30
  | 4%nat => 30 < d /\ d <= 60
  | _ => False
  end.

(** The clips span three buckets or more: three of them lie in three
    different buckets. *)
Definition SpansThree (l : list Clip) : Prop :=
  exists k1 k2 k3 c1 c2 c3,
    (k1 < k2 < k3)%nat
    /\ In c1 l /\ In c2 l /\ In c3 l
    /\ InBucket k1 (duration c1)
    /\ InBucket k2 (duration c2)
    /\ InBucket k3 (duration c3).

(** [p] occurs in [s]. *)
Definition Contains (s p : jsstring) : Prop :=
  exists before after, s = before ++ p ++ after.

(** Two clips are near-duplicates: they start less than 10 seconds apart
    and the text of one holds the first 50 characters of the other. *)
Definition NearDuplicates (a b : Clip) : Prop :=
  Qabs (start a - start b) < 10
  /\ (Contains (text a) (firstn 50 (text b))
      \/ Contains (text b) (firstn 50 (text a))).

(** No clip of the list is a near-duplicate of another. *)
Definition NoNearDuplicates (l : list Clip) : Prop :=
  ForallOrdPairs (fun a b => ~ NearDuplicates a b) l.

(** A clip whose text does not end on a complete sentence. *)
Definition openClip (txt : string) (st en : Q) (quality : Q) : Clip :=
  mkClip (str txt) st en (en - st) None None (Some quality) None None
         None None None None None None None.

(** Two complete clips of the first bucket and two open ones of the next
    two buckets. *)
Definition completeFirstPool : list Clip :=
  [textClip "Alpha one." 0 7 0.9;
   textClip "Beta two." 20 28 0.8;
   openClip "Gamma three" 40 52 0.7;
   openClip "Delta four" 60 77 0.6].

(** Four complete clips, far apart, of 7, 8, 12 and 17 seconds. *)
Definition fourClipPool : list Clip :=
  [textClip "Alpha one." 0 7 0.9;
   textClip "Beta two." 20 28 0.8;
   textClip "Gamma three." 40 52 0.7;
   textClip "Delta four." 60 77 0.6].

(** Seven complete clips, far apart, over the five buckets. *)
Definition widePool : list Clip :=
  [textClip "Alpha one." 0 7 0.9;
   textClip "Beta two." 20 28 0.8;
   textClip "Gamma three." 40 52 0.7;
   textClip "Delta four." 60 73 0.6;
   textClip "Epsilon five." 80 97 0.5;
   textClip "Zeta six." 100 125 0.4;
   textClip "Eta seven." 130 170 0.3].

(** ** The overlap rule of the top-up, as the specification describes it *)

(** The two clips overlap by more than 40% of the shorter one: the time
    they share, none when they are apart, exceeds 0.4 times the shorter of
    the two spans. *)
Definition OverlapsBeyond40 (a b : Clip) : Prop :=
  shorterSpan a b * 0.4 < Qmax 0 (sharedTime a b).

(** [added] were taken one after the other after [selected]: none of them
    overlaps a clip selected before it by more than 40% of the shorter
    one. *)
Fixpoint TakenClear (selected added : list Scored) : Prop :=
  match added with
  | [] => True
  | x :: rest =>
      (forall e, In e selected -> ~ OverlapsBeyond40 (snd x) (snd e))
      /\ TakenClear (selected ++ [x]) rest
  end.

(** The four candidates of the scenario, a fifth that lies within the
    first, and a sixth apart from all of them. *)
Definition topUpPool : list Clip :=
  [clipOf8; clipOf15; clipOf25; clipOf40;
   textClip "Within the first." 1 7 0.05;
   textClip "Apart from all." 110 122 0.04].

(** ** The times of a trimmed clip in binary64 *)

(** The numbers of the program are binary64 floating-point numbers, where
    [(start + d) - start] need not be [d].  [trimmedTimes] is the clip
    [identifyClips] makes of one utterance, with the times of the utterance
    in milliseconds, when it cuts the text back to its last sentence
    boundary: the [start], the [end] and the [duration] it stores, computed
    in that arithmetic. *)
Module Binary64.
Import PrimFloat.

Definition trimmedTimes (utteranceStart utteranceEnd : float)
  (boundaryIndex textLength : float) : float * float * float :=
  let start := div utteranceStart 1000 in
  let end_ := div utteranceEnd 1000 in
  let duration := sub end_ start in
  let textRatio := div boundaryIndex textLength in
  let clipDuration := duration in
  let adjustedDuration := mul clipDuration textRatio in
  (start, add start adjustedDuration, adjustedDuration).

End Binary64.

(** An utterance from 0.258 to 8 seconds that stops in the middle of a
    sentence. *)
Definition openUtterance : Utterance :=
  mkUtterance (str "One. Two. And then") 258 8000.

(** An utterance of three seconds. *)
Definition briefUtterance : Utterance :=
  mkUtterance (str "Three seconds.") 0 3000.

(** A clip of the basic fallback spans its duration, the way the code
    stores the two (the duration is the end minus the start, or, after the
    cut to a sentence boundary, the end is the start plus the duration),
    and lasts at least the configured minimum. *)
Definition BasicSpan (K : Constants) (clip : Clip) : Prop :=
  (duration clip == end_ clip - start clip
   \/ end_ clip == start clip + duration clip)
  /\ inject_Z (CLIP_MIN_DURATION K) <= duration clip.

(** The length of a chapter in seconds lies within the configured
    limits. *)
Definition WithinLimits (K : Constants) (chapter : Chapter) : Prop :=
  inject_Z (CLIP_MIN_DURATION K) <= (ch_end chapter - ch_start chapter) / 1000
  /\ (ch_end chapter - ch_start chapter) / 1000
     <= inject_Z (CLIP_MAX_DURATION K).

(** * Properties *)

(** ** The matcher *)

Lemma orElse_Some {A} (x y : option A) (v : A) :
  orElse x y = Some v -> x = Some v \/ y = Some v.
Proof. destruct x; simpl; auto. Qed.

(** Whatever [run] hands to its continuation is a match of the
    expression. *)
Lemma run_sound (r : regex) :
  forall st k res,
    run r st k = Some res ->
    exists st', Matches r st st' /\ k st' = Some res.
Proof.
  induction r as [ | p | a IHa b IHb | a IHa b IHb | g a IHa | n a IHa | | | ];
    intros st k res H; simpl in H.
  - exists st; split; [constructor | exact H].
  - destruct (ahead st) as [ | c tl] eqn:E; [discriminate | ].
    destruct (p c) eqn:P; [ | discriminate].
    exists (advance st c tl); split; [now constructor | exact H].
  - apply IHa in H. destruct H as (st1 & M1 & H).
    apply IHb in H. destruct H as (st2 & M2 & H).
    exists st2; split; [econstructor; eauto | exact H].
  - apply orElse_Some in H. destruct H as [H | H].
    + apply IHa in H. destruct H as (st1 & M1 & H).
      exists st1; split; [now apply M_AltL | exact H].
    + apply IHb in H. destruct H as (st1 & M1 & H).
      exists st1; split; [now apply M_AltR | exact H].
  - revert H. generalize (List.length (ahead st)) as fuel.
    intros fuel; revert st.
    induction fuel as [ | f IHf]; intros st H.
    + exists st; split; [constructor | exact H].
    + assert (Again :
        run a st (fun st' => if pos st <? pos st' then
           (fix loop (fuel : nat) (st0 : mstate) {struct fuel} : option mstate :=
              match fuel with
              | O => k st0
              | S f0 =>
                  let again :=
                    run a st0 (fun st'0 =>
                      if pos st0 <? pos st'0 then loop f0 st'0 else None) in
                  if g then orElse again (k st0) else orElse (k st0) again
              end) f st' else None) = Some res ->
        exists st', Matches (Star g a) st st' /\ k st' = Some res).
      { intros R. apply IHa in R. destruct R as (st1 & M1 & R).
        destruct (pos st <? pos st1) eqn:Lt; [ | discriminate].
        apply Nat.ltb_lt in Lt. apply IHf in R.
        destruct R as (st2 & M2 & R).
        exists st2; split; [eapply M_StarMore; eauto | exact R]. }
      destruct g; apply orElse_Some in H; destruct H as [H | H]; auto;
        exists st; split; auto; constructor.
  - apply IHa in H. destruct H as (st1 & M1 & H).
    exists (setCap n st st1); split; [now constructor | exact H].
  - destruct (pos st =? 0) eqn:E; [ | discriminate].
    apply Nat.eqb_eq in E. exists st; split; [now constructor | exact H].
  - destruct (ahead st) eqn:E; [ | discriminate].
    exists st; split; [now constructor | exact H].
  - destruct (xorb _ _) eqn:E; [ | discriminate].
    exists st; split; [now constructor | exact H].
Qed.

Lemma lastOr_app (w1 w2 : jsstring) (b : option ascii) :
  lastOr (w1 ++ w2) b = lastOr w2 (lastOr w1 b).
Proof.
  unfold lastOr. rewrite rev_app_distr.
  destruct (rev w2); simpl; reflexivity.
Qed.

(** A match consumes a prefix of the input ahead. *)
Lemma Matches_consumes r st st' :
  Matches r st st' ->
  exists w, ahead st = w ++ ahead st'
            /\ pos st' = (pos st + List.length w)%nat
            /\ behind st' = lastOr w (behind st).
Proof.
  induction 1.
  - exists []; simpl; auto.
  - exists [c]; simpl; repeat split; auto; lia.
  - destruct IHMatches1 as (w1 & A1 & P1 & B1).
    destruct IHMatches2 as (w2 & A2 & P2 & B2).
    exists (w1 ++ w2). rewrite <- app_assoc, <- A2, length_app, lastOr_app.
    repeat split; auto; try lia. now rewrite <- B1.
  - assumption.
  - assumption.
  - exists []; simpl; auto.
  - destruct IHMatches1 as (w1 & A1 & P1 & B1).
    destruct IHMatches2 as (w2 & A2 & P2 & B2).
    exists (w1 ++ w2). rewrite <- app_assoc, <- A2, length_app, lastOr_app.
    repeat split; auto; try lia. now rewrite <- B1.
  - destruct IHMatches as (w & A & P & B). exists w. simpl. auto.
  - exists []; simpl; auto.
  - exists []; simpl; auto.
  - exists []; simpl; auto.
Qed.

(** A search returns a match that starts at one of the positions it
    tried. *)
Lemma searchFrom_sound r :
  forall s p b st e,
    searchFrom r p b s = Some (st, e) ->
    Matches r st e /\ caps st = [] /\ (p <= pos st)%nat.
Proof.
  induction s as [ | c tl IH]; intros p b st e H; simpl in H.
  - destruct (run r _ Some) eqn:R; [ | discriminate].
    inversion H; subst; clear H.
    apply run_sound in R. destruct R as (st' & M & E). inversion E; subst.
    simpl; auto.
  - destruct (run r _ Some) eqn:R.
    + inversion H; subst; clear H.
      apply run_sound in R. destruct R as (st' & M & E). inversion E; subst.
      simpl; auto.
    + apply IH in H. destruct H as (M & C & L). repeat split; auto. lia.
Qed.

(** Every entry of [matchAll] is a match of the expression, and [whole] is
    the text it consumed. *)
Lemma matchAllFrom_sound r :
  forall fuel p b s m,
    In m (matchAllFrom r fuel p b s) ->
    exists st e, Matches r st e /\ m = toMatch (st, e).
Proof.
  induction fuel as [ | f IH]; intros p b s m H; simpl in H; [contradiction | ].
  destruct (searchFrom r p b s) as [[st e] | ] eqn:S; [ | contradiction].
  destruct H as [H | H].
  - apply searchFrom_sound in S. destruct S as (M & _). eauto.
  - destruct (pos st <? pos e).
    + eapply IH; eauto.
    + destruct (ahead e); [contradiction | eapply IH; eauto].
Qed.

Lemma whole_consumed st e w :
  ahead st = w ++ ahead e -> pos e = (pos st + List.length w)%nat ->
  whole (toMatch (st, e)) = w.
Proof.
  intros A P. simpl. rewrite A, P.
  replace (pos st + List.length w - pos st)%nat with (List.length w + 0)%nat by lia.
  rewrite firstn_app_2. simpl. apply app_nil_r.
Qed.

(** ** Lists *)

Lemma In_firstn_list (A : Type) (n : nat) (l : list A) (x : A) :
  In x (firstn n l) -> In x l.
Proof.
  intros H. rewrite <- (firstn_skipn n l). apply in_or_app. now left.
Qed.

Lemma In_skipn_list (A : Type) (n : nat) (l : list A) (x : A) :
  In x (skipn n l) -> In x l.
Proof.
  intros H. rewrite <- (firstn_skipn n l). apply in_or_app. now right.
Qed.

(** ** Strings *)

Lemma eqChar_eq (a b : ascii) : eqChar a b = true -> a = b.
Proof.
  unfold eqChar, code. intros H. apply N.eqb_eq in H.
  rewrite <- (ascii_N_embedding a), <- (ascii_N_embedding b). now f_equal.
Qed.

Lemma isTerminator_cases (c : ascii) :
  isTerminator c = true -> c = "."%char \/ c = "!"%char \/ c = "?"%char.
Proof.
  unfold isTerminator. simpl. rewrite !orb_true_iff.
  intros [H | [H | [H | H]]]; try discriminate;
    apply eqChar_eq in H; auto.
Qed.

Lemma isTerminator_not_space (c : ascii) :
  isTerminator c = true -> isSpace c = false.
Proof.
  intros H. apply isTerminator_cases in H.
  destruct H as [-> | [-> | ->]]; reflexivity.
Qed.

Lemma dropWhile_keeps_last (p : ascii -> bool) (w : jsstring) (c : ascii) :
  p c = false -> exists w', dropWhile p (w ++ [c]) = w' ++ [c].
Proof.
  intros P. induction w as [ | x w IH]; simpl.
  - rewrite P. now exists [].
  - destruct (p x); [exact IH | now exists (x :: w)].
Qed.

(** Trimming keeps a last character that is not white space. *)
Lemma trim_keeps_last (w : jsstring) (c : ascii) :
  isSpace c = false -> exists w', trim (w ++ [c]) = w' ++ [c].
Proof.
  intros P. unfold trim, trimStart, trimEnd.
  destruct (dropWhile_keeps_last isSpace w c P) as (w' & ->).
  exists w'. rewrite rev_app_distr. simpl. rewrite P. simpl.
  now rewrite rev_involutive.
Qed.

Lemma lastNonSpace_last (w : jsstring) (c : ascii) :
  isSpace c = false -> lastNonSpace (w ++ [c]) = Some c.
Proof.
  intros P. unfold lastNonSpace. rewrite rev_app_distr. simpl. now rewrite P.
Qed.

(** The text [join] builds ends as its last part does. *)
Lemma join_ends (sep : jsstring) (l : list jsstring) (w : jsstring) (c : ascii) :
  forall pre, l = pre ++ [w ++ [c]] -> exists w', join sep l = w' ++ [c].
Proof.
  intros pre. revert l. induction pre as [ | x pre IH]; intros l ->.
  - simpl. now exists w.
  - destruct (IH _ eq_refl) as (w' & E).
    simpl app. simpl join. destruct (pre ++ [w ++ [c]]) eqn:D.
    + destruct pre; discriminate.
    + rewrite E. exists (x ++ sep ++ w'). now rewrite <- !app_assoc.
Qed.

(** ** The sentences of the text path *)

Lemma star_chr_behind g p st e :
  Matches (Star g (Chr p)) st e ->
  (exists c, behind st = Some c /\ p c = true) ->
  exists c, behind e = Some c /\ p c = true.
Proof.
  intros M. remember (Star g (Chr p)) as r eqn:R.
  induction M; inversion R; subst; auto.
  intros _. apply IHM2; auto.
  inversion M1; subst. simpl. eauto.
Qed.

(** A match of the sentence expression ends with a terminator. *)
Lemma sentence_match_ends st e :
  Matches sentenceRegex st e ->
  exists w c, whole (toMatch (st, e)) = w ++ [c] /\ isTerminator c = true.
Proof.
  intros M.
  destruct (Matches_consumes _ _ _ M) as (w & A & P & B).
  unfold sentenceRegex, plus in M.
  inversion M as [ | | a b s1 s2 s3 MA MB | | | | | | | | ]; subst.
  inversion MB as [ | | a b s1 s4 s3 MT MS | | | | | | | | ]; subst.
  assert (T : exists c, behind e = Some c /\ isTerminator c = true).
  { eapply star_chr_behind; [exact MS | ].
    inversion MT; subst. simpl. eauto. }
  destruct T as (c & Bc & Tc).
  assert (Lt : (pos st < pos e)%nat).
  { destruct (Matches_consumes _ _ _ MA) as (wa & _ & Pa & _).
    destruct (Matches_consumes _ _ _ MS) as (ws & _ & Ps & _).
    inversion MT; subst. simpl in Ps. lia. }
  destruct (exists_last (l := w)) as (w' & x & ->).
  { intros ->. simpl in P. lia. }
  exists w', x. split.
  - now apply whole_consumed.
  - unfold lastOr in B. rewrite rev_app_distr in B. simpl in B.
    rewrite Bc in B. now inversion B; subst.
Qed.

(** Every sentence the text path splits off ends with a terminator. *)
Lemma textPathSentences_end (transcriptText x : jsstring) :
  In x (textPathSentences transcriptText) ->
  exists w c, x = w ++ [c] /\ isTerminator c = true.
Proof.
  unfold textPathSentences, matchG, matchAll. intros H.
  apply in_map_iff in H. destruct H as (m & <- & H).
  apply matchAllFrom_sound in H. destruct H as (st & e & M & ->).
  now apply sentence_match_ends.
Qed.

(** ** The windows of the text path *)

Lemma In_windowsOfSize K sentences tpw n clip :
  In clip (windowsOfSize K sentences tpw n) ->
  exists i, (i + n <= List.length sentences)%nat
            /\ windowClip K sentences tpw n i = Some clip.
Proof.
  unfold windowsOfSize. intros H. apply in_flat_map in H.
  destruct H as (i & Hi & H). apply in_seq in Hi.
  exists i. split; [lia | ].
  destruct (windowClip K sentences tpw n i); simpl in H; [ | contradiction].
  destruct H as [-> | []]. reflexivity.
Qed.

Lemma In_groupLoop K sentences tpw :
  forall n acc clip,
    In clip (groupLoop K sentences tpw n acc) ->
    In clip acc
    \/ exists m i, (1 <= m)%nat /\ (i + m <= List.length sentences)%nat
                   /\ windowClip K sentences tpw m i = Some clip.
Proof.
  induction n as [ | n IH]; intros acc clip H; cbn [groupLoop] in H;
    [now left | ].
  assert (Here : In clip (acc ++ windowsOfSize K sentences tpw (S n)) ->
                 In clip acc
                 \/ exists m i, (1 <= m)%nat
                      /\ (i + m <= List.length sentences)%nat
                      /\ windowClip K sentences tpw m i = Some clip).
  { intros Hc. apply in_app_or in Hc. destruct Hc as [Hc | Hc]; [now left | ].
    right. apply In_windowsOfSize in Hc. destruct Hc as (i & Hi & Hc).
    exists (S n), i. repeat split; auto. lia. }
  destruct (Nat.leb 150 _); [now apply Here | ].
  apply IH in H. destruct H as [H | H]; [now apply Here | now right].
Qed.

(** Every clip of [createPotentialClips] comes from a window of at least
    one sentence. *)
Lemma In_createPotentialClips K sentences tpw ct clip :
  In clip (createPotentialClips K sentences tpw ct) ->
  exists m i, (1 <= m)%nat /\ (i + m <= List.length sentences)%nat
              /\ windowClip K sentences tpw m i = Some clip.
Proof.
  unfold createPotentialClips. intros H. apply In_groupLoop in H.
  destruct H as [[] | H]. exact H.
Qed.

Lemma windowClip_text K sentences tpw m i clip :
  windowClip K sentences tpw m i = Some clip ->
  text clip = join (str " ") (firstn m (skipn i sentences)).
Proof.
  unfold windowClip. intros H.
  destruct (_ <? 5)%nat; [discriminate | ].
  destruct (geb _ _ && leb _ _); [ | discriminate].
  inversion H; subst; reflexivity.
Qed.

(** A window of at least one sentence inside the list ends with one of the
    sentences. *)
Lemma window_last (A : Type) (l : list A) (m i : nat) :
  (1 <= m)%nat -> (i + m <= List.length l)%nat ->
  exists pre x, firstn m (skipn i l) = pre ++ [x] /\ In x l.
Proof.
  intros Hm Hi.
  destruct (exists_last (l := firstn m (skipn i l))) as (pre & x & E).
  { intros E. apply (f_equal (@List.length A)) in E.
    rewrite length_firstn, length_skipn in E. simpl in E. lia. }
  exists pre, x. split; [exact E | ].
  assert (In x (firstn m (skipn i l))) by (rewrite E; apply in_or_app; simpl; auto).
  eapply In_skipn_list, In_firstn_list. eassumption.
Qed.

(** The window texts of sentences that end with a terminator end with
    one. *)
Lemma windowClip_ends K sentences tpw m i clip :
  (forall x, In x sentences ->
             exists w c, x = w ++ [c] /\ isTerminator c = true) ->
  (1 <= m)%nat -> (i + m <= List.length sentences)%nat ->
  windowClip K sentences tpw m i = Some clip ->
  exists w c, text clip = w ++ [c] /\ isTerminator c = true.
Proof.
  intros Hs Hm Hi H. apply windowClip_text in H.
  destruct (window_last _ sentences m i Hm Hi) as (pre & x & E & Hx).
  destruct (Hs x Hx) as (w & c & -> & Tc).
  destruct (join_ends (str " ") _ _ _ _ E) as (w' & J).
  exists w', c. split; [rewrite H; exact J | exact Tc].
Qed.

(** The same for the windows of any list of sentences that end with a
    terminator: the trimmed text of every clip ends with it. *)
Lemma createPotentialClips_trimmed_end K sentences tpw ct clip :
  (forall x, In x sentences ->
             exists w c, x = w ++ [c] /\ isTerminator c = true) ->
  In clip (createPotentialClips K sentences tpw ct) ->
  exists c, lastNonSpace (trim (text clip)) = Some c /\ isTerminator c = true.
Proof.
  intros Hs H. apply In_createPotentialClips in H.
  destruct H as (m & i & Hm & Hi & H).
  destruct (windowClip_ends K sentences tpw m i clip Hs Hm Hi H)
    as (w & c & E & Tc).
  pose proof (isTerminator_not_space c Tc) as Sc.
  destruct (trim_keeps_last w c Sc) as (w' & T).
  exists c. split; [ | exact Tc].
  rewrite E, T. now apply lastNonSpace_last.
Qed.

(** C1.  On the text path, every candidate of [createPotentialClips] whose
    [endsWithCompleteSentence] is true has a trimmed text whose last
    character that is not white space is one of [.], [!] and [?].  The
    sentences are the ones [identifyClipsFromFullText] splits the
    transcript into, for any transcript text, audio duration and
    configured constants. *)
Theorem complete_sentence_flag_sound K transcriptText audioDuration clip :
  In clip (textPathPotentialClips K transcriptText audioDuration) ->
  endsWithCompleteSentence clip = Some true ->
  exists c, lastNonSpace (trim (text clip)) = Some c
            /\ (c = "."%char \/ c = "!"%char \/ c = "?"%char).
Proof.
  intros H _. unfold textPathPotentialClips in H.
  destruct (textPathSentences transcriptText) as [ | s0 rest] eqn:E;
    [contradiction | ].
  rewrite <- E in H.
  apply createPotentialClips_trimmed_end in H.
  - destruct H as (c & L & Tc). exists c. split; [exact L | ].
    now apply isTerminator_cases.
  - intros x Hx. now apply textPathSentences_end with transcriptText.
Qed.

Lemma complete_sentence_flag_sound_witness :
  exists c, lastNonSpace (trim (text scenarioClip)) = Some c
            /\ (c = "."%char \/ c = "!"%char \/ c = "?"%char).
Proof.
  apply (complete_sentence_flag_sound defaults scenarioTranscript None
           scenarioClip).
  - vm_compute. left. reflexivity.
  - vm_compute. reflexivity.
Defined.

(** ** Durations of the candidates *)

Lemma geb_le (a b : Q) : geb a b = true <-> b <= a.
Proof. unfold geb. apply Qle_bool_iff. Qed.

Lemma leb_le (a b : Q) : leb a b = true <-> a <= b.
Proof. unfold leb. apply Qle_bool_iff. Qed.

Lemma gtb_lt (a b : Q) : gtb a b = true <-> b < a.
Proof.
  unfold gtb. rewrite negb_true_iff. split.
  - intros H. apply Qnot_le_lt. intros L. apply Qle_bool_iff in L. congruence.
  - intros H. destruct (Qle_bool a b) eqn:E; [ | reflexivity].
    apply Qle_bool_iff in E. lra.
Qed.

Lemma ltb_lt (a b : Q) : ltb a b = true <-> a < b.
Proof. unfold ltb. apply (gtb_lt b a). Qed.

Lemma ltb_ge (a b : Q) : ltb a b = false <-> b <= a.
Proof.
  unfold ltb. rewrite negb_false_iff. apply Qle_bool_iff.
Qed.

Lemma truthy_false (x : Q) : truthy x = false <-> x == 0.
Proof.
  unfold truthy. rewrite negb_false_iff. apply Qeq_bool_iff.
Qed.

(** A window clip spans its duration, which is at least 5 seconds. *)
Lemma windowClip_duration K sentences tpw m i clip :
  windowClip K sentences tpw m i = Some clip ->
  duration clip = end_ clip - start clip /\ 5 <= duration clip.
Proof.
  unfold windowClip. intros H.
  destruct (_ <? 5)%nat; [discriminate | ].
  destruct (geb _ _ && leb _ _) eqn:G; [ | discriminate].
  inversion H; subst; clear H. cbn [duration end_ start].
  split; [reflexivity | ].
  apply andb_true_iff in G. destruct G as (G & _).
  apply geb_le in G.
  eapply Qle_trans; [apply Q.le_max_l | exact G].
Qed.

(** After the validation a clip spans at least the smaller of the audio
    duration and 0.7 times the configured minimum. *)
Lemma validateClip_duration K audioDuration clip :
  (8 <= CLIP_MIN_DURATION K)%Z ->
  let v := validateClip K audioDuration clip in
  duration v = end_ v - start v
  /\ (match audioDuration with
      | Some d => d == 0 \/ 5 <= d
      | None => True
      end -> 5 <= duration v).
Proof.
  intros HK v. split; [reflexivity | ].
  assert (Hm : 5 <= inject_Z (CLIP_MIN_DURATION K) * 0.7).
  { assert (8 <= inject_Z (CLIP_MIN_DURATION K)).
    { change (inject_Z 8 <= inject_Z (CLIP_MIN_DURATION K)).
      rewrite <- Zle_Qle. exact HK. }
    lra. }
  assert (Main : forall maxTime, 5 <= maxTime ->
    5 <= Qmin maxTime
           (Qmax (Qmax 0 (Qmin (start clip)
                            (maxTime - inject_Z (CLIP_MIN_DURATION K) * 0.7))
                  + inject_Z (CLIP_MIN_DURATION K) * 0.7) (end_ clip))
         - Qmax 0 (Qmin (start clip)
                     (maxTime - inject_Z (CLIP_MIN_DURATION K) * 0.7))).
  { intros maxTime HM. revert Hm.
    generalize (inject_Z (CLIP_MIN_DURATION K) * 0.7). intros minSpan Hm.
    qsolve. }
  intros Ha. subst v. unfold validateClip. cbn [duration].
  destruct audioDuration as [d | ].
  - destruct (truthy d) eqn:T.
    + apply Main. destruct Ha as [Ha | Ha]; [ | exact Ha].
      apply truthy_false in Ha. congruence.
    + apply Main. lra.
  - apply Main. lra.
Qed.

Lemma windowCandidate_good wu windowStart windowEnd :
  geb (windowEnd - windowStart) 5 = true ->
  GoodDuration (windowCandidate wu windowStart windowEnd).
Proof.
  intros G. apply geb_le in G. split; [reflexivity | exact G].
Qed.

Lemma windowLoop_good windowStart :
  forall rest wu windowEnd acc,
    Forall GoodDuration acc ->
    Forall GoodDuration (windowLoop windowStart rest wu windowEnd acc).
Proof.
  induction rest as [ | u rest IH]; intros wu windowEnd acc Hacc;
    cbn [windowLoop]; [exact Hacc | ].
  destruct (gtb _ 60); [exact Hacc | ].
  cbv zeta.
  destruct (geb (u_end u / 1000 - windowStart) 5); [ | now apply IH].
  match goal with
  | |- Forall _ (windowLoop _ _ (fst ?p) (snd ?p) _) => generalize p
  end.
  intros [wu' windowEnd']. cbn [fst snd]. apply IH.
  destruct (geb (windowEnd' - windowStart) 5) eqn:G; [ | exact Hacc].
  apply Forall_app. split; [exact Hacc | ].
  constructor; [ | constructor]. now apply windowCandidate_good.
Qed.

Lemma singleCandidate_good u clip :
  singleCandidate u = Some clip -> GoodDuration clip.
Proof.
  unfold singleCandidate. intros H.
  destruct (geb _ 5 && leb _ 60); [ | discriminate].
  destruct (10 <=? _)%nat; [ | discriminate].
  cbv zeta in H.
  destruct (1 <=? _)%nat; [ | discriminate].
  revert H.
  match goal with
  | |- context [geb (fst ?p - _) 5] => generalize p
  end.
  intros [adjustedEndTime adjustedText]. cbn [fst snd].
  destruct (geb _ 5) eqn:G; [ | discriminate].
  intros H. inversion H; subst; clear H.
  apply geb_le in G. split; [reflexivity | exact G].
Qed.

Lemma windowsFrom_good fromI : Forall GoodDuration (windowsFrom fromI).
Proof.
  destruct fromI as [ | first rest]; [constructor | ].
  unfold windowsFrom. apply Forall_app. split.
  - apply windowLoop_good. constructor.
  - destruct (singleCandidate first) eqn:S; [ | constructor].
    constructor; [ | constructor]. now apply singleCandidate_good with first.
Qed.

(** Every candidate of the utterance path spans its duration, which is at
    least 5 seconds. *)
Lemma utterancePotentialClips_good utterances clip :
  In clip (utterancePotentialClips utterances) -> GoodDuration clip.
Proof.
  unfold utterancePotentialClips. intros H. apply in_flat_map in H.
  destruct H as (i & _ & H).
  pose proof (windowsFrom_good (skipn i utterances)) as F.
  rewrite Forall_forall in F. now apply F.
Qed.

(** The clip under construction spans its duration, the way the code
    stores the two: the duration is the end minus the start, or, after the
    cut to a sentence boundary, the end is the start plus the duration. *)
Lemma trimToSentence_spanned (c : Current) :
  c_duration c == c_end c - c_start c ->
  c_duration (trimToSentence c) == c_end (trimToSentence c)
                                   - c_start (trimToSentence c)
  \/ c_end (trimToSentence c) == c_start (trimToSentence c)
                                 + c_duration (trimToSentence c).
Proof.
  unfold trimToSentence. intros H.
  destruct (test _ _); [now left | ].
  destruct (lastBoundaryIndex _); [ | now left].
  right. cbn [c_duration c_end c_start]. reflexivity.
Qed.

Lemma pushIfLongEnough_basic K (P : Clip -> Prop) clips c :
  (geb (c_duration c) (inject_Z (CLIP_MIN_DURATION K)) = true ->
   P (basicClip c)) ->
  Forall P clips -> Forall P (pushIfLongEnough K clips c).
Proof.
  intros Hc Hclips. unfold pushIfLongEnough.
  destruct (geb _ _) eqn:G; [ | exact Hclips].
  apply Forall_app. split; [exact Hclips | ]. constructor; auto.
Qed.

Lemma trimmed_basic K (c : Current) :
  c_duration c == c_end c - c_start c ->
  geb (c_duration (trimToSentence c)) (inject_Z (CLIP_MIN_DURATION K)) = true ->
  BasicSpan K (basicClip (trimToSentence c)).
Proof.
  intros H G. apply geb_le in G. split; [ | exact G].
  exact (trimToSentence_spanned c H).
Qed.

Lemma basicLoop_spans K :
  forall rest c clips,
    c_duration c == c_end c - c_start c ->
    Forall (BasicSpan K) clips ->
    Forall (BasicSpan K) (basicLoop K rest c clips).
Proof.
  induction rest as [ | u rest IH]; intros c clips Hc Hclips;
    cbn [basicLoop].
  - apply pushIfLongEnough_basic; [now apply trimmed_basic | exact Hclips].
  - cbv zeta. destruct (gtb _ _).
    + apply IH.
      * unfold currentOf. cbn [c_duration c_end c_start]. reflexivity.
      * apply pushIfLongEnough_basic; [now apply trimmed_basic | exact Hclips].
    + apply IH; [ | exact Hclips].
      cbn [c_duration c_end c_start]. reflexivity.
Qed.

Lemma identifyClips_spans K utterances clip :
  In clip (identifyClips K utterances) -> BasicSpan K clip.
Proof.
  intros H. destruct utterances as [ | first rest]; [contradiction | ].
  unfold identifyClips in H. apply In_firstn_list in H.
  assert (F : Forall (BasicSpan K) (basicLoop K rest (currentOf first) [])).
  { apply basicLoop_spans; [ | constructor].
    unfold currentOf. cbn [c_duration c_end c_start]. reflexivity. }
  rewrite Forall_forall in F. now apply F.
Qed.

(** C2, as the code has it.  Every candidate of the text path, before and
    after the timestamp validation, and of the utterance path has
    [duration = end - start]; a clip of the basic fallback has it too, or,
    when its text was cut back to a sentence boundary, [end = start +
    duration].  The candidates of the text path before the validation and
    of the utterance path last at least 5 seconds; a clip of the basic
    fallback lasts at least [CLIP_MIN_DURATION], so at least 5 seconds when
    that is 5 or more; a validated candidate of the text path lasts at
    least 5 seconds when [CLIP_MIN_DURATION] is at least its default 8 and
    the transcript gives no audio duration or one of at least 5
    seconds. *)
Theorem candidate_durations K :
  (forall transcriptText audioDuration clip,
      In clip (textPathPotentialClips K transcriptText audioDuration) ->
      duration clip == end_ clip - start clip /\ 5 <= duration clip)
  /\ (forall transcriptText audioDuration clip,
         In clip (textPathValidatedClips K transcriptText audioDuration) ->
         duration clip == end_ clip - start clip
         /\ ((8 <= CLIP_MIN_DURATION K)%Z ->
             match audioDuration with
             | Some d => d == 0 \/ 5 <= d
             | None => True
             end -> 5 <= duration clip))
  /\ (forall utterances clip,
         In clip (utterancePotentialClips utterances) ->
         duration clip == end_ clip - start clip /\ 5 <= duration clip)
  /\ (forall utterances clip,
         In clip (identifyClips K utterances) ->
         (duration clip == end_ clip - start clip
          \/ end_ clip == start clip + duration clip)
         /\ inject_Z (CLIP_MIN_DURATION K) <= duration clip
         /\ ((5 <= CLIP_MIN_DURATION K)%Z -> 5 <= duration clip)).
Proof.
  split; [ | split; [ | split]].
  - intros transcriptText audioDuration clip H.
    unfold textPathPotentialClips in H.
    destruct (textPathSentences transcriptText); [contradiction | ].
    apply In_createPotentialClips in H. destruct H as (m & i & _ & _ & H).
    apply windowClip_duration in H. destruct H as (E & L).
    split; [now rewrite E | exact L].
  - intros transcriptText audioDuration clip H.
    unfold textPathValidatedClips in H. apply in_map_iff in H.
    destruct H as (c & <- & _).
    split; [reflexivity | ]. intros HK.
    exact (proj2 (validateClip_duration K audioDuration c HK)).
  - intros utterances clip H.
    exact (utterancePotentialClips_good utterances clip H).
  - intros utterances clip H.
    destruct (identifyClips_spans K utterances clip H) as (S & L).
    split; [exact S | split; [exact L | ]].
    intros HK.
    assert (5 <= inject_Z (CLIP_MIN_DURATION K)).
    { change (inject_Z 5 <= inject_Z (CLIP_MIN_DURATION K)).
      rewrite <- Zle_Qle. exact HK. }
    lra.
Qed.

(** The scenario transcript gives a candidate that lasts at least 5
    seconds after the validation, with the default constants and no audio
    duration. *)
Lemma candidate_durations_witness :
  5 <= duration scenarioClip.
Proof.
  refine (proj2 (proj1 (proj2 (candidate_durations defaults))
                   scenarioTranscript None scenarioClip _) _ _).
  - vm_compute. left. reflexivity.
  - vm_compute. discriminate.
  - exact I.
Defined.

Section Binary64Arithmetic.
Import PrimFloat.

(** C2 as stated fails, in two ways.  On the text path, the transcript of
    one sentence of eight words with an audio duration of 4.75 seconds
    gives one candidate, from 0 to 5.75 seconds, and the validation cuts it
    at the end of the audio: its duration is 4.75 seconds.  In the basic
    fallback, the utterance from 0.258 to 8 seconds with the text
    [One. Two. And then] is cut back to [One. Two.], 9 characters for a
    boundary at 10, and in the binary64 arithmetic of the program the
    stored duration, above the minimum of 8 seconds, is not the stored end
    minus the stored start.

    The floor of 5 seconds also rests on the configured minimum, which the
    environment may set.  With a minimum of 7 seconds the validation moves
    a start no further back than 4.9 seconds before the end of the audio:
    of the transcript of twenty words in 20 seconds, the window of the
    last sentence, from 15.5 to 22 seconds, becomes the clip from 15.1 to
    20 seconds.  With a minimum of 3 seconds the basic fallback returns the
    utterance of three seconds. *)
Lemma durations_not_as_stated :
  (exists clip,
      In clip (textPathValidatedClips defaults shortTranscript shortAudio)
      /\ duration clip == 4.75
      /\ duration clip < 5)
  /\ (exists clip,
         identifyClips defaults [openUtterance] = [clip]
         /\ text clip = str "One. Two."
         /\ lastBoundaryIndex (u_text openUtterance) = Some 10%nat
         /\ List.length (text clip) = 9%nat)
  /\ (let '(s, e, d) :=
         Binary64.trimmedTimes 258%float 8000%float 10%float 9%float in
       PrimFloat.leb 8%float d = true
       /\ PrimFloat.eqb (PrimFloat.sub e s) d = false)
  /\ (exists clip,
         In clip (textPathValidatedClips (mkConstants 7 30 15)
                                         lateTranscript lateAudio)
         /\ start clip == 15.1 /\ end_ clip == 20
         /\ duration clip == 4.9 /\ duration clip < 5)
  /\ (exists clip,
         identifyClips (mkConstants 3 30 15) [briefUtterance] = [clip]
         /\ duration clip == 3 /\ duration clip < 5).
Proof.
  split; [ | split; [ | split; [ | split]]].
  - eexists. split; [ | split].
    + vm_compute. left. reflexivity.
    + vm_compute. reflexivity.
    + vm_compute. reflexivity.
  - eexists. split; [vm_compute; reflexivity | ].
    split; [ | split]; vm_compute; reflexivity.
  - vm_compute. split; reflexivity.
  - eexists. split; [ | repeat split].
    + vm_compute. right. right. left. reflexivity.
    + vm_compute. reflexivity.
    + vm_compute. reflexivity.
    + vm_compute. reflexivity.
    + vm_compute. reflexivity.
  - eexists. split; [vm_compute; reflexivity | ].
    split; vm_compute; reflexivity.
Qed.

End Binary64Arithmetic.

(** ** The score of the text path *)

Lemma windowClip_score K sentences tpw m i clip :
  windowClip K sentences tpw m i = Some clip ->
  qualityScore clip = Some (textPathScore K (duration clip) (text clip)).
Proof.
  unfold windowClip. intros H.
  destruct (_ <? 5)%nat; [discriminate | ].
  destruct (geb _ _ && leb _ _); [ | discriminate].
  inversion H; subst; clear H. reflexivity.
Qed.

Lemma textPathScore_wd K d d' txt :
  d == d' -> textPathScore K d txt == textPathScore K d' txt.
Proof.
  intros E. unfold textPathScore. cbv zeta. now rewrite E.
Qed.

(** C8, as the code has it.  A candidate of the text path is scored once,
    by [createPotentialClips]: its [qualityScore] is the score of the
    specification over its text and the duration it has there.  The
    timestamp validation keeps the text and the score and recomputes only
    the times, so a validated candidate carries the score of the duration
    it had before the validation; that is the score of its final duration
    whenever the validation leaves the duration as it was. *)
Theorem text_path_score K transcriptText audioDuration :
  (forall clip,
      In clip (textPathPotentialClips K transcriptText audioDuration) ->
      qualityScore clip = Some (textPathScore K (duration clip) (text clip)))
  /\ (forall v,
         In v (textPathValidatedClips K transcriptText audioDuration) ->
         exists clip,
           In clip (textPathPotentialClips K transcriptText audioDuration)
           /\ v = validateClip K audioDuration clip
           /\ text v = text clip
           /\ qualityScore v
              = Some (textPathScore K (duration clip) (text v))
           /\ (duration v == duration clip ->
               textPathScore K (duration clip) (text v)
               == textPathScore K (duration v) (text v))).
Proof.
  assert (A : forall clip,
      In clip (textPathPotentialClips K transcriptText audioDuration) ->
      qualityScore clip = Some (textPathScore K (duration clip) (text clip))).
  { intros clip H. unfold textPathPotentialClips in H.
    destruct (textPathSentences transcriptText); [contradiction | ].
    apply In_createPotentialClips in H. destruct H as (m & i & _ & _ & H).
    now apply windowClip_score in H. }
  split; [exact A | ].
  intros v H. unfold textPathValidatedClips in H. apply in_map_iff in H.
  destruct H as (clip & <- & H). exists clip.
  repeat split; auto.
  - cbn [validateClip qualityScore text]. now apply A.
  - intros E. apply textPathScore_wd. now symmetry.
Qed.

Lemma text_path_score_witness :
  qualityScore scenarioClip
  = Some (textPathScore defaults (duration scenarioClip) (text scenarioClip)).
Proof.
  apply (proj1 (text_path_score defaults scenarioTranscript None)).
  vm_compute. left. reflexivity.
Defined.

(** C8 as stated fails after the validation: the candidate of the short
    transcript is scored for its 5.75 seconds and keeps that score when the
    validation shortens it to 4.75 seconds. *)
Lemma validated_score_not_recomputed :
  exists clip q,
    In clip (textPathValidatedClips defaults shortTranscript shortAudio)
    /\ qualityScore clip = Some q
    /\ q == textPathScore defaults 5.75 (text clip)
    /\ duration clip == 4.75
    /\ ~ q == textPathScore defaults (duration clip) (text clip).
Proof.
  eexists. eexists. split; [ | split; [ | split; [ | split]]].
  - vm_compute. left. reflexivity.
  - vm_compute. reflexivity.
  - vm_compute. reflexivity.
  - vm_compute. reflexivity.
  - intros H. vm_compute in H. discriminate H.
Qed.

(** ** OverlapResolver *)

Lemma significantOverlap_true (a b : Clip) :
  significantOverlap a b = true <->
  Qmax (start a) (start b) < Qmin (end_ a) (end_ b)
  /\ OVERLAP_THRESHOLD < sharedTime a b / shorterSpan a b.
Proof.
  unfold significantOverlap, sharedTime, shorterSpan. cbv zeta.
  destruct (leb _ _) eqn:L.
  - apply leb_le in L. split; [discriminate | ]. intros (H & _). lra.
  - rewrite gtb_lt. split.
    + intros H. split; [ | exact H].
      apply Qnot_le_lt. intros C. apply leb_le in C. congruence.
    + tauto.
Qed.

(** The test does not depend on which clip is the new one. *)
Lemma significantOverlap_sym (a b : Clip) :
  significantOverlap a b = significantOverlap b a.
Proof.
  apply eq_true_iff_eq. rewrite !significantOverlap_true.
  unfold sharedTime, shorterSpan.
  rewrite (Q.max_comm (start a)), (Q.min_comm (end_ a)),
          (Q.min_comm (end_ a - start a)).
  reflexivity.
Qed.

(** For clips of positive length the test is the rule of the
    specification: the shared time exceeds half of the shorter span. *)
Lemma significantOverlap_spec (a b : Clip) :
  start a < end_ a -> start b < end_ b ->
  (significantOverlap a b = true <->
   shorterSpan a b * 0.5 < sharedTime a b).
Proof.
  intros Ha Hb. rewrite significantOverlap_true.
  assert (Pos : 0 < shorterSpan a b).
  { unfold shorterSpan. qsolve. }
  unfold OVERLAP_THRESHOLD. split.
  - intros (_ & H).
    apply Qmult_lt_r with (z := shorterSpan a b) in H; [ | exact Pos].
    unfold Qdiv in H. rewrite <- Qmult_assoc in H.
    rewrite (Qmult_comm (/ _)), Qmult_inv_r in H; lra.
  - intros H. split.
    + unfold sharedTime in H. lra.
    + apply Qlt_shift_div_l; [exact Pos | lra].
Qed.

Lemma muchBetter_true (c r : Clip) :
  muchBetter c r = true ->
  exists q q', qualityScore c = Some q /\ qualityScore r = Some q'
               /\ q' * 1.2 < q.
Proof.
  unfold muchBetter.
  destruct (qualityScore c) as [q | ]; [ | discriminate].
  destruct (qualityScore r) as [q' | ]; [ | discriminate].
  rewrite !andb_true_iff. intros (_ & G). apply gtb_lt in G. eauto.
Qed.

Lemma FOP_snoc (A : Type) (R : A -> A -> Prop) (l : list A) (x : A) :
  ForallOrdPairs R l -> Forall (fun a => R a x) l ->
  ForallOrdPairs R (l ++ [x]).
Proof.
  induction 1 as [ | a l Ha Hl IH]; intros F; simpl.
  - repeat constructor.
  - inversion F; subst. constructor; [ | now apply IH].
    apply Forall_app. split; [exact Ha | now repeat constructor].
Qed.

Lemma Forall_replaceFirst (A : Type) (P : A -> Prop) (p : A -> bool)
  (new : A) (l : list A) :
  Forall P l -> P new -> Forall P (replaceFirst p new l).
Proof.
  induction 1 as [ | a l Ha Hl IH]; intros N; simpl; [constructor | ].
  destruct (p a); constructor; auto.
Qed.

Lemma FOP_replaceFirst (A : Type) (R : A -> A -> Prop) (p : A -> bool)
  (new : A) (l : list A) :
  ForallOrdPairs R l -> (forall a, R a new) -> (forall a, R new a) ->
  ForallOrdPairs R (replaceFirst p new l).
Proof.
  induction 1 as [ | a l Ha Hl IH]; intros N1 N2; simpl; [constructor | ].
  destruct (p a).
  - constructor; [ | exact Hl]. apply Forall_forall. intros; apply N2.
  - constructor; [ | now apply IH]. now apply Forall_replaceFirst.
Qed.

Lemma FOP_nth (A : Type) (R : A -> A -> Prop) (l : list A) :
  ForallOrdPairs R l ->
  forall i j a b, (i < j)%nat ->
    nth_error l i = Some a -> nth_error l j = Some b -> R a b.
Proof.
  induction 1 as [ | x l Hx Hl IH]; intros i j a b Lt Hi Hj.
  - destruct i; discriminate.
  - destruct j as [ | j]; [lia | ]. simpl in Hj.
    destruct i as [ | i]; simpl in Hi.
    + inversion Hi; subst. rewrite Forall_forall in Hx.
      apply Hx. eapply nth_error_In; eauto.
    + apply (IH i j); auto. lia.
Qed.

(** One step of the pass keeps the kept clips compatible. *)
Lemma resolveStepNoted_compatible (finalClips : list Kept) (clip : Clip) :
  ForallOrdPairs Compatible finalClips ->
  ForallOrdPairs Compatible (resolveStepNoted finalClips clip).
Proof.
  intros F. unfold resolveStepNoted. cbv zeta.
  destruct (existsb _ finalClips) eqn:E; cbn [negb].
  - destruct (find _ finalClips) as [ov | ] eqn:Fd; [ | exact F].
    destruct (muchBetter clip (fst ov)) eqn:B; [ | exact F].
    apply find_some in Fd. destruct Fd as (_ & Ov).
    assert (K : keptByReplacement (clip, Some (fst ov))).
    { destruct (muchBetter_true _ _ B) as (q & q' & Q1 & Q2 & L).
      exists (fst ov), q, q'. cbn [fst snd]. auto. }
    apply FOP_replaceFirst; auto; intros a _; [now right | now left].
  - apply FOP_snoc; [exact F | ].
    apply Forall_forall. intros a Ha O. exfalso.
    cbn [fst] in O. rewrite significantOverlap_sym in O.
    assert (existsb (fun k : Kept => significantOverlap clip (fst k))
                    finalClips = true).
    { apply existsb_exists. eauto. }
    congruence.
Qed.

Lemma fold_resolveStepNoted_compatible (l : list Clip) :
  forall finalClips,
    ForallOrdPairs Compatible finalClips ->
    ForallOrdPairs Compatible (fold_left resolveStepNoted l finalClips).
Proof.
  induction l as [ | c l IH]; intros finalClips F; simpl; [exact F | ].
  apply IH. now apply resolveStepNoted_compatible.
Qed.

Lemma existsb_map_fst (p : Clip -> bool) (l : list Kept) :
  existsb p (map fst l) = existsb (fun k => p (fst k)) l.
Proof.
  induction l as [ | a l IH]; simpl; [reflexivity | now rewrite IH].
Qed.

Lemma find_map_fst (p : Clip -> bool) (l : list Kept) :
  find p (map fst l) = option_map fst (find (fun k => p (fst k)) l).
Proof.
  induction l as [ | a l IH]; simpl; [reflexivity | ].
  destruct (p (fst a)); [reflexivity | exact IH].
Qed.

Lemma replaceFirst_map_fst (p : Clip -> bool) (new : Kept) (l : list Kept) :
  map fst (replaceFirst (fun k => p (fst k)) new l)
  = replaceFirst p (fst new) (map fst l).
Proof.
  induction l as [ | a l IH]; simpl; [reflexivity | ].
  destruct (p (fst a)); simpl; [reflexivity | now rewrite IH].
Qed.

(** Dropping the notes gives the step of the code. *)
Lemma resolveStepNoted_erase (finalClips : list Kept) (clip : Clip) :
  map fst (resolveStepNoted finalClips clip)
  = resolveStep (map fst finalClips) clip.
Proof.
  unfold resolveStepNoted, resolveStep. cbv zeta.
  rewrite existsb_map_fst, find_map_fst.
  destruct (existsb _ finalClips); cbn [negb].
  - destruct (find _ finalClips) as [ov | ]; cbn [option_map];
      [ | reflexivity].
    destruct (muchBetter clip (fst ov)); [ | reflexivity].
    now rewrite replaceFirst_map_fst.
  - now rewrite map_app.
Qed.

Lemma analyzeNoted_erase_from (l : list Clip) :
  forall finalClips,
    map fst (fold_left resolveStepNoted l finalClips)
    = fold_left resolveStep l (map fst finalClips).
Proof.
  induction l as [ | c l IH]; intros finalClips; simpl; [reflexivity | ].
  now rewrite IH, resolveStepNoted_erase.
Qed.

(** [analyzeNoted] is [analyzeClipsForQualityAndOverlap] with a note on
    every kept clip, and in its output two clips at different positions
    overlap significantly (by more than half of the shorter one, the test
    of the code) only if one of them came in by the replacement rule: it
    replaced a clip it overlaps, with a quality score above 1.2 times the
    score of the replaced clip. *)
Theorem overlaps_only_by_replacement (clips : list Clip) :
  map fst (analyzeNoted clips) = analyzeClipsForQualityAndOverlap clips
  /\ forall i j a b,
       (i < j)%nat ->
       nth_error (analyzeNoted clips) i = Some a ->
       nth_error (analyzeNoted clips) j = Some b ->
       significantOverlap (fst a) (fst b) = true ->
       keptByReplacement a \/ keptByReplacement b.
Proof.
  split.
  - unfold analyzeNoted, analyzeClipsForQualityAndOverlap.
    now rewrite analyzeNoted_erase_from.
  - intros i j a b Lt Hi Hj.
    assert (F : ForallOrdPairs Compatible (analyzeNoted clips)).
    { apply fold_resolveStepNoted_compatible. constructor. }
    exact (FOP_nth _ _ _ F i j a b Lt Hi Hj).
Qed.

(** The exception is met: the third of the three clips replaces the first
    and stays beside the second, which it overlaps. *)
Lemma overlaps_only_by_replacement_witness :
  keptByReplacement (overlapC, Some overlapA)
  \/ keptByReplacement (overlapB, None).
Proof.
  apply (proj2 (overlaps_only_by_replacement [overlapA; overlapB; overlapC])
               0%nat 1%nat).
  - lia.
  - vm_compute. reflexivity.
  - vm_compute. reflexivity.
  - vm_compute. reflexivity.
Defined.


(** ** Sorting *)

Lemma insertBy_perm (A : Type) (cmp : A -> A -> Q) (x : A) (l : list A) :
  Permutation (insertBy cmp x l) (x :: l).
Proof.
  induction l as [ | y l IH]; simpl; [reflexivity | ].
  destruct (Qle_bool _ _); [reflexivity | ].
  rewrite IH. apply perm_swap.
Qed.

Lemma sortBy_perm (A : Type) (cmp : A -> A -> Q) (l : list A) :
  Permutation (sortBy cmp l) l.
Proof.
  induction l as [ | x l IH]; simpl; [reflexivity | ].
  unfold sortBy in *. simpl. rewrite insertBy_perm. now constructor.
Qed.

Lemma sortBy_In (A : Type) (cmp : A -> A -> Q) (l : list A) (x : A) :
  In x (sortBy cmp l) <-> In x l.
Proof.
  split; apply Permutation_in;
    [apply sortBy_perm | symmetry; apply sortBy_perm].
Qed.

Lemma sortBy_length (A : Type) (cmp : A -> A -> Q) (l : list A) :
  List.length (sortBy cmp l) = List.length l.
Proof. apply Permutation_length, sortBy_perm. Qed.

(** ** FallbackRanker *)

Lemma categoryEqb_eq (a b : DurationCategory) :
  categoryEqb a b = true <-> a = b.
Proof. destruct a, b; simpl; split; congruence. Qed.

Lemma In_scoreAll (l : list Clip) (s : Scored) :
  In s (scoreAll l) -> exists c, In c l /\ snd s = scoreClip c.
Proof.
  unfold scoreAll. destruct s as [i s]. intros H.
  apply in_combine_r in H. apply in_map_iff in H.
  destruct H as (c & <- & H). eauto.
Qed.

Lemma scoreAll_In (l : list Clip) (c : Clip) :
  In c l -> exists i, In (i, scoreClip c) (scoreAll l).
Proof.
  unfold scoreAll. generalize 0%nat.
  induction l as [ | x l IH]; intros a H; [contradiction | ].
  simpl. destruct H as [-> | H].
  - exists a. now left.
  - destruct (IH (S a) H) as (i & Hi). exists i. now right.
Qed.

Lemma In_bucketPicks (scoredClips : list Scored) (s : Scored) :
  In s (bucketPicks scoredClips) -> In s scoredClips.
Proof.
  unfold bucketPicks. intros H. apply in_flat_map in H.
  destruct H as (cat & _ & H). apply In_firstn_list in H.
  unfold clipsByDuration in H. apply sortBy_In in H.
  apply filter_In in H. tauto.
Qed.

Lemma bucketPicks_length (scoredClips : list Scored) :
  (List.length (bucketPicks scoredClips) <= 4)%nat.
Proof.
  unfold bucketPicks, categories. cbn [flat_map].
  rewrite !length_app.
  pose proof (firstn_le_length 1 (clipsByDuration scoredClips very_short)).
  pose proof (firstn_le_length 1 (clipsByDuration scoredClips short)).
  pose proof (firstn_le_length 1 (clipsByDuration scoredClips medium)).
  pose proof (firstn_le_length 1 (clipsByDuration scoredClips long)).
  cbn [List.length app]. lia.
Qed.

(** The head of a category list is a clip of that category. *)
Lemma clipsByDuration_category (scoredClips : list Scored)
  (cat : DurationCategory) (s : Scored) :
  In s (clipsByDuration scoredClips cat) ->
  durationCategory (snd s) = Some cat.
Proof.
  unfold clipsByDuration. intros H. apply sortBy_In in H.
  apply filter_In in H. destruct H as (_ & H). unfold inCategory in H.
  destruct (durationCategory (snd s)) as [k | ]; [ | discriminate].
  apply categoryEqb_eq in H. now subst.
Qed.

(** The pick of one category: nothing when it is empty, its top clip
    otherwise. *)
Lemma pick_of_category (scoredClips : list Scored) (cat : DurationCategory) :
  (existsb (inCategory cat) scoredClips = false
   /\ firstn 1 (clipsByDuration scoredClips cat) = [])
  \/ (existsb (inCategory cat) scoredClips = true
      /\ exists s, firstn 1 (clipsByDuration scoredClips cat) = [s]
                   /\ durationCategory (snd s) = Some cat).
Proof.
  destruct (clipsByDuration scoredClips cat) as [ | s rest] eqn:E.
  - left. split; [ | reflexivity].
    destruct (existsb _ _) eqn:X; [ | reflexivity].
    apply existsb_exists in X. destruct X as (x & Hx & Cx).
    assert (In x (clipsByDuration scoredClips cat)).
    { unfold clipsByDuration. apply sortBy_In, filter_In. auto. }
    rewrite E in H. contradiction.
  - right.
    assert (Hs : In s (clipsByDuration scoredClips cat))
      by (rewrite E; now left).
    split.
    + apply existsb_exists. exists s.
      unfold clipsByDuration in Hs. apply sortBy_In, filter_In in Hs.
      exact Hs.
    + exists s. split; [reflexivity | ].
      now apply clipsByDuration_category with scoredClips.
Qed.

Lemma inCategory_scoreAll (l : list Clip) (cat : DurationCategory) :
  existsb (inCategory cat) (scoreAll l)
  = existsb (fun c => categoryEqb (categoryOf (duration c)) cat) l.
Proof.
  unfold scoreAll. generalize 0%nat.
  induction l as [ | x l IH]; intros a; simpl; [reflexivity | ].
  now rewrite IH.
Qed.

Lemma picks_of_categories (l : list Clip) (cats : list DurationCategory) :
  map (fun s => durationCategory (snd s))
      (flat_map (fun cat => firstn 1 (clipsByDuration (scoreAll l) cat)) cats)
  = map Some
      (filter (fun cat =>
                 existsb (fun c => categoryEqb (categoryOf (duration c)) cat) l)
              cats).
Proof.
  induction cats as [ | cat cats IH]; cbn [flat_map filter];
    [reflexivity | ].
  rewrite map_app, IH, <- inCategory_scoreAll.
  destruct (pick_of_category (scoreAll l) cat)
    as [(X & ->) | (X & s & -> & C)]; rewrite X; cbn [map app].
  - reflexivity.
  - now rewrite C.
Qed.

(** Before the top-up there is exactly one clip of every category that is
    not empty, in the order of the categories. *)
Lemma bucketPicks_categories (l : list Clip) :
  map (fun s => durationCategory (snd s)) (bucketPicks (scoreAll l))
  = map Some (categoriesOf l).
Proof. apply picks_of_categories. Qed.

(** The top-up loop only appends, keeps to five clips, and accepts no clip
    that overlaps one selected before it. *)
Lemma topUp_spec :
  forall remainingClips selectedClips,
  exists added,
    topUp selectedClips remainingClips = selectedClips ++ added
    /\ AcceptedAfter selectedClips added
    /\ (forall x, In x added -> In x remainingClips)
    /\ ((List.length selectedClips <= 5)%nat ->
        (List.length (selectedClips ++ added) <= 5)%nat).
Proof.
  induction remainingClips as [ | next rest IH]; intros selectedClips;
    cbn [topUp].
  - exists []. rewrite app_nil_r. simpl. tauto.
  - destruct (List.length selectedClips <? 5)%nat eqn:L.
    + destruct (existsb _ selectedClips) eqn:O.
      * destruct (IH selectedClips) as (added & E & A & I & N).
        exists added. repeat split; auto. intros x Hx. right. auto.
      * destruct (IH (selectedClips ++ [next])) as (added & E & A & I & N).
        exists (next :: added). rewrite E, <- app_assoc. simpl.
        repeat split; auto.
        -- intros e He. destruct (overlapsOver40 _ _) eqn:V; [ | reflexivity].
           assert (existsb (fun e0 => overlapsOver40 (snd next) (snd e0))
                           selectedClips = true)
             by (apply existsb_exists; eauto).
           congruence.
        -- intros x [<- | Hx]; [now left | right; auto].
        -- intros _. apply Nat.ltb_lt in L.
           rewrite <- app_assoc in N. simpl in N. apply N.
           rewrite length_app. simpl. lia.
    + exists []. rewrite app_nil_r. simpl. tauto.
Qed.

(** The selection is the bucket picks followed by what the top-up
    accepted. *)
Lemma fallbackSelected_shape (filteredClips : list Clip) :
  exists added,
    fallbackSelected filteredClips
    = bucketPicks (scoreAll filteredClips) ++ added
    /\ AcceptedAfter (bucketPicks (scoreAll filteredClips)) added
    /\ (forall x, In x added -> In x (scoreAll filteredClips))
    /\ (List.length (bucketPicks (scoreAll filteredClips) ++ added) <= 5)%nat.
Proof.
  destruct filteredClips as [ | c0 l0].
  - exists []. simpl. repeat split; auto; lia.
  - unfold fallbackSelected. cbv beta iota zeta.
    set (filteredClips := c0 :: l0).
    pose proof (bucketPicks_length (scoreAll filteredClips)) as L4.
    destruct (5 <? _)%nat eqn:L5; [apply Nat.ltb_lt in L5; lia | ].
    destruct (_ <? 5)%nat eqn:L; [ | apply Nat.ltb_ge in L; lia].
    match goal with
    | |- context [topUp ?s ?r] => destruct (topUp_spec r s) as (added & T & A & I & N)
    end.
    exists added. split; [exact T | split; [exact A | split]].
    + intros x Hx. apply I in Hx. apply sortBy_In in Hx.
      apply filter_In in Hx. tauto.
    + apply N. lia.
Qed.

Lemma In_fallbackClipSelection (filteredClips : list Clip) (s : Clip) :
  In s (fallbackClipSelection filteredClips) ->
  exists c, In c filteredClips /\ s = scoreClip c.
Proof.
  unfold fallbackClipSelection. intros H. apply in_map_iff in H.
  destruct H as (x & <- & H).
  destruct (fallbackSelected_shape filteredClips) as (added & E & _ & I & _).
  rewrite E in H. apply in_app_or in H.
  assert (S : In x (scoreAll filteredClips)).
  { destruct H as [H | H]; [now apply In_bucketPicks | now apply I]. }
  apply In_scoreAll in S. exact S.
Qed.

Lemma category_covered (filteredClips : list Clip) (c : Clip) :
  In c filteredClips ->
  exists s, In s (fallbackClipSelection filteredClips)
            /\ durationCategory s = Some (categoryOf (duration c)).
Proof.
  intros H. set (cat := categoryOf (duration c)).
  assert (X : existsb (inCategory cat) (scoreAll filteredClips) = true).
  { rewrite inCategory_scoreAll. apply existsb_exists. exists c.
    split; [exact H | apply categoryEqb_eq; reflexivity]. }
  destruct (pick_of_category (scoreAll filteredClips) cat)
    as [(X' & _) | (_ & s & P & C)]; [congruence | ].
  exists (snd s). split; [ | exact C].
  unfold fallbackClipSelection. apply in_map.
  destruct (fallbackSelected_shape filteredClips) as (added & E & _).
  rewrite E. apply in_or_app. left.
  unfold bucketPicks. apply in_flat_map. exists cat. split.
  - unfold categories. destruct cat; simpl; auto.
  - rewrite P. now left.
Qed.

Lemma categoryOf_wd (d d' : Q) : d == d' -> categoryOf d = categoryOf d'.
Proof.
  intros E. unfold categoryOf, ltb.
  assert (L : forall x, Qle_bool x d = Qle_bool x d')
    by (intros x; now rewrite E).
  now rewrite !L.
Qed.

Lemma inCategory_value (cat k : DurationCategory) (i : nat) (s : Clip) :
  durationCategory s = Some k -> inCategory cat (i, s) = categoryEqb k cat.
Proof. unfold inCategory. cbn [snd]. now intros ->. Qed.

(** The scenario of the specification: four candidates of 8, 15, 25 and 40
    seconds.  Whatever their texts, times and scores, they are the
    selection, one per category. *)
Lemma four_buckets_scenario (c1 c2 c3 c4 : Clip) :
  duration c1 == 8 -> duration c2 == 15 ->
  duration c3 == 25 -> duration c4 == 40 ->
  fallbackClipSelection [c1; c2; c3; c4]
  = [scoreClip c1; scoreClip c2; scoreClip c3; scoreClip c4]
  /\ map durationCategory (fallbackClipSelection [c1; c2; c3; c4])
     = [Some very_short; Some short; Some medium; Some long].
Proof.
  intros D1 D2 D3 D4.
  assert (C1 : durationCategory (scoreClip c1) = Some very_short).
  { cbn [scoreClip durationCategory]. now rewrite (categoryOf_wd _ _ D1). }
  assert (C2 : durationCategory (scoreClip c2) = Some short).
  { cbn [scoreClip durationCategory]. now rewrite (categoryOf_wd _ _ D2). }
  assert (C3 : durationCategory (scoreClip c3) = Some medium).
  { cbn [scoreClip durationCategory]. now rewrite (categoryOf_wd _ _ D3). }
  assert (C4 : durationCategory (scoreClip c4) = Some long).
  { cbn [scoreClip durationCategory]. now rewrite (categoryOf_wd _ _ D4). }
  assert (E : fallbackClipSelection [c1; c2; c3; c4]
              = [scoreClip c1; scoreClip c2; scoreClip c3; scoreClip c4]).
  { unfold fallbackClipSelection, fallbackSelected, scoreAll.
    cbn [List.length seq map combine]. cbv zeta.
    revert C1 C2 C3 C4.
    generalize (scoreClip c1) (scoreClip c2) (scoreClip c3) (scoreClip c4).
    intros s1 s2 s3 s4 C1 C2 C3 C4.
    assert (P : bucketPicks [(0, s1); (1, s2); (2, s3); (3, s4)]%nat
                = [(0, s1); (1, s2); (2, s3); (3, s4)]%nat).
    { unfold bucketPicks, clipsByDuration, categories.
      cbn [flat_map filter].
      rewrite !(inCategory_value _ _ _ _ C1), !(inCategory_value _ _ _ _ C2),
              !(inCategory_value _ _ _ _ C3), !(inCategory_value _ _ _ _ C4).
      reflexivity. }
    rewrite P. reflexivity. }
  split; [exact E | ].
  rewrite E. cbn [map]. now rewrite C1, C2, C3, C4.
Qed.

(** The four categories are the durations under 10, from 10 to under 20,
    from 20 to under 30, and from 30 seconds on. *)
Lemma categoryOf_bounds (d : Q) :
  (categoryOf d = very_short <-> d < 10)
  /\ (categoryOf d = short <-> 10 <= d /\ d < 20)
  /\ (categoryOf d = medium <-> 20 <= d /\ d < 30)
  /\ (categoryOf d = long <-> 30 <= d).
Proof.
  unfold categoryOf.
  destruct (ltb d 10) eqn:E1;
    [apply ltb_lt in E1 | apply ltb_ge in E1];
    (destruct (ltb d 20) eqn:E2;
       [apply ltb_lt in E2 | apply ltb_ge in E2]);
    (destruct (ltb d 30) eqn:E3;
       [apply ltb_lt in E3 | apply ltb_ge in E3]);
    repeat split; intros; try discriminate; try reflexivity; try lra.
Qed.

(** The test of the top-up loop: the time the two clips share, or zero when
    they share none, exceeds 40% of the shorter of the two spans. *)
Lemma overlapsOver40_spec (a b : Clip) :
  overlapsOver40 a b = true
  <-> shorterSpan a b * 0.4 < Qmax 0 (sharedTime a b).
Proof.
  unfold overlapsOver40, shorterSpan, sharedTime. cbv zeta.
  apply gtb_lt.
Qed.

Lemma AcceptedAfter_clear :
  forall added selected,
    AcceptedAfter selected added -> TakenClear selected added.
Proof.
  induction added as [ | x rest IH]; intros selected H; cbn in *; [exact I | ].
  destruct H as (H & R). split; [ | now apply IH].
  intros e He O. apply overlapsOver40_spec in O.
  rewrite (H e He) in O. discriminate.
Qed.

(** A selection is a candidate with its scores: the text and the times
    are the candidate's. *)
Lemma scoreClip_cut (c : Clip) :
  text (scoreClip c) = text c /\ start (scoreClip c) = start c
  /\ end_ (scoreClip c) = end_ c /\ duration (scoreClip c) = duration c.
Proof. repeat split. Qed.

(** C6.  For every list of candidates: the four categories are the
    durations under 10, 10 to 20, 20 to 30 and from 30 seconds on; every
    selection has the text and the times of a candidate and carries the
    category of its duration; every category that holds a candidate holds
    a selection; there are at most 5 selections; the selection is the
    bucket picks, exactly one per category that is not empty, followed by
    the clips the top-up took, none of which overlaps a clip selected
    before it by more than 40% of the shorter of the two; and four
    candidates of 8, 15, 25 and 40 seconds are selected one per
    category. *)
Theorem fallback_selection_properties (filteredClips : list Clip) :
  (forall d, (categoryOf d = very_short <-> d < 10)
             /\ (categoryOf d = short <-> 10 <= d /\ d < 20)
             /\ (categoryOf d = medium <-> 20 <= d /\ d < 30)
             /\ (categoryOf d = long <-> 30 <= d))
  /\ (forall s, In s (fallbackClipSelection filteredClips) ->
             exists c, In c filteredClips
                       /\ text s = text c /\ start s = start c
                       /\ end_ s = end_ c /\ duration s = duration c
                       /\ durationCategory s = Some (categoryOf (duration c)))
  /\ (forall c, In c filteredClips ->
                exists s, In s (fallbackClipSelection filteredClips)
                          /\ durationCategory s
                             = Some (categoryOf (duration c)))
  /\ (List.length (fallbackClipSelection filteredClips) <= 5)%nat
  /\ (exists added,
         fallbackSelected filteredClips
         = bucketPicks (scoreAll filteredClips) ++ added
         /\ TakenClear (bucketPicks (scoreAll filteredClips)) added)
  /\ map (fun s => durationCategory (snd s))
         (bucketPicks (scoreAll filteredClips))
     = map Some (categoriesOf filteredClips)
  /\ (forall c1 c2 c3 c4,
         duration c1 == 8 -> duration c2 == 15 ->
         duration c3 == 25 -> duration c4 == 40 ->
         map durationCategory (fallbackClipSelection [c1; c2; c3; c4])
         = [Some very_short; Some short; Some medium; Some long]).
Proof.
  split; [ | split; [ | split; [ | split; [ | split; [ | split]]]]].
  - apply categoryOf_bounds.
  - intros s H. apply In_fallbackClipSelection in H.
    destruct H as (c & Hc & ->). exists c.
    destruct (scoreClip_cut c) as (T & S & E & D). repeat split; auto.
  - apply category_covered.
  - unfold fallbackClipSelection. rewrite length_map.
    destruct (fallbackSelected_shape filteredClips) as (added & E & _ & _ & L).
    now rewrite E.
  - destruct (fallbackSelected_shape filteredClips) as (added & E & A & _).
    exists added. split; [exact E | now apply AcceptedAfter_clear].
  - apply bucketPicks_categories.
  - intros c1 c2 c3 c4 D1 D2 D3 D4.
    apply (four_buckets_scenario c1 c2 c3 c4 D1 D2 D3 D4).
Qed.

(** Six candidates: one per category, one within the first of them and
    one apart from all.  The top-up takes the one that lies apart. *)
Lemma fallback_selection_properties_witness :
  exists added,
    fallbackSelected topUpPool
    = bucketPicks (scoreAll topUpPool) ++ added
    /\ TakenClear (bucketPicks (scoreAll topUpPool)) added.
Proof.
  exact (proj1 (proj2 (proj2 (proj2 (proj2
           (fallback_selection_properties topUpPool)))))).
Defined.

(** The clip within the first candidate shares its 6 seconds with it, more
    than 40% of the shorter of the two, and is left out, though its score
    is the higher one of the two clips of the top-up. *)
Lemma topUp_leaves_overlap_out :
  map start (fallbackClipSelection topUpPool) = [0; 10; 30; 60; 110]
  /\ OverlapsBeyond40 (textClip "Within the first." 1 7 0.05) clipOf8.
Proof.
  split; [vm_compute; reflexivity | ].
  unfold OverlapsBeyond40, shorterSpan, sharedTime, clipOf8, textClip.
  cbn [start end_]. vm_compute. reflexivity.
Qed.

(** ** Partitions and permutations *)

Lemma filter_split_perm (A : Type) (p : A -> bool) (l : list A) :
  Permutation l (filter p l ++ filter (fun x => negb (p x)) l).
Proof.
  induction l as [ | a l IH]; simpl; [constructor | ].
  destruct (p a); simpl.
  - now constructor.
  - now apply Permutation_cons_app.
Qed.

Lemma filter_filter_and (A : Type) (p q : A -> bool) (l : list A) :
  filter q (filter p l) = filter (fun x => p x && q x) l.
Proof.
  induction l as [ | a l IH]; simpl; [reflexivity | ].
  destruct (p a); simpl; [ | exact IH].
  destruct (q a); now rewrite IH.
Qed.

Lemma flat_map_eq_in (A B : Type) (f g : A -> list B) (l : list A) :
  (forall a, In a l -> f a = g a) -> flat_map f l = flat_map g l.
Proof.
  induction l as [ | a l IH]; intros H; simpl; [reflexivity | ].
  rewrite (H a) by now left. rewrite IH; [reflexivity | ].
  intros b Hb. apply H. now right.
Qed.

(** Classes that exclude one another split a list, up to the order. *)
Lemma classes_perm (A K : Type) (p : K -> A -> bool) (ks : list K) :
  NoDup ks ->
  (forall j k x, j <> k -> p j x = true -> p k x = false) ->
  forall l,
    Permutation l
      (flat_map (fun k => filter (p k) l) ks
       ++ filter (fun x => negb (existsb (fun k => p k x) ks)) l).
Proof.
  intros ND Ex. induction ks as [ | k ks IH]; intros l.
  - simpl. clear. induction l; simpl; auto.
  - inversion ND as [ | k' ks' Nk ND']; subst.
    cbn [flat_map existsb].
    rewrite (filter_split_perm _ (p k) l) at 1.
    rewrite <- app_assoc. apply Permutation_app_head.
    rewrite (IH ND' (filter (fun x => negb (p k x)) l)).
    apply Permutation_app.
    + apply Permutation_refl'. apply flat_map_eq_in. intros j Hj.
      rewrite filter_filter_and. apply filter_ext. intros x.
      destruct (p j x) eqn:Pj; [ | now rewrite andb_false_r].
      rewrite (Ex j k x); [reflexivity | | exact Pj].
      intros ->. contradiction.
    + rewrite filter_filter_and.
      erewrite filter_ext; [reflexivity | ].
      intros x. cbv beta. now rewrite negb_orb.
Qed.

Lemma flat_map_perm (A B : Type) (f g : A -> list B) (l : list A) :
  (forall a, Permutation (f a) (g a)) ->
  Permutation (flat_map f l) (flat_map g l).
Proof.
  intros H. induction l as [ | a l IH]; simpl; [constructor | ].
  now apply Permutation_app.
Qed.

(** Taking the first [n] of every list and leaving the rest loses
    nothing. *)
Lemma take_leave_perm (A : Type) (n : nat) (bs : list (list A)) :
  Permutation (flat_map (firstn n) bs ++ flat_map (skipn n) bs)
              (List.concat bs).
Proof.
  induction bs as [ | b bs IH]; simpl; [constructor | ].
  rewrite <- (firstn_skipn n b) at 3.
  rewrite <- !app_assoc. apply Permutation_app_head.
  rewrite app_assoc.
  rewrite (Permutation_app_comm (flat_map (firstn n) bs) (skipn n b)).
  rewrite <- app_assoc. now apply Permutation_app_head.
Qed.

Lemma FOP_perm (A : Type) (R : A -> A -> Prop) (l l' : list A) :
  (forall a b, R a b -> R b a) ->
  Permutation l l' -> ForallOrdPairs R l -> ForallOrdPairs R l'.
Proof.
  intros Sym P. induction P as [ | x l l' P IH | x y l | l l' l'' P1 IH1 P2 IH2];
    intros F.
  - exact F.
  - inversion F; subst. constructor; [ | now apply IH].
    eapply Permutation_Forall; eauto.
  - inversion F as [ | a t Fa Ft]; subst.
    inversion Ft as [ | b t' Fb Ft']; subst.
    inversion Fa; subst.
    constructor; [constructor; auto | constructor; auto].
  - auto.
Qed.

Lemma FOP_app_l (A : Type) (R : A -> A -> Prop) (l1 l2 : list A) :
  ForallOrdPairs R (l1 ++ l2) -> ForallOrdPairs R l1.
Proof.
  induction l1 as [ | a l1 IH]; simpl; intros F; [constructor | ].
  inversion F; subst. constructor; [ | now apply IH].
  match goal with H : Forall _ (_ ++ _) |- _ => apply Forall_app in H end.
  tauto.
Qed.

(** ** DiversitySelector *)

Lemma sum_lengths (bs : list (list Clip)) :
  forall a,
    fold_left (fun sum b => (sum + List.length b)%nat) bs a
    = (a + List.length (List.concat bs))%nat.
Proof.
  induction bs as [ | b bs IH]; intros a; simpl; [lia | ].
  rewrite IH, length_app. lia.
Qed.

(** What the buckets give is taken from them. *)
Lemma selectFromBuckets_perm (bs : list (list Clip)) (r : nat) :
  exists rest,
    Permutation (List.concat bs) (selectFromBuckets bs r ++ rest).
Proof.
  unfold selectFromBuckets. cbv zeta.
  destruct (0 <? _)%nat.
  - set (n := Nat.max 1 _).
    destruct (_ <? r)%nat.
    + set (T := sortBy byQuality (flat_map (skipn n) bs)).
      set (m := (r - _)%nat).
      exists (skipn m T). rewrite <- app_assoc, firstn_skipn.
      unfold T. rewrite sortBy_perm. symmetry. apply take_leave_perm.
    + exists (flat_map (skipn n) bs). symmetry. apply take_leave_perm.
  - exists (List.concat bs). reflexivity.
Qed.

Lemma In_selectFromBuckets (bs : list (list Clip)) (r : nat) (c : Clip) :
  In c (selectFromBuckets bs r) -> In c (List.concat bs).
Proof.
  intros H. destruct (selectFromBuckets_perm bs r) as (rest & P).
  eapply Permutation_in; [symmetry; exact P | ].
  apply in_or_app. now left.
Qed.

Lemma take_length (n : nat) (bs : list (list Clip)) :
  (List.length (flat_map (firstn n) bs)
   <= n * List.length (filter (fun b => (0 <? List.length b)%nat) bs))%nat.
Proof.
  induction bs as [ | b bs IH]; simpl; [lia | ].
  rewrite length_app. pose proof (firstn_le_length n b) as L.
  destruct b as [ | x b]; simpl in *.
  - rewrite firstn_nil. simpl. exact IH.
  - lia.
Qed.

(** With a slot for every bucket that is not empty, the buckets give no
    more than the slots that remain. *)
Lemma selectFromBuckets_length (bs : list (list Clip)) (r : nat) :
  (List.length (filter (fun b => (0 <? List.length b)%nat) bs) <= r)%nat ->
  (List.length (selectFromBuckets bs r) <= r)%nat.
Proof.
  intros H. unfold selectFromBuckets. cbv zeta.
  destruct (0 <? _)%nat; [ | simpl; lia].
  set (ne := List.length (filter _ bs)) in *.
  set (n := Nat.max 1 (r / ne)).
  pose proof (take_length n bs) as T. fold ne in T.
  destruct (_ <? r)%nat eqn:L.
  - apply Nat.ltb_lt in L. rewrite length_app.
    pose proof (firstn_le_length
                  (r - List.length (flat_map (firstn n) bs))
                  (sortBy byQuality (flat_map (skipn n) bs))).
    lia.
  - destruct (Nat.eq_dec ne 0) as [Z | NZ]; [rewrite Z in T; lia | ].
    assert (1 <= r / ne)%nat.
    { apply Nat.div_le_lower_bound; lia. }
    assert (n = (r / ne)%nat) by (unfold n; lia).
    pose proof (Nat.Div0.mul_div_le r ne). nia.
Qed.

(** The top clip of a bucket that is not empty is always given. *)
Lemma head_selected (bs : list (list Clip)) (r : nat) (h : Clip)
  (t : list Clip) :
  In (h :: t) bs -> In h (selectFromBuckets bs r).
Proof.
  intros H. unfold selectFromBuckets. cbv zeta.
  rewrite sum_lengths.
  assert (In h (List.concat bs)).
  { apply in_concat. exists (h :: t). split; [exact H | now left]. }
  assert (Tpos : (0 <? 0 + List.length (List.concat bs))%nat = true).
  { apply Nat.ltb_lt. destruct (List.concat bs); [contradiction | ].
    simpl. lia. }
  rewrite Tpos.
  set (n := Nat.max 1 _).
  assert (S : In h (flat_map (firstn n) bs)).
  { apply in_flat_map. exists (h :: t). split; [exact H | ].
    destruct n as [ | n'] eqn:N; [unfold n in N; lia | now left]. }
  destruct (_ <? r)%nat; [apply in_or_app; now left | exact S].
Qed.

Lemma firstBucket_range (bs : list (Q * Q)) (c : Clip) :
  forall k j, firstBucket bs k c = Some j ->
              (k <= j < k + List.length bs)%nat.
Proof.
  induction bs as [ | b bs IH]; intros k j H; simpl in H; [discriminate | ].
  destruct (inBucket b c).
  - inversion H; subst. simpl. lia.
  - apply IH in H. simpl. lia.
Qed.

Lemma inBucketNo_range (k : nat) (c : Clip) :
  inBucketNo k c = true -> (k < List.length durationBuckets)%nat.
Proof.
  unfold inBucketNo, bucketOf.
  destruct (firstBucket durationBuckets 0 c) as [j | ] eqn:E; [ | discriminate].
  intros H. apply Nat.eqb_eq in H. subst.
  apply firstBucket_range in E. lia.
Qed.

Lemma inBucketNo_exclusive (j k : nat) (c : Clip) :
  j <> k -> inBucketNo j c = true -> inBucketNo k c = false.
Proof.
  unfold inBucketNo. destruct (bucketOf c) as [i | ]; [ | discriminate].
  intros N H. apply Nat.eqb_eq in H. subst. now apply Nat.eqb_neq.
Qed.

(** The sorted buckets hold clips of the remaining ones, each once. *)
Lemma sortedBuckets_perm (remainingClips : list Clip) :
  exists rest,
    Permutation remainingClips
                (List.concat (sortedBuckets remainingClips) ++ rest).
Proof.
  exists (filter (fun c => negb (existsb (fun k => inBucketNo k c)
                                   (seq 0 (List.length durationBuckets))))
                 remainingClips).
  unfold sortedBuckets. rewrite <- flat_map_concat_map.
  rewrite (classes_perm _ _ inBucketNo
             (seq 0 (List.length durationBuckets)) (seq_NoDup _ _)
             inBucketNo_exclusive remainingClips) at 1.
  apply Permutation_app_tail. apply flat_map_perm.
  intros k. symmetry. apply sortBy_perm.
Qed.

Lemma In_sortedBuckets (remainingClips b : list Clip) :
  In b (sortedBuckets remainingClips) ->
  exists k, Permutation b (filter (inBucketNo k) remainingClips).
Proof.
  unfold sortedBuckets. intros H. apply in_map_iff in H.
  destruct H as (k & <- & _). exists k. apply sortBy_perm.
Qed.

(** The combined selection is taken from the preferred clips, each at most
    once. *)
Lemma combinedSelection_perm (scoredClips : list Clip) (maxClips : nat) :
  exists rest,
    Permutation (preferredClips scoredClips maxClips)
                (combinedSelection scoredClips maxClips ++ rest).
Proof.
  unfold combinedSelection. cbv zeta.
  set (preferred := preferredClips scoredClips maxClips).
  set (t := ceil _).
  destruct (sortedBuckets_perm (skipn t preferred)) as (rest1 & P1).
  destruct (selectFromBuckets_perm (sortedBuckets (skipn t preferred))
              (maxClips - List.length (firstn t preferred))) as (rest2 & P2).
  exists (rest2 ++ rest1).
  rewrite <- (firstn_skipn t preferred) at 1.
  rewrite <- app_assoc. apply Permutation_app_head.
  eapply Permutation_trans; [exact P1 | ].
  rewrite app_assoc. apply Permutation_app_tail. exact P2.
Qed.

Lemma preferredClips_incl (scoredClips : list Clip) (maxClips : nat)
  (c : Clip) :
  In c (preferredClips scoredClips maxClips) -> In c scoredClips.
Proof.
  unfold preferredClips. cbv zeta.
  destruct (_ <=? _)%nat; [ | auto].
  intros H. apply filter_In in H. tauto.
Qed.

Lemma In_combinedSelection (scoredClips : list Clip) (maxClips : nat)
  (c : Clip) :
  In c (combinedSelection scoredClips maxClips) ->
  In c (preferredClips scoredClips maxClips).
Proof.
  intros H. destruct (combinedSelection_perm scoredClips maxClips)
    as (rest & P).
  eapply Permutation_in; [symmetry; exact P | ].
  apply in_or_app. now left.
Qed.

Lemma fold_pushUnique_incl (l : list Clip) :
  forall acc c, In c (fold_left pushUnique l acc) -> In c acc \/ In c l.
Proof.
  induction l as [ | x l IH]; intros acc c H; simpl in H; [now left | ].
  apply IH in H. destruct H as [H | H]; [ | right; now right].
  unfold pushUnique in H. destruct (existsb _ acc); [now left | ].
  apply in_app_or in H. destruct H as [H | [<- | []]]; [now left | ].
  right. now left.
Qed.

(** The similarity test does not depend on which clip came first. *)
Lemma similarClips_sym (a b : Clip) : similarClips a b = similarClips b a.
Proof.
  unfold similarClips. cbv zeta.
  rewrite (Qabs_Qminus (start a) (start b)). f_equal. apply orb_comm.
Qed.

(** Without similar clips the de-duplication keeps every clip. *)
Lemma fold_pushUnique_all (l : list Clip) :
  forall acc,
    NoSimilarPair (acc ++ l) -> fold_left pushUnique l acc = acc ++ l.
Proof.
  induction l as [ | x l IH]; intros acc N; simpl.
  - now rewrite app_nil_r.
  - assert (E : pushUnique acc x = acc ++ [x]).
    { unfold pushUnique.
      destruct (existsb _ acc) eqn:X; [ | reflexivity].
      apply existsb_exists in X. destruct X as (c & Hc & S).
      apply in_split in Hc. destruct Hc as (l1 & l2 & ->).
      unfold NoSimilarPair in N. rewrite <- app_assoc in N. simpl in N.
      assert (F : ForallOrdPairs (fun a b => similarClips a b = false)
                                 (c :: l2 ++ x :: l)).
      { clear - N. induction l1 as [ | y l1 IH]; simpl in N; [exact N | ].
        inversion N; subst. auto. }
      inversion F as [ | c' t Fc Ft]; subst.
      rewrite Forall_forall in Fc.
      rewrite (Fc x) in S; [discriminate | ].
      apply in_or_app. right. now left. }
    rewrite E. rewrite (IH (acc ++ [x])); rewrite <- app_assoc; auto.
Qed.

Lemma ceil_fifth (n : nat) : (5 * ceil (ofNat n * 0.2) <= n + 4)%nat.
Proof.
  unfold ceil, ofNat.
  pose proof (Qceiling_lt (inject_Z (Z.of_nat n) * 0.2)) as L.
  set (c := Qceiling _) in *. clearbody c.
  assert (L' : inject_Z (5 * (c - 1)) < inject_Z (Z.of_nat n)).
  { rewrite inject_Z_mult. change (inject_Z 5) with 5.
    revert L. generalize (inject_Z (c - 1)) (inject_Z (Z.of_nat n)).
    intros a b L. lra. }
  rewrite <- Zlt_Qlt in L'. clear L. lia.
Qed.

(** Every bucket the preferred clips span has a clip in the combined
    selection. *)
Lemma combinedSelection_spans (scoredClips : list Clip) (maxClips k : nat) :
  spansBucket (preferredClips scoredClips maxClips) k = true ->
  spansBucket (combinedSelection scoredClips maxClips) k = true.
Proof.
  unfold spansBucket. intros H. apply existsb_exists in H.
  destruct H as (c & Hc & Bc). apply existsb_exists.
  unfold combinedSelection. cbv zeta.
  set (preferred := preferredClips scoredClips maxClips) in *.
  set (t := ceil _).
  rewrite <- (firstn_skipn t preferred) in Hc. apply in_app_or in Hc.
  destruct Hc as [Hc | Hc].
  - exists c. split; [apply in_or_app; now left | exact Bc].
  - set (b := sortBy byQuality (filter (inBucketNo k) (skipn t preferred))).
    assert (Hb : In b (sortedBuckets (skipn t preferred))).
    { unfold sortedBuckets. apply in_map_iff. exists k. split; [reflexivity | ].
      apply in_seq. pose proof (inBucketNo_range k c Bc). lia. }
    assert (Hcb : In c b).
    { unfold b. apply sortBy_In, filter_In. auto. }
    destruct b as [ | h tl] eqn:E; [contradiction | ].
    exists h. split.
    + apply in_or_app. right. now apply head_selected with tl.
    + assert (Hh : In h (sortBy byQuality
                           (filter (inBucketNo k) (skipn t preferred)))).
      { fold b. rewrite E. now left. }
      apply sortBy_In, filter_In in Hh. tauto.
Qed.

(** ** AISelectionAdapter *)

(** C4.  When the call to the model throws, both paths return
    [fallbackClipSelection] of the pool they would have sent; so does the
    text path when the first three strategies yield no selection and the
    last one no index within the pool, and the utterance path when the
    three strategies yield no selection.  The functions are total (no
    exception escapes) and take the pool as a value they cannot change. *)
Theorem fallback_on_failure (clipsForAI : list Clip) :
  selectFromFullText clipsForAI LlmError = fallbackClipSelection clipsForAI
  /\ selectFromUtterances clipsForAI LlmError
     = fallbackClipSelection clipsForAI
  /\ (forall aiResponseText,
         parseSelections clipsForAI aiResponseText = [] ->
         mentionSelections clipsForAI aiResponseText = [] ->
         selectFromFullText clipsForAI (LlmReply aiResponseText)
         = fallbackClipSelection clipsForAI)
  /\ (forall aiResponseText,
         parseSelections clipsForAI aiResponseText = [] ->
         selectFromUtterances clipsForAI (LlmReply aiResponseText)
         = fallbackClipSelection clipsForAI).
Proof.
  unfold selectFromFullText, selectFromUtterances.
  destruct (promptThrows clipsForAI); repeat split; auto.
  - intros t P M. now rewrite P, M.
  - intros t P. now rewrite P.
Qed.

Lemma fallback_on_failure_witness :
  selectFromFullText scenarioPool (LlmReply emptyReply)
  = fallbackClipSelection scenarioPool.
Proof.
  apply (proj1 (proj2 (proj2 (fallback_on_failure scenarioPool)))).
  - vm_compute. reflexivity.
  - vm_compute. reflexivity.
Defined.

(** The index of a selection: a match whose number [n] is from 1 to the
    size of the pool selects the candidate [n - 1]; any other match
    selects nothing. *)
Lemma selectionOf_index (clipsForAI : list Clip) (aiResponseText : jsstring)
  (m : ClipMatch) :
  let n := Z.of_N (parseInt (m1 m)) in
  ((1 <= n <= Z.of_nat (List.length clipsForAI))%Z ->
   exists clip,
     nth_error clipsForAI (Z.to_nat (n - 1)) = Some clip
     /\ selectionOf clipsForAI aiResponseText m
        = Some (withSelection clip
                  (orDefault (extractReason aiResponseText m)
                     (str "Selected by AI (Clip "
                      ++ numToString (Z.to_N n) ++ str ")"))
                  (Some (orDefault
                           (extractSection audienceRegex aiResponseText m)
                           (str "General audience")))
                  (Some (extractSection durationRegex aiResponseText m))))
  /\ (~ (1 <= n <= Z.of_nat (List.length clipsForAI))%Z ->
      selectionOf clipsForAI aiResponseText m = None).
Proof.
  intros n. unfold selectionOf, clipNumberOf. fold n. cbv zeta. split.
  - intros R.
    destruct (nth_error clipsForAI (Z.to_nat (n - 1))) as [clip | ] eqn:E.
    + exists clip. split; [reflexivity | ].
      replace ((0 <=? n - 1)%Z && (n - 1 <? Z.of_nat (List.length clipsForAI))%Z)
        with true by (symmetry; apply andb_true_iff; split; lia).
      replace (n - 1 + 1)%Z with n by lia. reflexivity.
    + apply nth_error_None in E. lia.
  - intros R.
    destruct ((0 <=? n - 1)%Z && (n - 1 <? Z.of_nat (List.length clipsForAI))%Z)
      eqn:B; [ | reflexivity].
    apply andb_true_iff in B. lia.
Qed.

(** The example of the specification: [SELECTED CLIP #: 3] with a
    [VIRAL POTENTIAL] block selects the candidate of index 2, and the
    reason is the trimmed text of the block. *)
Lemma well_formed_reply_parsed :
  map (fun s => (text s, reason s, targetAudience s))
      (parseSelections (numberedPool 5) wellFormedReply)
  = [(str "candidate 3", Some (str "great hook."), Some (str "everyone"))].
Proof. vm_compute. reflexivity. Qed.

(** C5 at a reply that selects clip 12 and then clip 1, each with its own
    [VIRAL POTENTIAL] block: both indices are right, and the reason of
    clip 1 is the block of clip 12, not its own.  The callback looks for
    the block after [aiResponseText.indexOf(clipMention)], the first place
    where the text of the match occurs, and [SELECTED CLIP #: 1] first
    occurs at the start of [SELECTED CLIP #: 12]. *)
Theorem reason_of_the_first_textual_occurrence :
  map (fun s => (text s, reason s))
      (parseSelections (numberedPool 12) prefixReply)
  = [(str "candidate 12", Some (str "alpha"));
     (str "candidate 1", Some (str "alpha"))].
Proof. vm_compute. reflexivity. Qed.

(** ** Reasons of the selections *)

Lemma orDefault_truthy (s d : jsstring) :
  d <> [] -> truthyStr (Some (orDefault s d)) = true.
Proof.
  intros D. destruct s; simpl; [ | reflexivity].
  destruct d; [contradiction | reflexivity].
Qed.

Lemma selectionOf_fields (clipsForAI : list Clip) (aiResponseText : jsstring)
  (m : ClipMatch) (s : Clip) :
  selectionOf clipsForAI aiResponseText m = Some s ->
  truthyStr (reason s) = true
  /\ truthyStr (targetAudience s) = true
  /\ aiSelected s = Some true.
Proof.
  unfold selectionOf. cbv zeta.
  destruct (_ && _); [ | discriminate].
  destruct (nth_error _ _); [ | discriminate].
  intros H. inversion H; subst; clear H.
  cbn [withSelection reason targetAudience aiSelected].
  repeat split; apply orDefault_truthy; discriminate.
Qed.

Lemma In_parseSelections (clipsForAI : list Clip) (aiResponseText : jsstring)
  (s : Clip) :
  In s (parseSelections clipsForAI aiResponseText) ->
  exists m, selectionOf clipsForAI aiResponseText m = Some s.
Proof.
  unfold parseSelections. intros H. apply in_flat_map in H.
  destruct H as (m & _ & H). exists m.
  destruct (selectionOf _ _ m); simpl in H; [ | contradiction].
  destruct H as [-> | []]. reflexivity.
Qed.

Lemma In_mentionSelections (clipsForAI : list Clip)
  (aiResponseText : jsstring) (s : Clip) :
  In s (mentionSelections clipsForAI aiResponseText) ->
  exists i clip,
    nth_error clipsForAI (Z.to_nat i) = Some clip
    /\ reason s
       = Some (str "Mentioned by AI as Clip " ++ numToString (Z.to_N (i + 1)))
    /\ targetAudience s = targetAudience clip.
Proof.
  unfold mentionSelections. intros H. apply in_flat_map in H.
  destruct H as (i & _ & H).
  destruct (nth_error clipsForAI (Z.to_nat i)) as [clip | ] eqn:E;
    [ | contradiction].
  destruct H as [<- | []]. exists i, clip. auto.
Qed.

Lemma fallback_reason (filteredClips : list Clip) (s : Clip) :
  In s (fallbackClipSelection filteredClips) ->
  exists viral, reason s = Some (fallbackReason viral)
                /\ truthyStr (reason s) = true.
Proof.
  intros H. apply In_fallbackClipSelection in H.
  destruct H as (c & _ & ->). exists (fallbackViralScore c).
  split; reflexivity.
Qed.

(** C10, as the code has it.  Every selection carries a reason that is not
    empty: a selection of the first three strategies the text of its
    [VIRAL POTENTIAL] block or [Selected by AI (Clip n)], with a target
    audience that is not empty either ([General audience] by default); a
    selection of the last strategy of the text path
    [Mentioned by AI as Clip n], with the target audience of the pool
    candidate, if it has one; a selection of the fallback its
    viral-elements reason. *)
Theorem selections_carry_reason (clipsForAI : list Clip) :
  (forall aiResponseText s,
      In s (parseSelections clipsForAI aiResponseText) ->
      truthyStr (reason s) = true
      /\ truthyStr (targetAudience s) = true
      /\ aiSelected s = Some true)
  /\ (forall aiResponseText s,
         In s (mentionSelections clipsForAI aiResponseText) ->
         truthyStr (reason s) = true
         /\ exists i clip,
              nth_error clipsForAI (Z.to_nat i) = Some clip
              /\ reason s
                 = Some (str "Mentioned by AI as Clip "
                         ++ numToString (Z.to_N (i + 1)))
              /\ targetAudience s = targetAudience clip)
  /\ (forall s,
         In s (fallbackClipSelection clipsForAI) ->
         truthyStr (reason s) = true)
  /\ (forall llm s,
         In s (selectFromFullText clipsForAI llm) ->
         truthyStr (reason s) = true)
  /\ (forall llm s,
         In s (selectFromUtterances clipsForAI llm) ->
         truthyStr (reason s) = true).
Proof.
  assert (P : forall t s, In s (parseSelections clipsForAI t) ->
                          truthyStr (reason s) = true
                          /\ truthyStr (targetAudience s) = true
                          /\ aiSelected s = Some true).
  { intros t s H. apply In_parseSelections in H. destruct H as (m & H).
    now apply selectionOf_fields in H. }
  assert (M : forall t s, In s (mentionSelections clipsForAI t) ->
     truthyStr (reason s) = true
     /\ exists i clip,
          nth_error clipsForAI (Z.to_nat i) = Some clip
          /\ reason s
             = Some (str "Mentioned by AI as Clip "
                     ++ numToString (Z.to_N (i + 1)))
          /\ targetAudience s = targetAudience clip).
  { intros t s H. apply In_mentionSelections in H.
    destruct H as (i & clip & E & R & A).
    split; [now rewrite R | eauto]. }
  assert (F : forall s, In s (fallbackClipSelection clipsForAI) ->
                        truthyStr (reason s) = true).
  { intros s H. apply fallback_reason in H. destruct H as (v & _ & H).
    exact H. }
  split; [exact P | split; [exact M | split; [exact F | split]]].
  - intros llm s. unfold selectFromFullText.
    destruct (promptThrows clipsForAI); [apply F | ].
    destruct llm as [ | t]; [apply F | ].
    destruct (parseSelections clipsForAI t) as [ | s0 l0] eqn:E.
    + destruct (mentionSelections clipsForAI t) as [ | s1 l1] eqn:E';
        [apply F | ].
      intros H. rewrite <- E' in H. now apply M in H.
    + intros H. rewrite <- E in H. now apply P in H.
  - intros llm s. unfold selectFromUtterances.
    destruct (promptThrows clipsForAI); [apply F | ].
    destruct llm as [ | t]; [apply F | ].
    destruct (parseSelections clipsForAI t) as [ | s0 l0] eqn:E;
      [apply F | ].
    intros H. rewrite <- E in H. now apply P in H.
Qed.

(** C10 as stated fails for the last strategy: the reply selects a clip
    out of range and mentions clip 2 on a line of its own; the selection
    made of the mention has its reason and no target audience. *)
Lemma mentioned_selection_without_audience :
  map (fun s => (reason s, targetAudience s))
      (selectFromFullText scenarioPool (LlmReply mentionReply))
  = [(Some (str "Mentioned by AI as Clip 2"), None)].
Proof. vm_compute. reflexivity. Qed.

Lemma selections_carry_reason_witness :
  truthyStr (reason (hd (timedClip 0 0 None)
                        (selectFromFullText scenarioPool
                                            (LlmReply mentionReply))))
  = true.
Proof.
  apply (proj1 (proj2 (proj2 (proj2 (selections_carry_reason scenarioPool))))
               (LlmReply mentionReply)).
  vm_compute. left. reflexivity.
Defined.

(** ** ContentTypeClassifier *)

Lemma eqChar_refl (a : ascii) : eqChar a a = true.
Proof. unfold eqChar. apply N.eqb_refl. Qed.

Lemma eqStr_eq (a b : jsstring) : eqStr a b = true <-> a = b.
Proof.
  revert b. induction a as [ | x a IH]; intros [ | y b]; simpl;
    try (split; [discriminate | discriminate]); [tauto | ].
  rewrite andb_true_iff, IH. split.
  - intros (E & ->). apply eqChar_eq in E. now subst.
  - intros E. inversion E; subst. split; [apply eqChar_refl | reflexivity].
Qed.

Lemma eqStr_neq (a b : jsstring) : eqStr a b = false <-> a <> b.
Proof.
  rewrite <- eqStr_eq. destruct (eqStr a b); split; congruence.
Qed.

Lemma bump_keys (p : jsstring) (counts : list (jsstring * nat)) (k : jsstring) :
  In k (map fst (bump p counts)) <-> k = p \/ In k (map fst counts).
Proof.
  induction counts as [ | [k0 n] tl IH]; simpl.
  - intuition.
  - destruct (eqStr k0 p) eqn:E; simpl.
    + apply eqStr_eq in E. subst. intuition.
    + rewrite IH. intuition.
Qed.

Lemma bump_NoDup (p : jsstring) (counts : list (jsstring * nat)) :
  NoDup (map fst counts) -> NoDup (map fst (bump p counts)).
Proof.
  induction counts as [ | [k0 n] tl IH]; simpl; intros N.
  - repeat constructor. intros [].
  - inversion N as [ | x l Nx Nl]; subst.
    destruct (eqStr k0 p) eqn:E; simpl; [now constructor | ].
    constructor; [ | now apply IH].
    rewrite bump_keys. apply eqStr_neq in E. intuition.
Qed.

Lemma bump_countOf (p q : jsstring) (counts : list (jsstring * nat)) :
  countOf q (bump p counts)
  = if eqStr p q then S (countOf q counts) else countOf q counts.
Proof.
  induction counts as [ | [k0 n] tl IH]; simpl.
  - destruct (eqStr p q); reflexivity.
  - destruct (eqStr k0 p) eqn:E; simpl.
    + apply eqStr_eq in E. subst. destruct (eqStr p q); reflexivity.
    + destruct (eqStr k0 q) eqn:E'; [ | exact IH].
      apply eqStr_eq in E'. subst. now rewrite (proj2 (eqStr_neq p q)) by
        (apply eqStr_neq in E; congruence).
Qed.

(** The counts after the loop over the phrases: one key per phrase, with
    the number of its occurrences. *)
Lemma counted (l : list jsstring) :
  forall counts,
    NoDup (map fst counts) ->
    let final := fold_left (fun c p => bump p c) l counts in
    NoDup (map fst final)
    /\ (forall k, In k (map fst final) <-> In k l \/ In k (map fst counts))
    /\ (forall q, countOf q final
                  = (count_occ jsstring_dec l q + countOf q counts)%nat).
Proof.
  induction l as [ | p l IH]; intros counts N; simpl.
  - intuition.
  - destruct (IH (bump p counts) (bump_NoDup p counts N)) as (N' & K & C).
    split; [exact N' | split].
    + intros k. rewrite K, bump_keys. intuition.
    + intros q. rewrite C, bump_countOf.
      destruct (jsstring_dec p q) as [-> | D].
      * rewrite (proj2 (eqStr_eq q q) eq_refl). lia.
      * rewrite (proj2 (eqStr_neq p q) D). lia.
Qed.

Lemma countOf_entry (counts : list (jsstring * nat)) :
  NoDup (map fst counts) ->
  forall e, In e counts -> snd e = countOf (fst e) counts.
Proof.
  induction counts as [ | [k0 n] tl IH]; intros N e H; [contradiction | ].
  inversion N as [ | x l Nx Nl]; subst. simpl.
  destruct H as [<- | H]; simpl.
  - now rewrite (proj2 (eqStr_eq k0 k0) eq_refl).
  - destruct (eqStr k0 (fst e)) eqn:E; [ | now apply IH].
    apply eqStr_eq in E. subst. exfalso. apply Nx.
    apply in_map_iff. exists e. auto.
Qed.

Lemma filter_length_perm (A : Type) (p : A -> bool) (l l' : list A) :
  Permutation l l' ->
  List.length (filter p l) = List.length (filter p l').
Proof.
  induction 1; simpl; auto.
  - destruct (p x); simpl; congruence.
  - destruct (p x), (p y); simpl; reflexivity.
  - congruence.
Qed.

(** The repeated phrases of one length are the repeated n-grams of the
    specification. *)
Lemma repeated_of_length (ws : list jsstring) (n : nat) :
  List.length (filter (fun pc => (1 <? snd pc)%nat) (phraseCounts ws n))
  = List.length (repeatedNgrams ws n).
Proof.
  unfold phraseCounts, repeatedNgrams.
  set (l := phrasesOfLength ws n).
  destruct (counted l [] (NoDup_nil _)) as (N & K & C).
  set (final := fold_left (fun c p => bump p c) l []) in *.
  transitivity (List.length
    (filter (fun k => (1 <? count_occ jsstring_dec l k)%nat)
            (map fst final))).
  - clear K. assert (E : forall e, In e final ->
                snd e = count_occ jsstring_dec l (fst e)).
    { intros e He. rewrite (countOf_entry final N e He), C. simpl. lia. }
    clear C N. induction final as [ | e tl IH]; simpl; [reflexivity | ].
    rewrite <- (E e) by now left.
    destruct (1 <? snd e)%nat; simpl; rewrite IH; auto;
      intros e' He'; apply E; now right.
  - apply filter_length_perm. apply NoDup_Permutation.
    + exact N.
    + apply NoDup_nodup.
    + intros k. rewrite K, nodup_In. simpl. intuition.
Qed.

Lemma flat_map_length (A B : Type) (f : A -> list B) (l : list A) :
  List.length (flat_map f l) = list_sum (map (fun a => List.length (f a)) l).
Proof.
  induction l as [ | a l IH]; simpl; [reflexivity | ].
  now rewrite length_app, IH.
Qed.

(** The number of phrases [findRepeatedPhrases] returns is the number of
    repeated phrases of 3 to 8 words. *)
Lemma findRepeatedPhrases_length (txt : jsstring) :
  List.length (findRepeatedPhrases txt) = repeatedNgramCount txt.
Proof.
  unfold findRepeatedPhrases, repeatedNgramCount. cbv zeta.
  rewrite sortBy_length, flat_map_length. f_equal.
  apply map_ext. intros n. apply repeated_of_length.
Qed.

(** ** The repeated phrases are the ones of the specification *)

Lemma NgramAt_window (ws : list jsstring) (n i : nat) (g : list jsstring) :
  NgramAt ws n i g
  <-> (i + n <= List.length ws)%nat /\ g = firstn n (skipn i ws).
Proof.
  unfold NgramAt. split.
  - intros (before & after & -> & <- & <-). split.
    + rewrite !length_app. lia.
    + rewrite skipn_app, skipn_all, Nat.sub_diag. cbn [app skipn].
      rewrite firstn_app, firstn_all, Nat.sub_diag. cbn [firstn].
      now rewrite app_nil_r.
  - intros (L & ->).
    exists (firstn i ws), (skipn n (skipn i ws)).
    rewrite firstn_skipn, firstn_skipn. split; [reflexivity | split].
    + rewrite length_firstn. lia.
    + rewrite length_firstn, length_skipn. lia.
Qed.

Lemma count_occ_map_pos (A : Type) (f : A -> jsstring) (p : jsstring) :
  forall l,
    (0 < count_occ jsstring_dec (map f l) p)%nat
    <-> exists j a, nth_error l j = Some a /\ f a = p.
Proof.
  intros l. split.
  - intros P. assert (I : In p (map f l))
      by (apply (count_occ_In jsstring_dec); exact P).
    apply in_map_iff in I. destruct I as (a & E & H).
    apply In_nth_error in H. destruct H as (j & H). eauto.
  - intros (j & a & H & E).
    assert (I : In p (map f l)).
    { apply in_map_iff. exists a. split; [exact E | ].
      eapply nth_error_In; eauto. }
    apply (count_occ_In jsstring_dec) in I. exact I.
Qed.

(** A phrase is counted twice or more when it stands at two positions. *)
Lemma count_occ_map_twice (A : Type) (f : A -> jsstring) (p : jsstring) :
  forall l,
    (1 < count_occ jsstring_dec (map f l) p)%nat
    <-> exists i j a b,
          (i < j)%nat /\ nth_error l i = Some a /\ nth_error l j = Some b
          /\ f a = p /\ f b = p.
Proof.
  induction l as [ | x l IH].
  - cbn. split; [lia | ]. intros (i & j & a & b & _ & H & _).
    destruct i; discriminate.
  - cbn [map count_occ]. destruct (jsstring_dec (f x) p) as [E | N].
    + split.
      * intros H. assert (P : (0 < count_occ jsstring_dec (map f l) p)%nat)
          by lia.
        apply count_occ_map_pos in P. destruct P as (j & b & Hj & Eb).
        exists 0%nat, (S j), x, b. cbn. repeat split; auto. lia.
      * intros (i & j & a & b & Lt & Hi & Hj & Ea & Eb).
        destruct j as [ | j]; [lia | ]. cbn in Hj.
        assert (P : (0 < count_occ jsstring_dec (map f l) p)%nat).
        { apply count_occ_map_pos. eauto. }
        lia.
    + rewrite IH. split.
      * intros (i & j & a & b & Lt & Hi & Hj & Ea & Eb).
        exists (S i), (S j), a, b. cbn. repeat split; auto. lia.
      * intros (i & j & a & b & Lt & Hi & Hj & Ea & Eb).
        destruct j as [ | j]; [lia | ]. destruct i as [ | i].
        -- cbn in Hi. inversion Hi; subst. contradiction.
        -- exists i, j, a, b. cbn in Hi, Hj. repeat split; auto. lia.
Qed.

Lemma nth_error_seq0 (m i k : nat) :
  nth_error (seq 0 m) i = Some k <-> (i < m)%nat /\ k = i.
Proof.
  split.
  - intros H. assert (L : (i < m)%nat).
    { pose proof (proj1 (nth_error_Some (seq 0 m) i)) as P.
      rewrite length_seq in P. apply P. congruence. }
    split; [exact L | ].
    rewrite (nth_error_nth' _ 0%nat) in H by (rewrite length_seq; exact L).
    rewrite seq_nth in H by exact L. inversion H. lia.
  - intros (L & ->).
    rewrite (nth_error_nth' _ 0%nat) by (rewrite length_seq; exact L).
    now rewrite seq_nth.
Qed.

(** The phrases the code counts twice or more are the phrases that
    repeat. *)
Lemma phrasesOfLength_repeats (ws : list jsstring) (n : nat) (p : jsstring) :
  (1 < count_occ jsstring_dec (phrasesOfLength ws n) p)%nat
  <-> Repeats ws n p.
Proof.
  unfold phrasesOfLength, Repeats. rewrite count_occ_map_twice. split.
  - intros (i & j & a & b & Lt & Hi & Hj & Ea & Eb).
    apply nth_error_seq0 in Hi, Hj. destruct Hi as (Li & ->), Hj as (Lj & ->).
    exists i, j, (firstn n (skipn i ws)), (firstn n (skipn j ws)).
    rewrite !NgramAt_window. repeat split; auto; lia.
  - intros (i & j & g & g' & Lt & Gi & Gj & Ei & Ej).
    apply NgramAt_window in Gi, Gj.
    destruct Gi as (Li & ->), Gj as (Lj & ->).
    exists i, j, i, j. rewrite !nth_error_seq0.
    repeat split; auto; lia.
Qed.

Lemma repeatedNgrams_spec (ws : list jsstring) (n : nat) (p : jsstring) :
  In p (repeatedNgrams ws n) <-> Repeats ws n p.
Proof.
  unfold repeatedNgrams. rewrite filter_In, nodup_In, Nat.ltb_lt.
  rewrite <- phrasesOfLength_repeats. split; [tauto | ].
  intros H. split; [ | exact H].
  apply (count_occ_In jsstring_dec). unfold gt. lia.
Qed.

Lemma repeatedNgrams_NoDup (ws : list jsstring) (n : nat) :
  NoDup (repeatedNgrams ws n).
Proof. unfold repeatedNgrams. apply NoDup_filter, NoDup_nodup. Qed.

Lemma NoDup_tagged (n : nat) (l : list jsstring) :
  NoDup l -> NoDup (map (pair n) l).
Proof.
  induction 1 as [ | x l Hx Hl IH]; cbn [map]; constructor; [ | exact IH].
  intros H. apply in_map_iff in H. destruct H as (y & E & Hy).
  inversion E; subst. contradiction.
Qed.

(** The repeated phrases of 3 to 8 words, each with its number of words. *)
Lemma repeated_phrases_listed (ws : list jsstring) :
  let reps :=
    flat_map (fun n => map (pair n) (repeatedNgrams ws n)) (seq 3 6) in
  NoDup reps
  /\ (forall n p, In (n, p) reps <-> (3 <= n <= 8)%nat /\ Repeats ws n p)
  /\ List.length reps
     = list_sum (map (fun n => List.length (repeatedNgrams ws n)) (seq 3 6)).
Proof.
  intros reps. split; [ | split].
  - subst reps. generalize (seq_NoDup 6 3). generalize (seq 3 6).
    induction l as [ | n l IH]; intros N; cbn [flat_map]; [constructor | ].
    inversion N as [ | ? ? Nn Nl]; subst.
    apply NoDup_app; [ | now apply IH | ].
    + apply NoDup_tagged, repeatedNgrams_NoDup.
    + intros [m q] H1 H2. apply in_map_iff in H1.
      destruct H1 as (q' & E & _). inversion E; subst.
      apply in_flat_map in H2. destruct H2 as (m' & Hm & H2).
      apply in_map_iff in H2. destruct H2 as (q'' & E' & _).
      inversion E'; subst. contradiction.
  - intros n p. subst reps. rewrite in_flat_map. split.
    + intros (m & Hm & H). apply in_map_iff in H.
      destruct H as (q & E & H). inversion E; subst.
      apply in_seq in Hm. apply repeatedNgrams_spec in H. split; [lia | auto].
    + intros (L & R). exists n. split; [apply in_seq; lia | ].
      apply in_map. now apply repeatedNgrams_spec.
  - subst reps. rewrite flat_map_length. f_equal. apply map_ext.
    intros n. apply length_map.
Qed.

(** C9.  [detectContentType] is a function of the text alone that returns
    one of [music], [educational], [interview] and [generic], by the first
    of the three tests that holds, in that order.  The phrases it counts
    are the repeated phrases of the words of the text: [reps] lists, each
    once, the phrases of 3 to 8 words that are the phrase of the n-grams at
    two different positions.  The result is [music] when the music keywords
    match or [reps] holds more than 3 phrases, [educational] when that
    fails and the educational keywords match, [interview] when both fail
    and the interview keywords match, and [generic] when all three fail. *)
Theorem detectContentType_priority (txt : jsstring) :
  In (contentTypeName (detectContentType txt))
     [str "music"; str "educational"; str "interview"; str "generic"]
  /\ exists reps : list (nat * jsstring),
       NoDup reps
       /\ (forall n p,
              In (n, p) reps
              <-> (3 <= n <= 8)%nat /\ Repeats (split txt (plus space)) n p)
       /\ List.length (findRepeatedPhrases txt) = List.length reps
       /\ let musical :=
            test musicKeywords txt = true \/ (3 < List.length reps)%nat in
          (detectContentType txt = music <-> musical)
          /\ (detectContentType txt = educational <->
              ~ musical /\ test educationalKeywords txt = true)
          /\ (detectContentType txt = interview <->
              ~ musical /\ test educationalKeywords txt <> true
              /\ test interviewKeywords txt = true)
          /\ (detectContentType txt = generic <->
              ~ musical /\ test educationalKeywords txt <> true
              /\ test interviewKeywords txt <> true).
Proof.
  split.
  - destruct (detectContentType txt); cbn [contentTypeName In]; auto.
  - destruct (repeated_phrases_listed (split txt (plus space)))
      as (N & M & L).
    eexists. split; [exact N | ]. split; [exact M | ].
    assert (E : List.length (findRepeatedPhrases txt)
                = List.length
                    (flat_map (fun n => map (pair n)
                                 (repeatedNgrams (split txt (plus space)) n))
                              (seq 3 6))).
    { rewrite L. apply findRepeatedPhrases_length. }
    split; [exact E | ].
    cbv zeta. rewrite <- E. unfold detectContentType. cbv zeta.
    generalize (test musicKeywords txt) (test educationalKeywords txt)
               (test interviewKeywords txt)
               (List.length (findRepeatedPhrases txt)).
    intros m e i c.
    destruct (3 <? c)%nat eqn:R;
      [apply Nat.ltb_lt in R | apply Nat.ltb_ge in R];
      destruct m, e, i; cbn [orb];
      repeat split; intros; try discriminate; try lia; try tauto;
      try (exfalso; intuition (discriminate || lia || congruence)).
Qed.
Lemma gtb_le (a b : Q) : gtb a b = false <-> a <= b.
Proof.
  unfold gtb. rewrite negb_false_iff. apply Qle_bool_iff.
Qed.

Lemma leb_gt (a b : Q) : leb a b = false <-> b < a.
Proof.
  unfold leb. split; intros H.
  - apply Qnot_le_lt. intros L. apply Qle_bool_iff in L. congruence.
  - destruct (Qle_bool a b) eqn:E; [ | reflexivity].
    apply Qle_bool_iff in E. lra.
Qed.

Lemma geb_lt (a b : Q) : geb a b = false <-> a < b.
Proof. unfold geb. apply (leb_gt b a). Qed.

Ltac bool_to_Q :=
  repeat match goal with
    | H : geb _ _ = true |- _ => apply geb_le in H
    | H : geb _ _ = false |- _ => apply geb_lt in H
    | H : leb _ _ = true |- _ => apply leb_le in H
    | H : leb _ _ = false |- _ => apply leb_gt in H
    | H : gtb _ _ = true |- _ => apply gtb_lt in H
    | H : gtb _ _ = false |- _ => apply gtb_le in H
    | H : ltb _ _ = true |- _ => apply ltb_lt in H
    | H : ltb _ _ = false |- _ => apply ltb_ge in H
    end.

(** X1.  Whatever the clip holds, [validateClipTiming] returns a clip that
    starts at 0 or later and whose duration lies between the two
    constraints, when the minimum is not above the maximum.  The duration
    is the end minus the start; or, where the code cuts or stretches the
    clip, the duration is the constraint and the end is the start plus the
    duration.  The other properties are kept. *)
Theorem validateClipTiming_bounds (A : Type) (clip : TimedClip A)
  (constraints : Constraints) :
  MIN_DURATION constraints <= MAX_DURATION constraints ->
  exists s e d,
    t_start (validateClipTiming clip constraints) = Some s
    /\ t_end (validateClipTiming clip constraints) = Some e
    /\ t_duration (validateClipTiming clip constraints) = Some d
    /\ 0 <= s
    /\ (d == e - s
        \/ (e == s + d
            /\ (d = MAX_DURATION constraints
                \/ d = MIN_DURATION constraints)))
    /\ MIN_DURATION constraints <= d
    /\ d <= MAX_DURATION constraints
    /\ t_rest (validateClipTiming clip constraints) = t_rest clip.
Proof.
  intros HM. unfold validateClipTiming.
  set (start1 := match t_start clip with
                 | Some s => if ltb s 0 then 0 else s
                 | None => 0
                 end).
  assert (S0 : 0 <= start1).
  { subst start1. destruct (t_start clip) as [s | ]; [ | lra].
    destruct (ltb s 0) eqn:E; bool_to_Q; lra. }
  set (end1 := match t_end clip with
               | Some e =>
                   if leb e start1
                   then start1 + Qmax (MIN_DURATION constraints) 15
                   else e
               | None => start1 + Qmax (MIN_DURATION constraints) 15
               end).
  destruct (gtb (end1 - start1) (MAX_DURATION constraints)) eqn:G.
  - do 3 eexists. cbn.
    split; [reflexivity | split; [reflexivity | split; [reflexivity | ]]].
    split; [exact S0 | split; [ | split; [exact HM | split]]].
    + right. split; [reflexivity | now left].
    + lra.
    + reflexivity.
  - destruct (ltb (end1 - start1) (MIN_DURATION constraints)) eqn:L.
    + do 3 eexists. cbn.
      split; [reflexivity | split; [reflexivity | split; [reflexivity | ]]].
      split; [exact S0 | split; [ | split; [lra | split]]].
      * right. split; [reflexivity | now right].
      * exact HM.
      * reflexivity.
    + bool_to_Q. do 3 eexists. cbn.
      split; [reflexivity | split; [reflexivity | split; [reflexivity | ]]].
      split; [exact S0 | split; [ | split; [exact L | split]]].
      * left. reflexivity.
      * exact G.
      * reflexivity.
Qed.

Lemma validateClipTiming_bounds_witness :
  exists s e d,
    t_start (validateClipTiming (mkTimed (Some (-3)) None None tt)
                                (mkConstraints 8 30)) = Some s
    /\ t_end (validateClipTiming (mkTimed (Some (-3)) None None tt)
                                 (mkConstraints 8 30)) = Some e
    /\ t_duration (validateClipTiming (mkTimed (Some (-3)) None None tt)
                                      (mkConstraints 8 30)) = Some d
    /\ 0 <= s
    /\ (d == e - s \/ (e == s + d /\ (d = 30 \/ d = 8)))
    /\ 8 <= d
    /\ d <= 30
    /\ t_rest (validateClipTiming (mkTimed (Some (-3)) None None tt)
                                  (mkConstraints 8 30)) = tt.
Proof.
  apply (validateClipTiming_bounds unit (mkTimed (Some (-3)) None None tt)
           (mkConstraints 8 30)).
  cbn. lra.
Defined.

Ltac split_specs :=
  repeat match goal with
    | H : _ /\ _ |- _ => destruct H
    | H : _ \/ _ |- _ => destruct H
    end.

(** X3.  When the timing step of [generateClip] does not throw, the video
    has a duration and the times it leaves in the clip lie within the
    video: the start is 0 or later, the end is after the start and not
    after the end of the video, and the duration is the end minus the
    start. *)
Theorem clipTiming_within_video (clipStart clipEnd : Q)
  (videoDuration : option Q) (s e d : Q) :
  clipTiming clipStart clipEnd videoDuration = TimingOk s e d ->
  exists v, videoDuration = Some v
            /\ 0 <= s /\ s < e /\ e <= v /\ d == e - s.
Proof.
  unfold clipTiming. destruct videoDuration as [v | ]; [ | discriminate].
  destruct (geb clipStart v) eqn:G; [discriminate | ].
  cbv zeta. unfold MIN_VIABLE_DURATION.
  intros H. exists v. split; [reflexivity | ].
  revert H. bool_to_Q. revert G.
  destruct (ltb (clipEnd - clipStart) 6
            && ltb (Qmin v (clipEnd + Qmin 2.5 (Qmax 0.5 ((clipEnd - clipStart) * 0.07)))
                    - Qmax 0 (clipStart - Qmin 1.5 (Qmax 0.3 ((clipEnd - clipStart) * 0.03))))
                   6.0) eqn:B.
  - match goal with
    | |- context [ltb ?x 6.0] => destruct (ltb x 6.0) eqn:B2
    end;
      match goal with
      | |- context [leb ?x 0] => destruct (leb x 0) eqn:B3
      end; try discriminate;
      intros G H; injection H as <- <- <-; revert G B2 B3; clear B;
      minmax_intro; bool_to_Q; split_specs; repeat split; lra.
  - match goal with
    | |- context [leb ?x 0] => destruct (leb x 0) eqn:B3
    end; try discriminate.
    intros G H; injection H as <- <- <-; revert G B3; clear B;
      minmax_intro; bool_to_Q; split_specs; repeat split; lra.
Qed.

Lemma clipTiming_within_video_witness :
  exists v, Some 100 = Some v
            /\ 0 <= 9.7 /\ 9.7 < 20.70 /\ 20.70 <= v /\ 11.000 == 20.70 - 9.7.
Proof.
  apply (clipTiming_within_video 10 20 (Some 100) 9.7 20.70 11.000).
  vm_compute. reflexivity.
Defined.

(** X4.  For a clip that starts at 0 or later, ends after it starts and
    starts before the end of the video, the timing step of [generateClip]
    does not throw, and the times it leaves cover the part of the clip that
    lies within the video: the start is not after the start of the clip and
    the end not before its end, or the end of the video. *)
Theorem clipTiming_covers (clipStart clipEnd v : Q) :
  0 <= clipStart -> clipStart < clipEnd -> clipStart < v ->
  exists s e d,
    clipTiming clipStart clipEnd (Some v) = TimingOk s e d
    /\ s <= clipStart /\ Qmin clipEnd v <= e.
Proof.
  intros H0 H1 H2. unfold clipTiming.
  destruct (geb clipStart v) eqn:G; bool_to_Q; [lra | ].
  cbv zeta. unfold MIN_VIABLE_DURATION.
  destruct (ltb (clipEnd - clipStart) 6
            && ltb (Qmin v (clipEnd + Qmin 2.5 (Qmax 0.5 ((clipEnd - clipStart) * 0.07)))
                    - Qmax 0 (clipStart - Qmin 1.5 (Qmax 0.3 ((clipEnd - clipStart) * 0.03))))
                   6.0) eqn:B.
  - match goal with
    | |- context [ltb ?x 6.0] => destruct (ltb x 6.0) eqn:B2
    end;
      match goal with
      | |- context [leb ?x 0] => destruct (leb x 0) eqn:B3
      end;
      [ exfalso | do 3 eexists; split; [reflexivity | ]
      | exfalso | do 3 eexists; split; [reflexivity | ] ];
      apply andb_true_iff in B; destruct B as (Ba & Bb);
      revert H0 H1 H2 G B2 B3 Ba Bb;
      minmax_intro; bool_to_Q; split_specs; try split; lra.
  - match goal with
    | |- context [leb ?x 0] => destruct (leb x 0) eqn:B3
    end;
      [ exfalso | do 3 eexists; split; [reflexivity | ] ];
      revert H0 H1 H2 G B3; clear B;
      minmax_intro; bool_to_Q; split_specs; try split; lra.
Qed.

Lemma clipTiming_covers_witness :
  exists s e d,
    clipTiming 0 2.5 (Some 100) = TimingOk s e d
    /\ s <= 0 /\ Qmin 2.5 100 <= e.
Proof.
  apply (clipTiming_covers 0 2.5 100); lra.
Defined.

(** X5.  Every clip of the chapters path is made of a chapter of the
    transcript whose length, its end minus its start in seconds, lies
    between [CLIP_MIN_DURATION] and [CLIP_MAX_DURATION]: its start and end
    are the ones of the chapter in seconds and its duration is its end
    minus its start.  There are at most five clips, and there is none
    exactly when no chapter has such a length. *)
Theorem chapter_clips_within_limits (K : Constants) (chapters : list Chapter) :
  (forall clip,
      In clip (identifyClipsFromChapters K chapters) ->
      exists chapter,
        In chapter chapters /\ WithinLimits K chapter
        /\ cc_start clip = ch_start chapter / 1000
        /\ cc_end clip = ch_end chapter / 1000
        /\ cc_duration clip = cc_end clip - cc_start clip)
  /\ (List.length (identifyClipsFromChapters K chapters) <= 5)%nat
  /\ (identifyClipsFromChapters K chapters = []
      <-> forall chapter, In chapter chapters -> ~ WithinLimits K chapter).
Proof.
  assert (Q : forall chapter,
             chapterQualifies K chapter = true <-> WithinLimits K chapter).
  { intros chapter. unfold chapterQualifies, WithinLimits. cbv zeta.
    rewrite andb_true_iff. split; intros (Q1 & Q2); bool_to_Q.
    - split; assumption.
    - split; [now apply geb_le | now apply leb_le]. }
  unfold identifyClipsFromChapters.
  set (potentialClips := map chapterClip (filter (chapterQualifies K) chapters)).
  assert (E : match potentialClips with
              | [] => []
              | _ :: _ => firstn 5 potentialClips
              end = firstn 5 potentialClips)
    by (destruct potentialClips; reflexivity).
  rewrite E. clear E. split; [ | split].
  - intros clip H. apply In_firstn_list in H.
    subst potentialClips. apply in_map_iff in H.
    destruct H as (chapter & <- & H). apply filter_In in H.
    destruct H as (H & Hq). exists chapter.
    split; [exact H | split; [now apply Q | ]].
    unfold chapterClip. cbn [cc_duration cc_end cc_start]. auto.
  - apply firstn_le_length.
  - split.
    + intros H chapter Hc W. apply Q in W.
      assert (I : In (chapterClip chapter) potentialClips).
      { subst potentialClips. apply in_map. apply filter_In. now split. }
      destruct potentialClips as [ | c l]; [contradiction | ].
      discriminate.
    + intros H. subst potentialClips.
      assert (F : filter (chapterQualifies K) chapters = []).
      { destruct (filter (chapterQualifies K) chapters) as [ | c l] eqn:F;
          [reflexivity | ].
        assert (I : In c (filter (chapterQualifies K) chapters))
          by (rewrite F; now left).
        apply filter_In in I. destruct I as (I & Hq).
        apply Q in Hq. elim (H c I Hq). }
      now rewrite F.
Qed.

(** ** The words path *)

Lemma speakerDiffers_false (a b : option jsstring) :
  speakerDiffers a b = false -> a = b.
Proof.
  destruct a as [x | ], b as [y | ]; simpl; intros H; try discriminate;
    [ | reflexivity].
  apply negb_false_iff in H. apply eqStr_eq in H. congruence.
Qed.

Lemma speakerDiffers_true (a b : option jsstring) :
  speakerDiffers a b = true -> a <> b.
Proof.
  intros H E. subst b. destruct a as [x | ]; simpl in H; [ | discriminate].
  rewrite (proj2 (eqStr_eq x x) eq_refl) in H. discriminate.
Qed.

Lemma Chain_snoc (l : list WordUtterance) (u v : WordUtterance) :
  Chain (l ++ [u]) -> Linked u v -> Chain (l ++ [u; v]).
Proof.
  induction l as [ | a l IH]; intros C L.
  - simpl. auto.
  - destruct l as [ | b l].
    + simpl in *. destruct C as (C1 & _). auto.
    + change (Linked a b /\ Chain ((b :: l) ++ [u; v])).
      change (Linked a b /\ Chain ((b :: l) ++ [u])) in C.
      destruct C as (C1 & C2). split; [exact C1 | ]. now apply IH.
Qed.

Lemma Chain_last (l : list WordUtterance) (u u' : WordUtterance) :
  Chain (l ++ [u]) ->
  (forall p, Linked p u -> Linked p u') ->
  Chain (l ++ [u']).
Proof.
  induction l as [ | a l IH]; intros C L.
  - exact I.
  - destruct l as [ | b l].
    + simpl in *. destruct C as (C1 & _). auto.
    + change (Linked a b /\ Chain ((b :: l) ++ [u'])).
      change (Linked a b /\ Chain ((b :: l) ++ [u])) in C.
      destruct C as (C1 & C2). split; [exact C1 | ]. now apply IH.
Qed.

Lemma spelled_snoc (ws : list Word) (w : Word) :
  spelled (ws ++ [w]) = spelled ws ++ w_text w ++ str " ".
Proof.
  unfold spelled. rewrite flat_map_app. simpl. now rewrite app_nil_r.
Qed.

Lemma concat_words_snoc (l : list WordUtterance) (u : WordUtterance) :
  List.concat (map wu_words (l ++ [u])) = List.concat (map wu_words l) ++ wu_words u.
Proof.
  rewrite map_app, concat_app. simpl. now rewrite app_nil_r.
Qed.

Lemma hd_start_snoc (l : list WordUtterance) (u v : WordUtterance) :
  match l ++ [u] with x :: _ => wu_start x = 0 | [] => True end ->
  match (l ++ [u]) ++ [v] with x :: _ => wu_start x = 0 | [] => True end.
Proof. destruct l; simpl; auto. Qed.

Lemma Grouped_single (word : Word) (s : Q) :
  Grouped (mkWordUtterance [word] s (w_end word) (w_text word ++ str " ")
                           (w_speaker word)).
Proof.
  unfold Grouped. cbn.
  split; [exists [], word; split; reflexivity | ].
  split.
  - intros w [<- | []]. reflexivity.
  - unfold spelled. cbn. now rewrite app_nil_r.
Qed.

Lemma addWord_inv (state : list WordUtterance * WordUtterance)
  (processed : list Word) (word : Word) :
  GroupingInv state processed ->
  GroupingInv (addWord state word) (processed ++ [word]).
Proof.
  destruct state as (utts, cur). intros (I0 & I1 & I2 & I3 & I4).
  unfold allOf in I1, I2, I3, I4. cbn [fst snd] in *.
  destruct (wu_words cur) as [ | w0 ws0] eqn:W.
  - (* the first word *)
    specialize (I0 eq_refl). injection I0 as -> ->.
    cbn in I1. subst processed.
    unfold GroupingInv, allOf, addWord.
    cbn [wu_words wu_speaker List.length].
    change (0 <? 0)%nat with false. rewrite andb_false_r. cbn.
    split; [discriminate | ].
    split; [reflexivity | ].
    split; [ | split; [exact I | reflexivity]].
    constructor; [ | constructor]. apply Grouped_single.
  - cbn [List.length Nat.ltb Nat.leb] in I1, I2, I3, I4.
    change (0 <? S (List.length ws0))%nat with true in *.
    rewrite concat_words_snoc in I1.
    assert (G : Grouped cur).
    { rewrite Forall_forall in I2. apply I2. apply in_or_app. right.
      now left. }
    unfold addWord. rewrite W. cbn [List.length].
    change (0 <? S (List.length ws0))%nat with true.
    rewrite andb_true_r.
    destruct (speakerDiffers (w_speaker word) (wu_speaker cur)) eqn:D.
    + (* a new utterance *)
      apply speakerDiffers_true in D.
      unfold GroupingInv, allOf. cbn.
      split; [discriminate | ].
      split.
      { rewrite concat_words_snoc, concat_words_snoc. cbn.
        rewrite <- I1. now rewrite W. }
      split.
      { apply Forall_app. split; [exact I2 | ].
        constructor; [ | constructor]. apply Grouped_single. }
      split.
      { rewrite <- app_assoc. cbn. apply Chain_snoc; [exact I3 | ].
        unfold Linked. cbn. split; [congruence | ].
        exists word, []. split; reflexivity. }
      now apply hd_start_snoc.
    + (* the same speaker *)
      apply speakerDiffers_false in D.
      destruct G as ((ws & w & Gw & Ge) & Gs & Gt).
      unfold GroupingInv, allOf. cbn.
      rewrite length_app. cbn. rewrite Nat.add_comm. cbn.
      split.
      { intros E. apply (f_equal (@List.length Word)) in E.
        rewrite length_app in E. cbn in E. lia. }
      split.
      { rewrite concat_words_snoc. cbn. rewrite <- I1, W.
        now rewrite app_assoc. }
      split.
      { apply Forall_app. apply Forall_app in I2. destruct I2 as (I2 & _).
        split; [exact I2 | ].
        constructor; [ | constructor]. unfold Grouped. cbn.
        split; [exists (wu_words cur), word; split; reflexivity | ].
        split.
        - intros x Hx. apply in_app_or in Hx.
          destruct Hx as [Hx | [<- | []]]; [ | reflexivity].
          rewrite (Gs x Hx). now symmetry.
        - rewrite Gt. now rewrite spelled_snoc. }
      split.
      { apply (Chain_last utts cur); [exact I3 | ].
        intros p (L1 & w1 & ws1 & L2 & L3). unfold Linked. cbn.
        split; [congruence | ].
        rewrite W in L2. injection L2 as <- <-.
        exists w0, (ws0 ++ [word]). split; [now rewrite W | exact L3]. }
      destruct utts; cbn in *; exact I4.
Qed.

Lemma fold_addWord_inv (words : list Word) :
  forall state processed,
    GroupingInv state processed ->
    GroupingInv (fold_left addWord words state) (processed ++ words).
Proof.
  induction words as [ | w words IH]; intros state processed H; simpl.
  - now rewrite app_nil_r.
  - replace (processed ++ w :: words) with ((processed ++ [w]) ++ words)
      by (now rewrite <- app_assoc).
    apply IH. now apply addWord_inv.
Qed.

Lemma groupWords_allOf (words : list Word) :
  groupWords words = allOf (fold_left addWord words startState).
Proof.
  unfold groupWords, allOf. fold startState.
  now destruct (fold_left addWord words startState).
Qed.

Lemma Chain_split (l1 l2 : list WordUtterance) (u v : WordUtterance) :
  Chain (l1 ++ u :: v :: l2) -> Linked u v.
Proof.
  induction l1 as [ | a l1 IH]; intros C.
  - exact (proj1 C).
  - apply IH. destruct l1; exact (proj2 C).
Qed.

(** X6.  The utterances [identifyClipsFromWords] builds hold the words of
    the transcript, all of them and in their order.  Every utterance holds
    at least one word, words of one speaker only, the text of its words,
    each followed by a space, and ends with its last word.  The first
    utterance starts at 0, whatever the start of the first word; every
    other one starts with its first word, and its speaker is not the
    speaker of the utterance before. *)
Theorem groupWords_properties (words : list Word) :
  List.concat (map wu_words (groupWords words)) = words
  /\ (forall u, In u (groupWords words) -> Grouped u)
  /\ (forall u rest, groupWords words = u :: rest -> wu_start u = 0)
  /\ (forall before u v rest,
         groupWords words = before ++ u :: v :: rest -> Linked u v).
Proof.
  rewrite groupWords_allOf.
  assert (S0 : GroupingInv startState []).
  { unfold GroupingInv, allOf, startState. cbn.
    repeat split; auto. }
  destruct (fold_addWord_inv words startState [] S0)
    as (_ & I1 & I2 & I3 & I4).
  cbn in I1.
  split; [exact I1 | ].
  split; [now apply Forall_forall | ].
  split.
  - intros u rest E. rewrite E in I4. exact I4.
  - intros before u v rest E. rewrite E in I3.
    now apply Chain_split in I3.
Qed.

(** ** The shuffle *)

Lemma setAt_app (A : Type) (l1 l2 : list A) (a b : A) :
  setAt (l1 ++ a :: l2) (List.length l1) b = l1 ++ b :: l2.
Proof.
  induction l1 as [ | c l1 IH]; [reflexivity | ].
  unfold setAt in *. cbn [List.length app firstn].
  change (skipn (S (S (List.length l1))) (c :: l1 ++ a :: l2))
    with (skipn (S (List.length l1)) (l1 ++ a :: l2)).
  now rewrite IH.
Qed.

Lemma nth_error_after (A : Type) (l1 r : list A) (x y : A) (j : nat) :
  (List.length l1 < j)%nat ->
  nth_error (l1 ++ x :: r) j = Some y ->
  exists l2 l3, r = l2 ++ y :: l3
                /\ j = (List.length l1 + 1 + List.length l2)%nat.
Proof.
  intros L H. rewrite nth_error_app2 in H by lia.
  destruct (j - List.length l1)%nat as [ | n] eqn:E; [lia | ].
  cbn in H. apply nth_error_split in H. destruct H as (l2 & l3 & -> & <-).
  exists l2, l3. split; [reflexivity | lia].
Qed.

Lemma swapped_perm (A : Type) (l1 l2 l3 : list A) (x y : A) :
  Permutation (l1 ++ y :: l2 ++ x :: l3) (l1 ++ x :: l2 ++ y :: l3).
Proof.
  apply Permutation_app_head.
  transitivity (y :: x :: l2 ++ l3).
  - constructor. symmetry. apply Permutation_middle.
  - transitivity (x :: y :: l2 ++ l3); [apply perm_swap | ].
    constructor. apply Permutation_middle.
Qed.

Lemma setAt_far (A : Type) (l1 l2 l3 : list A) (a c b : A) :
  setAt (l1 ++ a :: l2 ++ c :: l3)
        (List.length l1 + 1 + List.length l2) b
  = l1 ++ a :: l2 ++ b :: l3.
Proof.
  replace (l1 ++ a :: l2 ++ c :: l3) with ((l1 ++ a :: l2) ++ c :: l3)
    by (now rewrite <- app_assoc).
  replace (List.length l1 + 1 + List.length l2)%nat
    with (List.length (l1 ++ a :: l2))
    by (rewrite length_app; cbn; lia).
  rewrite setAt_app. now rewrite <- app_assoc.
Qed.

Lemma swapAt_perm (A : Type) (l : list A) (i j : nat) :
  Permutation (swapAt l i j) l.
Proof.
  unfold swapAt.
  destruct (nth_error l i) as [x | ] eqn:Ei; [ | reflexivity].
  destruct (nth_error l j) as [y | ] eqn:Ej; [ | reflexivity].
  destruct (Nat.lt_trichotomy i j) as [L | [E | L]].
  - apply nth_error_split in Ei. destruct Ei as (l1 & r & -> & <-).
    destruct (nth_error_after A l1 r x y j L Ej) as (l2 & l3 & -> & ->).
    rewrite setAt_app, setAt_far. apply swapped_perm.
  - subst j. rewrite Ei in Ej. injection Ej as <-.
    apply nth_error_split in Ei. destruct Ei as (l1 & r & -> & <-).
    now rewrite !setAt_app.
  - apply nth_error_split in Ej. destruct Ej as (l1 & r & -> & <-).
    destruct (nth_error_after A l1 r y x i L Ei) as (l2 & l3 & -> & ->).
    rewrite setAt_far, setAt_app. apply swapped_perm.
Qed.

Lemma shuffleFrom_perm (A : Type) (random : nat -> Draw) :
  forall i k (l : list A), Permutation (shuffleFrom i k random l) l.
Proof.
  induction i as [ | i IH]; intros k l; cbn [shuffleFrom]; [reflexivity | ].
  etransitivity; [apply IH | apply swapAt_perm].
Qed.

Lemma shuffle_perm (A : Type) (random : nat -> Draw) (l : list A) :
  Permutation (shuffle random l) l.
Proof. apply shuffleFrom_perm. Qed.

Lemma drawValue_range (d : Draw) : 0 <= drawValue d /\ drawValue d < 1.
Proof.
  unfold drawValue, ofNat.
  assert (P : 0 < inject_Z (Z.of_nat (d_num d + d_more d + 1))).
  { change 0 with (inject_Z 0). rewrite <- Zlt_Qlt. lia. }
  split.
  - apply Qle_shift_div_l; [exact P | ].
    rewrite Qmult_0_l. change 0 with (inject_Z 0). rewrite <- Zle_Qle. lia.
  - apply Qlt_shift_div_r; [exact P | ].
    rewrite Qmult_1_l. rewrite <- Zlt_Qlt. lia.
Qed.

Lemma draw_index (d : Draw) (i : nat) :
  (floor (drawValue d * ofNat (i + 1)) <= i)%nat.
Proof.
  destruct (drawValue_range d) as (R0 & R1).
  unfold floor.
  assert (L : inject_Z (Qfloor (drawValue d * ofNat (i + 1)))
              < inject_Z (Z.of_nat (i + 1))).
  { apply Qle_lt_trans with (drawValue d * ofNat (i + 1));
      [apply Qfloor_le | ].
    unfold ofNat.
    assert (P : 0 < inject_Z (Z.of_nat (i + 1))).
    { change 0 with (inject_Z 0). rewrite <- Zlt_Qlt. lia. }
    revert P. generalize (inject_Z (Z.of_nat (i + 1))).
    revert R1. generalize (drawValue d). intros r R1 q P. nra. }
  rewrite <- Zlt_Qlt in L. lia.
Qed.

(** X7.  The shuffle of the pools is a permutation: whatever
    [Math.random()] returns, the shuffled pool holds the clips it held,
    each as often as before.  Every index the loop draws is at most the
    index it is at. *)
Theorem shuffle_permutes (A : Type) (random : nat -> Draw) (l : list A) :
  Permutation (shuffle random l) l
  /\ List.length (shuffle random l) = List.length l
  /\ forall k i, (floor (drawValue (random k) * ofNat (i + 1)) <= i)%nat.
Proof.
  split; [apply shuffle_perm | ].
  split; [apply Permutation_length, shuffle_perm | ].
  intros k i. apply draw_index.
Qed.

(** ** The candidates of the utterance path *)

Lemma windowLoop_all (P : Clip -> Prop) (windowStart : Q) :
  (forall wu windowEnd, P (windowCandidate wu windowStart windowEnd)) ->
  forall rest wu windowEnd acc,
    Forall P acc ->
    Forall P (windowLoop windowStart rest wu windowEnd acc).
Proof.
  intros HP.
  induction rest as [ | u rest IH]; intros wu windowEnd acc Hacc;
    cbn [windowLoop]; [exact Hacc | ].
  destruct (gtb _ 60); [exact Hacc | ].
  cbv zeta.
  destruct (geb (u_end u / 1000 - windowStart) 5); [ | now apply IH].
  match goal with
  | |- Forall _ (windowLoop _ _ (fst ?p) (snd ?p) _) => generalize p
  end.
  intros [wu' windowEnd']. cbn [fst snd]. apply IH.
  destruct (geb (windowEnd' - windowStart) 5) eqn:G; [ | exact Hacc].
  apply Forall_app. split; [exact Hacc | ].
  constructor; [ | constructor]. apply HP.
Qed.

Lemma singleCandidate_all (P : Clip -> Prop) (u : Utterance) (clip : Clip) :
  (forall txt st en dur wc sc q v, P (candidate txt st en dur wc sc q v)) ->
  singleCandidate u = Some clip -> P clip.
Proof.
  intros HP. unfold singleCandidate. intros H.
  destruct (geb _ 5 && leb _ 60); [ | discriminate].
  destruct (10 <=? _)%nat; [ | discriminate].
  cbv zeta in H.
  destruct (1 <=? _)%nat; [ | discriminate].
  revert H.
  match goal with
  | |- context [geb (fst ?p - _) 5] => generalize p
  end.
  intros [adjustedEndTime adjustedText]. cbn [fst snd].
  destruct (geb _ 5) eqn:G; [ | discriminate].
  intros H. inversion H; subst; clear H. apply HP.
Qed.

Lemma utterancePotentialClips_all (P : Clip -> Prop)
  (utterances : list Utterance) (clip : Clip) :
  (forall txt st en dur wc sc q v, P (candidate txt st en dur wc sc q v)) ->
  In clip (utterancePotentialClips utterances) -> P clip.
Proof.
  intros HP H. unfold utterancePotentialClips in H.
  apply in_flat_map in H. destruct H as (i & _ & H).
  destruct (skipn i utterances) as [ | first rest]; [contradiction | ].
  unfold windowsFrom in H. apply in_app_or in H. destruct H as [H | H].
  - assert (F : Forall P (windowLoop (u_start first / 1000) (first :: rest)
                            [] (u_start first / 1000) [])).
    { apply windowLoop_all; [ | constructor].
      intros wu windowEnd. unfold windowCandidate. apply HP. }
    rewrite Forall_forall in F. now apply F.
  - destruct (singleCandidate first) as [c | ] eqn:S; [ | contradiction].
    destruct H as [<- | []]. now apply singleCandidate_all with first.
Qed.

(** ** The pools *)

Lemma In_categoryContribution (categoryClips : list Clip) (c : Clip) :
  In c (categoryContribution categoryClips) -> In c categoryClips.
Proof.
  unfold categoryContribution.
  destruct categoryClips as [ | x l]; [contradiction | ].
  intros H. apply In_firstn_list in H. now apply sortBy_In in H.
Qed.

Lemma In_viralCategories (remainingClips l : list Clip) (c : Clip) :
  In l (viralCategories remainingClips) -> In c l -> In c remainingClips.
Proof.
  unfold viralCategories. intros [<- | [<- | [<- | [<- | []]]]] H;
    apply filter_In in H; tauto.
Qed.

Lemma In_utterancePool (random : nat -> Draw) (potentialClips : list Clip)
  (c : Clip) :
  In c (utterancePool random potentialClips) -> In c potentialClips.
Proof.
  unfold utterancePool. intros H.
  apply (Permutation_in _ (shuffle_perm _ random _)) in H.
  apply In_firstn_list in H.
  destruct (MAX_CLIPS_FOR_AI <? _)%nat.
  - apply in_app_or in H. destruct H as [H | H].
    + apply In_firstn_list in H. now apply sortBy_In in H.
    + apply in_flat_map in H. destruct H as (l & Hl & H).
      apply In_categoryContribution in H.
      apply (In_viralCategories _ _ _ Hl) in H.
      apply In_skipn_list in H. now apply sortBy_In in H.
  - now apply sortBy_In in H.
Qed.

Lemma utterancePool_length (random : nat -> Draw) (potentialClips : list Clip) :
  (List.length (utterancePool random potentialClips) <= 40)%nat
  /\ (potentialClips <> [] -> utterancePool random potentialClips <> []).
Proof.
  unfold utterancePool.
  split.
  - rewrite (Permutation_length (shuffle_perm _ random _)).
    apply firstn_le_length.
  - intros NE E. apply (f_equal (@List.length Clip)) in E.
    rewrite (Permutation_length (shuffle_perm _ random _)) in E.
    rewrite length_firstn in E. cbn [List.length] in E.
    assert (L : (1 <= List.length (sortBy byQuality potentialClips))%nat).
    { rewrite sortBy_length. destruct potentialClips; [congruence | cbn; lia]. }
    destruct (MAX_CLIPS_FOR_AI <? _)%nat eqn:B.
    + apply Nat.ltb_lt in B. rewrite length_app, length_firstn in E.
      unfold MAX_CLIPS_FOR_AI in *.
      change (ceil (ofNat 40 * 0.5)) with 20%nat in E. lia.
    + unfold MAX_CLIPS_FOR_AI in *. lia.
Qed.

Lemma promptThrows_true (clipsForAI : list Clip) :
  clipsForAI <> [] ->
  (forall c, In c clipsForAI -> impactFactors c = None) ->
  promptThrows clipsForAI = true.
Proof.
  intros NE H. destruct clipsForAI as [ | c l]; [congruence | ].
  unfold promptThrows. cbn. rewrite (H c) by now left. reflexivity.
Qed.

Lemma utterance_candidates_lack_impactFactors (utterances : list Utterance)
  (c : Clip) :
  In c (utterancePotentialClips utterances) -> impactFactors c = None.
Proof.
  intros H.
  apply (utterancePotentialClips_all (fun c => impactFactors c = None)
           utterances); [reflexivity | exact H].
Qed.

Lemma identifyClipsFromUtterances_fallback (K : Constants)
  (utterances : list Utterance) (random : nat -> Draw) (llm : LlmResult) :
  identifyClipsFromUtterances K utterances random llm
  = match utterancePotentialClips utterances with
    | [] => identifyClips K utterances
    | (_ :: _) as potentialClips =>
        fallbackClipSelection (utterancePool random potentialClips)
    end.
Proof.
  unfold identifyClipsFromUtterances.
  destruct (utterancePotentialClips utterances) as [ | c l] eqn:P;
    [reflexivity | ].
  unfold selectFromUtterances. rewrite promptThrows_true; [reflexivity | | ].
  - apply utterancePool_length. discriminate.
  - intros x Hx. apply In_utterancePool in Hx.
    apply (utterance_candidates_lack_impactFactors utterances).
    now rewrite P.
Qed.

(** X8.  On the utterance path the reply of the model has no effect.  The
    candidates carry no [impactFactors], so the prompt cannot be built, and
    whenever there is a candidate the result is the fallback selection of
    the pool, which holds at most 40 clips, all of them candidates; when
    there is none, the result is the one of [identifyClips].  The same
    holds of the words path, which hands its utterances to this one. *)
Theorem utterance_path_ignores_model (K : Constants)
  (utterances : list Utterance) (random : nat -> Draw) (llm : LlmResult) :
  identifyClipsFromUtterances K utterances random llm
  = match utterancePotentialClips utterances with
    | [] => identifyClips K utterances
    | (_ :: _) as potentialClips =>
        fallbackClipSelection (utterancePool random potentialClips)
    end
  /\ (List.length (utterancePool random (utterancePotentialClips utterances))
      <= 40)%nat
  /\ (forall c,
         In c (utterancePool random (utterancePotentialClips utterances)) ->
         In c (utterancePotentialClips utterances)
         /\ impactFactors c = None)
  /\ (forall words,
         identifyClipsFromWords K words random llm
         = identifyClipsFromWords K words random LlmError).
Proof.
  split; [apply identifyClipsFromUtterances_fallback | ].
  split; [apply utterancePool_length | ].
  split.
  - intros c H. apply In_utterancePool in H. split; [exact H | ].
    now apply (utterance_candidates_lack_impactFactors utterances).
  - intros words. unfold identifyClipsFromWords.
    now rewrite !identifyClipsFromUtterances_fallback.
Qed.

(** ** The text path from end to end *)

Lemma searchFrom_suffix (r : regex) :
  forall s p b st e,
    searchFrom r p b s = Some (st, e) -> exists pre, s = pre ++ ahead st.
Proof.
  induction s as [ | c s IH]; intros p b st e H; cbn [searchFrom] in H.
  - destruct (run r _ Some); [ | discriminate].
    injection H as <- <-. now exists [].
  - destruct (run r _ Some).
    + injection H as <- <-. now exists [].
    + apply IH in H. destruct H as (pre & ->). now exists (c :: pre).
Qed.

Lemma sentence_needs_terminator (s : jsstring) :
  (forall c, In c s -> isTerminator c = false) ->
  textPathSentences s = [].
Proof.
  intros H. unfold textPathSentences, matchG, matchAll.
  cbn [matchAllFrom].
  destruct (searchFrom sentenceRegex 0 None s) as [[st e] | ] eqn:S;
    [ | reflexivity].
  exfalso.
  destruct (searchFrom_suffix _ _ _ _ _ _ S) as (pre & Es).
  apply searchFrom_sound in S. destruct S as (M & _ & _).
  destruct (sentence_match_ends st e M) as (w & c & W & T).
  destruct (Matches_consumes _ _ _ M) as (w' & A & P & _).
  rewrite (whole_consumed st e w' A P) in W. subst w'.
  rewrite (H c) in T; [discriminate | ].
  rewrite Es, A. apply in_or_app. right. apply in_or_app. left.
  apply in_or_app. right. now left.
Qed.

(** X9.  A transcript whose text is not empty and holds none of [.], [!]
    and [?] yields no clip at all: the text path is taken, finds no
    sentence and returns the empty list, whatever utterances, words and
    chapters the transcript holds. *)
Theorem unpunctuated_text_yields_nothing (K : Constants)
  (transcriptData : TranscriptData) (random : nat -> Draw) (llm : LlmResult)
  (transcriptText : jsstring) :
  td_text transcriptData = Some transcriptText ->
  transcriptText <> [] ->
  (forall c, In c transcriptText -> isTerminator c = false) ->
  identifyClipsWithAI K transcriptData random llm = TranscriptClips [].
Proof.
  intros E NE H. unfold identifyClipsWithAI. rewrite E.
  destruct transcriptText as [ | c t]; [congruence | ].
  cbn [nonEmpty]. unfold identifyClipsFromFullText. rewrite E.
  now rewrite (sentence_needs_terminator _ H).
Qed.

Lemma unpunctuated_text_yields_nothing_witness :
  identifyClipsWithAI defaults unpunctuatedTranscript noDraw LlmError
  = TranscriptClips []
  /\ utterancePotentialClips [longUtterance] <> [].
Proof.
  split.
  - apply (unpunctuated_text_yields_nothing defaults unpunctuatedTranscript
             noDraw LlmError (str "no sentence ends here")).
    + reflexivity.
    + discriminate.
    + intros c H. vm_compute in H.
      repeat (destruct H as [<- | H]; [reflexivity | ]). contradiction.
  - vm_compute. discriminate.
Defined.

(** X10.  The reply of the model can change the result only when the
    transcript has a text: for a transcript without one, the clips are the
    same whatever the model answers, or whether it answers at all. *)
Theorem model_matters_only_with_text (K : Constants)
  (transcriptData : TranscriptData) (random : nat -> Draw) (llm : LlmResult) :
  nonEmpty (td_text transcriptData) = None ->
  identifyClipsWithAI K transcriptData random llm
  = identifyClipsWithAI K transcriptData random LlmError.
Proof.
  intros E. unfold identifyClipsWithAI. rewrite E.
  destruct (nonEmpty (td_utterances transcriptData)) as [us | ].
  - f_equal. now rewrite !identifyClipsFromUtterances_fallback.
  - destruct (nonEmpty (td_words transcriptData)) as [ws | ];
      [ | reflexivity].
    f_equal. unfold identifyClipsFromWords.
    now rewrite !identifyClipsFromUtterances_fallback.
Qed.

Lemma model_matters_only_with_text_witness :
  identifyClipsWithAI defaults utteranceTranscript noDraw
                      (LlmReply (str "SELECTED CLIP #: 1"))
  = identifyClipsWithAI defaults utteranceTranscript noDraw LlmError.
Proof.
  apply (model_matters_only_with_text defaults utteranceTranscript noDraw
           (LlmReply (str "SELECTED CLIP #: 1"))).
  reflexivity.
Defined.

(** ** The pool of the text path *)

Lemma flat_map_split_perm (A B : Type) (f g h : A -> list B) (l : list A) :
  (forall a, Permutation (f a ++ g a) (h a)) ->
  Permutation (flat_map f l ++ flat_map g l) (flat_map h l).
Proof.
  intros H. induction l as [ | a l IH]; cbn; [constructor | ].
  rewrite <- (H a), <- IH.
  rewrite <- !app_assoc. apply Permutation_app_head.
  rewrite !app_assoc. apply Permutation_app_tail.
  apply Permutation_app_comm.
Qed.

Lemma inPoolBucket_exclusive (j k : nat) (c : Clip) :
  j <> k -> inPoolBucket j c = true -> inPoolBucket k c = false.
Proof.
  unfold inPoolBucket. intros N H.
  destruct (poolBucketOf c) as [n | ]; [ | reflexivity].
  apply Nat.eqb_eq in H. subst n. now apply Nat.eqb_neq.
Qed.

Lemma bucketContribution_firstn (remainingClips : list Clip) (k : nat) :
  bucketContribution remainingClips k
  = firstn (Nat.min (List.length (filter (inPoolBucket k) remainingClips))
                    (ceil (ofNat CLIPS_FOR_AI * 0.5
                           * (ofNat (List.length
                                       (filter (inPoolBucket k) remainingClips))
                              / ofNat (List.length remainingClips)))))
           (sortBy byQuality (filter (inPoolBucket k) remainingClips)).
Proof.
  unfold bucketContribution.
  destruct (filter (inPoolBucket k) remainingClips) as [ | c l];
    reflexivity.
Qed.

Lemma contributions_sub (remainingClips : list Clip) (ks : list nat) :
  NoDup ks ->
  exists rest,
    Permutation (flat_map (bucketContribution remainingClips) ks ++ rest)
                remainingClips.
Proof.
  intros ND.
  set (left := fun k =>
         skipn (Nat.min (List.length (filter (inPoolBucket k) remainingClips))
                    (ceil (ofNat CLIPS_FOR_AI * 0.5
                           * (ofNat (List.length
                                       (filter (inPoolBucket k) remainingClips))
                              / ofNat (List.length remainingClips)))))
               (sortBy byQuality (filter (inPoolBucket k) remainingClips))).
  exists (flat_map left ks
          ++ filter (fun x => negb (existsb (fun k => inPoolBucket k x) ks))
                    remainingClips).
  rewrite app_assoc.
  rewrite (classes_perm Clip nat inPoolBucket ks ND inPoolBucket_exclusive
             remainingClips) at 3.
  apply Permutation_app_tail.
  apply flat_map_split_perm. intros k. subst left. cbv beta.
  rewrite bucketContribution_firstn, firstn_skipn. apply sortBy_perm.
Qed.

Lemma balancedMix_sub (validatedClips : list Clip) :
  exists rest, Permutation (balancedMix validatedClips ++ rest) validatedClips.
Proof.
  unfold balancedMix.
  destruct (CLIPS_FOR_AI <? _)%nat.
  - set (half := floor (ofNat CLIPS_FOR_AI * 0.5)).
    set (sorted := sortBy byQuality validatedClips).
    assert (ND : NoDup (seq 0 4)) by apply seq_NoDup.
    destruct (contributions_sub (skipn half sorted) (seq 0 4) ND)
      as (rest & P).
    exists rest. rewrite <- app_assoc, P, firstn_skipn.
    apply sortBy_perm.
  - exists []. rewrite app_nil_r. apply sortBy_perm.
Qed.

Lemma validated_impactFactors (K : Constants) (transcriptText : jsstring)
  (audioDuration : option Q) (c : Clip) :
  In c (textPathValidatedClips K transcriptText audioDuration) ->
  impactFactors c <> None.
Proof.
  unfold textPathValidatedClips. intros H. apply in_map_iff in H.
  destruct H as (p & <- & H). cbn [validateClip impactFactors].
  unfold textPathPotentialClips in H.
  destruct (textPathSentences transcriptText); [contradiction | ].
  apply In_createPotentialClips in H. destruct H as (m & i & _ & _ & H).
  unfold windowClip in H.
  destruct (_ <? 5)%nat; [discriminate | ].
  cbv zeta in H. destruct (geb _ _ && leb _ _); [ | discriminate].
  injection H as <-. discriminate.
Qed.

(** X11.  The pool the text path sends to the model holds at most 60
    clips, every one a validated candidate and none more often than the
    candidates hold it; with 60 candidates or fewer it holds them all.
    Every clip of the pool carries its [impactFactors], so the prompt can
    be built. *)
Theorem text_pool_properties (K : Constants) (transcriptText : jsstring)
  (audioDuration : option Q) (random : nat -> Draw) :
  let validatedClips := textPathValidatedClips K transcriptText audioDuration in
  let clipsForAI := textPathPool random validatedClips in
  (List.length clipsForAI <= 60)%nat
  /\ (exists rest, Permutation (clipsForAI ++ rest) validatedClips)
  /\ ((List.length validatedClips <= 60)%nat ->
      Permutation clipsForAI validatedClips)
  /\ promptThrows clipsForAI = false.
Proof.
  intros validatedClips clipsForAI.
  assert (S : exists rest, Permutation (clipsForAI ++ rest) validatedClips).
  { destruct (balancedMix_sub validatedClips) as (rest & P).
    exists (skipn CLIPS_FOR_AI (shuffle random (balancedMix validatedClips))
            ++ rest).
    subst clipsForAI. unfold textPathPool.
    rewrite app_assoc, firstn_skipn.
    apply Permutation_trans with (balancedMix validatedClips ++ rest);
      [ | exact P].
    apply Permutation_app_tail. apply shuffle_perm. }
  split; [apply firstn_le_length | ].
  split; [exact S | ].
  split.
  - intros L. subst clipsForAI. unfold textPathPool.
    rewrite firstn_all2.
    + rewrite shuffle_perm. unfold balancedMix.
      rewrite sortBy_length.
      replace (CLIPS_FOR_AI <? List.length validatedClips)%nat with false
        by (symmetry; apply Nat.ltb_ge; exact L).
      apply sortBy_perm.
    + rewrite (Permutation_length (shuffle_perm _ random _)).
      unfold balancedMix. rewrite sortBy_length.
      replace (CLIPS_FOR_AI <? List.length validatedClips)%nat with false
        by (symmetry; apply Nat.ltb_ge; exact L).
      now rewrite sortBy_length.
  - destruct (promptThrows clipsForAI) eqn:T; [ | reflexivity].
    exfalso. unfold promptThrows in T. apply existsb_exists in T.
    destruct T as (c & Hc & T). destruct S as (rest & P).
    assert (I : In c validatedClips).
    { apply (Permutation_in _ P). apply in_or_app. now left. }
    apply validated_impactFactors in I.
    destruct (impactFactors c); [discriminate | congruence].
Qed.

(** ** More on the DiversitySelector *)

Lemma pushUnique_noSimilar (acc : list Clip) (clip : Clip) :
  NoSimilarPair acc -> NoSimilarPair (pushUnique acc clip).
Proof.
  intros H. unfold pushUnique.
  destruct (existsb (fun c => similarClips c clip) acc) eqn:E; [exact H | ].
  apply FOP_snoc; [exact H | ].
  apply Forall_forall. intros a Ha.
  destruct (similarClips a clip) eqn:S; [ | reflexivity].
  assert (X : existsb (fun c => similarClips c clip) acc = true)
    by (apply existsb_exists; now exists a).
  congruence.
Qed.

Lemma fold_pushUnique_noSimilar (l : list Clip) :
  forall acc, NoSimilarPair acc -> NoSimilarPair (fold_left pushUnique l acc).
Proof.
  induction l as [ | c l IH]; intros acc H; cbn; [exact H | ].
  apply IH. now apply pushUnique_noSimilar.
Qed.

Lemma fold_pushUnique_head (l : list Clip) :
  forall c acc, exists tl, fold_left pushUnique l (c :: acc) = c :: tl.
Proof.
  induction l as [ | x l IH]; intros c acc; cbn.
  - now exists acc.
  - unfold pushUnique at 2.
    destruct (existsb _ (c :: acc)); [apply IH | ].
    change ((c :: acc) ++ [x]) with (c :: (acc ++ [x])). apply IH.
Qed.

Lemma ceil_fifth_positive (n : nat) :
  (1 <= n)%nat -> (1 <= ceil (ofNat n * 0.2))%nat.
Proof.
  intros H. unfold ceil.
  assert (L : 0 < ofNat n * 0.2).
  { unfold ofNat.
    assert (P : 0 < inject_Z (Z.of_nat n)).
    { change 0 with (inject_Z 0). rewrite <- Zlt_Qlt. lia. }
    revert P. generalize (inject_Z (Z.of_nat n)). intros q P. lra. }
  assert (C : inject_Z 0 < inject_Z (Qceiling (ofNat n * 0.2))).
  { apply Qlt_le_trans with (ofNat n * 0.2); [exact L | apply Qle_ceiling]. }
  rewrite <- Zlt_Qlt in C. lia.
Qed.

(** X12.  The selection of [getDiverseClipSelectionWithDurations] never
    holds two clips that its similarity test takes for near-duplicates
    (starts less than 10 seconds apart, and the first 50 characters of one
    text within the other); and when at least one clip is asked for, the
    first of the preferred clips is the first clip of the selection. *)
Theorem diverse_selection_unique (scoredClips : list Clip) (maxClips : nat) :
  NoSimilarPair (getDiverseClipSelectionWithDurations scoredClips maxClips)
  /\ (forall c rest,
         (1 <= maxClips)%nat ->
         preferredClips scoredClips maxClips = c :: rest ->
         exists tl,
           getDiverseClipSelectionWithDurations scoredClips maxClips
           = c :: tl).
Proof.
  unfold getDiverseClipSelectionWithDurations. split.
  - apply FOP_app_l with (skipn maxClips
       (fold_left pushUnique (combinedSelection scoredClips maxClips) [])).
    rewrite firstn_skipn. apply fold_pushUnique_noSimilar. constructor.
  - intros c rest M P. unfold combinedSelection. rewrite P.
    pose proof (ceil_fifth_positive maxClips M) as C.
    destruct (ceil (ofNat maxClips * 0.2)) as [ | n]; [lia | ].
    cbn [firstn app fold_left]. unfold pushUnique at 2. cbn [existsb app].
    match goal with
    | |- context [fold_left pushUnique ?l [c]] =>
        destruct (fold_pushUnique_head l c []) as (tl & ->)
    end.
    destruct maxClips as [ | m]; [lia | ]. cbn [firstn]. eauto.
Qed.

(** ** More on the OverlapResolver *)

Lemma replaceFirst_perm (A : Type) (p : A -> bool) (new x : A) (l : list A) :
  find p l = Some x ->
  Permutation (replaceFirst p new l ++ [x]) (l ++ [new]).
Proof.
  induction l as [ | a l IH]; cbn; [discriminate | ].
  destruct (p a).
  - intros H. injection H as ->. cbn.
    transitivity (x :: new :: l).
    + transitivity (new :: x :: l); [ | apply perm_swap].
      constructor. symmetry. apply Permutation_cons_append.
    + constructor. apply Permutation_cons_append.
  - intros H. cbn. constructor. now apply IH.
Qed.

Lemma resolveStep_sub (finalClips dropped processed : list Clip)
  (clip : Clip) :
  Permutation (finalClips ++ dropped) processed ->
  exists dropped',
    Permutation (resolveStep finalClips clip ++ dropped')
                (processed ++ [clip]).
Proof.
  intros P. unfold resolveStep.
  assert (D : Permutation (finalClips ++ clip :: dropped)
                          (processed ++ [clip])).
  { rewrite <- P. rewrite <- Permutation_middle.
    apply Permutation_cons_append. }
  destruct (negb (existsb (significantOverlap clip) finalClips)).
  - exists dropped. rewrite <- app_assoc. exact D.
  - destruct (find (significantOverlap clip) finalClips) as [x | ] eqn:F;
      [ | now exists (clip :: dropped)].
    destruct (muchBetter clip x); [ | now exists (clip :: dropped)].
    exists (x :: dropped).
    transitivity ((replaceFirst (significantOverlap clip) clip finalClips
                   ++ [x]) ++ dropped).
    { rewrite <- app_assoc. reflexivity. }
    rewrite (replaceFirst_perm _ _ clip x finalClips F).
    rewrite <- app_assoc. cbn. exact D.
Qed.

Lemma fold_resolveStep_sub (l : list Clip) :
  forall finalClips dropped processed,
    Permutation (finalClips ++ dropped) processed ->
    exists dropped',
      Permutation (fold_left resolveStep l finalClips ++ dropped')
                  (processed ++ l).
Proof.
  induction l as [ | c l IH]; intros finalClips dropped processed P; cbn.
  - exists dropped. now rewrite app_nil_r.
  - destruct (resolveStep_sub _ _ _ c P) as (dropped' & P').
    destruct (IH _ _ _ P') as (dropped'' & P'').
    exists dropped''. now rewrite <- app_assoc in P''.
Qed.

Lemma map_snd_numbered (A : Type) (l : list A) :
  forall n, map snd (combine (seq n (List.length l)) l) = l.
Proof.
  induction l as [ | a l IH]; intros n; cbn; [reflexivity | ].
  now rewrite IH.
Qed.

Lemma sortForOverlap_perm (clips : list Clip) :
  Permutation (sortForOverlap clips) clips.
Proof.
  unfold sortForOverlap.
  rewrite (sortBy_perm _ byScoreThenReason).
  now rewrite map_snd_numbered.
Qed.

Lemma replaceFirst_nonempty (A : Type) (p : A -> bool) (new : A)
  (l : list A) :
  l <> [] -> replaceFirst p new l <> [].
Proof.
  destruct l as [ | a l]; [congruence | ]. cbn.
  destruct (p a); discriminate.
Qed.

Lemma resolveStep_nonempty (finalClips : list Clip) (clip : Clip) :
  resolveStep finalClips clip <> [] \/ finalClips = [].
Proof.
  destruct finalClips as [ | a l]; [now right | left].
  unfold resolveStep.
  destruct (negb _).
  - discriminate.
  - destruct (find _ _); [ | discriminate].
    destruct (muchBetter _ _); [ | discriminate].
    apply replaceFirst_nonempty. discriminate.
Qed.

Lemma fold_resolveStep_nonempty (l : list Clip) :
  forall finalClips,
    finalClips <> [] -> fold_left resolveStep l finalClips <> [].
Proof.
  induction l as [ | c l IH]; intros finalClips H; cbn; [exact H | ].
  apply IH. destruct (resolveStep_nonempty finalClips c); congruence.
Qed.

(** X13.  [analyzeClipsForQualityAndOverlap] returns clips of its input
    only, none more often than the input holds it: the result and the
    clips it dropped make up the input.  For an input that is not empty
    the result is not empty. *)
Theorem overlap_resolver_keeps_input_clips (clips : list Clip) :
  (exists dropped,
      Permutation (analyzeClipsForQualityAndOverlap clips ++ dropped) clips)
  /\ (clips <> [] -> analyzeClipsForQualityAndOverlap clips <> []).
Proof.
  unfold analyzeClipsForQualityAndOverlap. split.
  - destruct (fold_resolveStep_sub (sortForOverlap clips) [] [] [])
      as (dropped & P); [reflexivity | ].
    exists dropped. cbn in P. rewrite P. apply sortForOverlap_perm.
  - intros NE.
    destruct (sortForOverlap clips) as [ | c l] eqn:S.
    + pose proof (Permutation_length (sortForOverlap_perm clips)) as L.
      rewrite S in L. destruct clips; [congruence | discriminate].
    + cbn [fold_left]. apply fold_resolveStep_nonempty.
      unfold resolveStep. cbn. discriminate.
Qed.

Lemma FOP_before (A : Type) (R : A -> A -> Prop) (l1 l2 : list A) (c : A) :
  ForallOrdPairs R (l1 ++ c :: l2) -> Forall (fun x => R x c) l1.
Proof.
  induction l1 as [ | a l1 IH]; intros H; [constructor | ].
  cbn in H. inversion H as [ | x l Ha Hl]; subst.
  constructor.
  - rewrite Forall_forall in Ha. apply Ha. apply in_or_app. right. now left.
  - now apply IH.
Qed.

Lemma fold_resolveStep_all (l : list Clip) :
  forall finalClips,
    ForallOrdPairs (fun a b => significantOverlap a b = false)
                   (finalClips ++ l) ->
    fold_left resolveStep l finalClips = finalClips ++ l.
Proof.
  induction l as [ | c l IH]; intros finalClips H; cbn.
  - now rewrite app_nil_r.
  - assert (E : existsb (significantOverlap c) finalClips = false).
    { destruct (existsb (significantOverlap c) finalClips) eqn:E;
        [ | reflexivity].
      apply existsb_exists in E. destruct E as (x & Hx & E).
      apply FOP_before in H. rewrite Forall_forall in H.
      rewrite significantOverlap_sym in E. rewrite (H x Hx) in E.
      discriminate. }
    unfold resolveStep at 2. rewrite E. cbn [negb].
    rewrite IH.
    + now rewrite <- app_assoc.
    + now rewrite <- app_assoc.
Qed.

(** X14.  When no two clips of the input overlap significantly,
    [analyzeClipsForQualityAndOverlap] drops none: it returns the clips of
    the input in the order of its sort. *)
Theorem overlap_resolver_keeps_disjoint_clips (clips : list Clip) :
  ForallOrdPairs (fun a b => significantOverlap a b = false) clips ->
  analyzeClipsForQualityAndOverlap clips = sortForOverlap clips
  /\ Permutation (analyzeClipsForQualityAndOverlap clips) clips.
Proof.
  intros H.
  assert (E : analyzeClipsForQualityAndOverlap clips = sortForOverlap clips).
  { unfold analyzeClipsForQualityAndOverlap.
    rewrite fold_resolveStep_all; [reflexivity | ].
    cbn [app].
    apply FOP_perm with clips; [ | | exact H].
    - intros a b R. now rewrite significantOverlap_sym.
    - symmetry. apply sortForOverlap_perm. }
  split; [exact E | ]. rewrite E. apply sortForOverlap_perm.
Qed.

Lemma overlap_resolver_keeps_disjoint_clips_witness :
  analyzeClipsForQualityAndOverlap [overlapA; overlapB]
  = sortForOverlap [overlapA; overlapB]
  /\ Permutation (analyzeClipsForQualityAndOverlap [overlapA; overlapB])
                 [overlapA; overlapB].
Proof.
  apply (overlap_resolver_keeps_disjoint_clips [overlapA; overlapB]).
  repeat constructor.
Defined.

(** ** More on the candidates of the text path *)

Lemma windowClip_bounds K sentences tpw m i clip :
  windowClip K sentences tpw m i = Some clip ->
  0 <= start clip
  /\ duration clip <= 60
  /\ duration clip <= inject_Z (CLIP_MAX_DURATION K) * 1.5
  /\ exists wc, wordCount clip = Some wc /\ (5 <= wc)%nat.
Proof.
  unfold windowClip. intros H.
  destruct (_ <? 5)%nat eqn:W; [discriminate | ].
  destruct (geb _ _ && leb _ _) eqn:G; [ | discriminate].
  inversion H; subst; clear H. cbn [duration end_ start wordCount].
  apply andb_true_iff in G. destruct G as (_ & G). apply leb_le in G.
  split; [apply Q.le_max_l | ].
  split; [eapply Qle_trans; [exact G | apply Q.le_min_l] | ].
  split; [eapply Qle_trans; [exact G | apply Q.le_min_r] | ].
  eexists. split; [reflexivity | ]. apply Nat.ltb_ge in W. exact W.
Qed.

(** X15.  Every candidate of the text path starts at 0 or later, lasts at
    most 60 seconds and at most 1.5 times [CLIP_MAX_DURATION], holds at
    least five words, and its text is a run of consecutive sentences of the
    transcript joined by single spaces. *)
Theorem text_candidates_bounds (K : Constants) (transcriptText : jsstring)
  (audioDuration : option Q) (clip : Clip) :
  In clip (textPathPotentialClips K transcriptText audioDuration) ->
  0 <= start clip
  /\ duration clip <= 60
  /\ duration clip <= inject_Z (CLIP_MAX_DURATION K) * 1.5
  /\ (exists wc, wordCount clip = Some wc /\ (5 <= wc)%nat)
  /\ exists m i,
       (1 <= m)%nat
       /\ (i + m <= List.length (textPathSentences transcriptText))%nat
       /\ text clip
          = join (str " ")
                 (firstn m (skipn i (textPathSentences transcriptText))).
Proof.
  intros H. unfold textPathPotentialClips in H.
  destruct (textPathSentences transcriptText) as [ | s l] eqn:S;
    [contradiction | ].
  apply In_createPotentialClips in H. destruct H as (m & i & M & I & H).
  destruct (windowClip_bounds _ _ _ _ _ _ H) as (B1 & B2 & B3 & B4).
  repeat (split; [assumption | ]).
  exists m, i. split; [exact M | ]. split; [exact I | ].
  now apply windowClip_text in H.
Qed.

Lemma text_candidates_bounds_witness :
  0 <= start scenarioClip /\ duration scenarioClip <= 60.
Proof.
  destruct (text_candidates_bounds defaults scenarioTranscript None
              scenarioClip) as (B1 & B2 & _).
  - vm_compute. left. reflexivity.
  - split; assumption.
Defined.

(** X16.  With an audio duration above 0 and a [CLIP_MIN_DURATION] above
    0, every validated candidate of the text path lies within the audio:
    it starts at 0 or later, ends after it starts, and ends no later than
    the audio. *)
Theorem validated_clips_within_audio (K : Constants)
  (transcriptText : jsstring) (d : Q) (clip : Clip) :
  0 < d -> (0 < CLIP_MIN_DURATION K)%Z ->
  In clip (textPathValidatedClips K transcriptText (Some d)) ->
  0 <= start clip /\ start clip < end_ clip /\ end_ clip <= d.
Proof.
  intros D HK H. unfold textPathValidatedClips in H.
  apply in_map_iff in H. destruct H as (c & <- & _).
  unfold validateClip. cbn [start end_].
  assert (T : truthy d = true).
  { destruct (truthy d) eqn:T; [reflexivity | ].
    apply truthy_false in T. lra. }
  rewrite T.
  assert (M : 0 < inject_Z (CLIP_MIN_DURATION K)).
  { change 0 with (inject_Z 0). now rewrite <- Zlt_Qlt. }
  revert M. generalize (inject_Z (CLIP_MIN_DURATION K)). intros q M.
  revert D M. generalize (start c) (end_ c). intros s e D M.
  revert D M. minmax_intro. split_specs; repeat split; lra.
Qed.

Lemma validated_clips_within_audio_witness :
  exists clip,
    In clip (textPathValidatedClips defaults shortTranscript shortAudio)
    /\ 0 <= start clip /\ start clip < end_ clip /\ end_ clip <= 4.75.
Proof.
  exists (hd scenarioClip
            (textPathValidatedClips defaults shortTranscript shortAudio)).
  assert (I : In (hd scenarioClip
                    (textPathValidatedClips defaults shortTranscript
                                            shortAudio))
                 (textPathValidatedClips defaults shortTranscript
                                         (Some 4.75))).
  { vm_compute. left. reflexivity. }
  split; [exact I | ].
  apply (validated_clips_within_audio defaults shortTranscript 4.75 _);
    [lra | reflexivity | exact I].
Defined.

(** ** What a selection keeps of its candidate *)

(** The same cut: text, start, end and duration. *)
Lemma selectionOf_cut (clipsForAI : list Clip) (aiResponseText : jsstring)
  (m : ClipMatch) (s : Clip) :
  selectionOf clipsForAI aiResponseText m = Some s ->
  exists clip, In clip clipsForAI
               /\ text s = text clip /\ start s = start clip
               /\ end_ s = end_ clip /\ duration s = duration clip.
Proof.
  unfold selectionOf. intros H.
  destruct (_ && _); [ | discriminate].
  destruct (nth_error clipsForAI _) as [clip | ] eqn:E; [ | discriminate].
  injection H as <-. exists clip.
  split; [now apply nth_error_In in E | ]. repeat split.
Qed.

Lemma selections_cut (clipsForAI : list Clip) (llm : LlmResult) (s : Clip) :
  In s (selectFromFullText clipsForAI llm)
  \/ In s (selectFromUtterances clipsForAI llm) ->
  exists clip, In clip clipsForAI
               /\ text s = text clip /\ start s = start clip
               /\ end_ s = end_ clip /\ duration s = duration clip.
Proof.
  assert (F : In s (fallbackClipSelection clipsForAI) ->
              exists clip, In clip clipsForAI
                           /\ text s = text clip /\ start s = start clip
                           /\ end_ s = end_ clip
                           /\ duration s = duration clip).
  { intros H. apply In_fallbackClipSelection in H.
    destruct H as (c & Hc & ->). exists c. repeat split. exact Hc. }
  assert (P : forall r, In s (parseSelections clipsForAI r) ->
              exists clip, In clip clipsForAI
                           /\ text s = text clip /\ start s = start clip
                           /\ end_ s = end_ clip
                           /\ duration s = duration clip).
  { intros r H. apply In_parseSelections in H. destruct H as (m & H).
    now apply selectionOf_cut in H. }
  assert (M : forall r, In s (mentionSelections clipsForAI r) ->
              exists clip, In clip clipsForAI
                           /\ text s = text clip /\ start s = start clip
                           /\ end_ s = end_ clip
                           /\ duration s = duration clip).
  { intros r H. unfold mentionSelections in H. apply in_flat_map in H.
    destruct H as (i & _ & H).
    destruct (nth_error clipsForAI (Z.to_nat i)) as [clip | ] eqn:E;
      [ | contradiction].
    destruct H as [<- | []]. exists clip.
    split; [now apply nth_error_In in E | ]. repeat split. }
  unfold selectFromFullText, selectFromUtterances.
  destruct (promptThrows clipsForAI); [tauto | ].
  destruct llm as [ | r]; [tauto | ].
  destruct (parseSelections clipsForAI r) as [ | x l] eqn:E.
  - destruct (mentionSelections clipsForAI r) as [ | y l'] eqn:E'.
    + tauto.
    + intros [H | H]; [ | now apply F]. apply (M r). now rewrite E'.
  - intros [H | H]; apply (P r); now rewrite E.
Qed.

(** X17.  Whatever the model replies, and whether it replies or not, every
    clip the selection step returns has the text, the start, the end and
    the duration of a clip of the pool: the reply can name clips and give
    reasons, it cannot change what is cut or bring in a clip of its own. *)
Theorem selection_keeps_the_cut (clipsForAI : list Clip) (llm : LlmResult)
  (s : Clip) :
  In s (selectFromFullText clipsForAI llm)
  \/ In s (selectFromUtterances clipsForAI llm) ->
  exists clip, In clip clipsForAI
               /\ text s = text clip /\ start s = start clip
               /\ end_ s = end_ clip /\ duration s = duration clip.
Proof. apply selections_cut. Qed.

Lemma selection_keeps_the_cut_witness :
  exists s clip,
    In s (selectFromFullText (numberedPool 5) (LlmReply wellFormedReply))
    /\ In clip (numberedPool 5)
    /\ text s = text clip /\ start s = start clip
    /\ end_ s = end_ clip /\ duration s = duration clip.
Proof.
  assert (I : In (hd scenarioClip
                    (selectFromFullText (numberedPool 5)
                                        (LlmReply wellFormedReply)))
                 (selectFromFullText (numberedPool 5)
                                     (LlmReply wellFormedReply))).
  { vm_compute. left. reflexivity. }
  destruct (selection_keeps_the_cut (numberedPool 5)
              (LlmReply wellFormedReply) _ (or_introl I))
    as (clip & H).
  eexists. exists clip. split; [exact I | exact H].
Defined.

(** ** The key phrase *)


Lemma truncated_bounds (shown measured : jsstring) :
  shown <> [] ->
  truncated shown measured <> []
  /\ (List.length (truncated shown measured) <= 103)%nat.
Proof.
  intros NE. unfold truncated, substring. cbn [Nat.sub skipn]. split.
  - destruct shown as [ | c s]; [congruence | ]. discriminate.
  - rewrite length_app, length_firstn.
    destruct (100 <? List.length measured)%nat;
      [change (List.length (str "...")) with 3%nat | cbn [List.length]]; lia.
Qed.

Lemma sentence_trim_nonempty (txt s : jsstring) :
  In s (matchG sentenceRegex txt) -> trim s <> [].
Proof.
  intros H. apply (textPathSentences_end txt) in H.
  destruct H as (w & c & -> & T).
  destruct (trim_keeps_last w c (isTerminator_not_space c T)) as (w' & ->).
  destruct w'; discriminate.
Qed.

Lemma matchingSentence_In (keywords sentences : list jsstring) (s : jsstring) :
  matchingSentence keywords sentences = Some s -> In s sentences.
Proof.
  induction keywords as [ | k ks IH]; cbn; [discriminate | ].
  destruct (find _ sentences) as [x | ] eqn:F.
  - intros H. injection H as <-. now apply find_some in F.
  - exact IH.
Qed.

(** X18.  [getKeyPhrase] never returns the empty string, and never more
    than 103 characters, whatever text it is given, a missing one
    included. *)
Theorem getKeyPhrase_bounds (text : option jsstring) :
  getKeyPhrase text <> []
  /\ (List.length (getKeyPhrase text) <= 103)%nat.
Proof.
  unfold getKeyPhrase.
  destruct text as [[ | c t] | ]; try (split; [discriminate | vm_compute; lia]).
  set (txt := c :: t).
  destruct (matchingSentence keywords (matchG sentenceRegex txt)) as [s | ]
    eqn:M.
  - apply truncated_bounds. apply (sentence_trim_nonempty txt).
    now apply matchingSentence_In in M.
  - destruct (matchG sentenceRegex txt) as [ | first l] eqn:S.
    + apply truncated_bounds. discriminate.
    + apply truncated_bounds. apply (sentence_trim_nonempty txt).
      rewrite S. now left.
Qed.

(** ** Where a match lies *)

Lemma searchFrom_located (r : regex) :
  forall s p b st e,
    searchFrom r p b s = Some (st, e) ->
    exists pre, s = pre ++ ahead st
                /\ pos st = (p + List.length pre)%nat.
Proof.
  induction s as [ | c s IH]; intros p b st e H; cbn [searchFrom] in H.
  - destruct (run r _ Some); [ | discriminate].
    injection H as <- <-. exists []. cbn. split; [reflexivity | lia].
  - destruct (run r _ Some).
    + injection H as <- <-. exists []. cbn. split; [reflexivity | lia].
    + apply IH in H. destruct H as (pre & -> & P). exists (c :: pre).
      cbn. split; [reflexivity | lia].
Qed.

(** A match of [matchAll] is a part of the text: [index] characters come
    before it. *)
Lemma matchAllFrom_located (r : regex) :
  forall fuel p b s m,
    In m (matchAllFrom r fuel p b s) ->
    exists st e pre post,
      Matches r st e /\ m = toMatch (st, e)
      /\ s = pre ++ whole m ++ post
      /\ index m = (p + List.length pre)%nat.
Proof.
  induction fuel as [ | f IH]; intros p b s m H; cbn [matchAllFrom] in H;
    [contradiction | ].
  destruct (searchFrom r p b s) as [[st e] | ] eqn:S; [ | contradiction].
  destruct (searchFrom_located _ _ _ _ _ _ S) as (pre & Es & Ps).
  apply searchFrom_sound in S. destruct S as (M & _ & _).
  destruct (Matches_consumes _ _ _ M) as (w & A & P & _).
  pose proof (whole_consumed st e w A P) as W.
  destruct H as [<- | H].
  - exists st, e, pre, (ahead e). rewrite W.
    split; [exact M | ]. split; [reflexivity | ].
    split; [now rewrite Es, A | exact Ps].
  - assert (T : exists st' e' pre' post',
               Matches r st' e' /\ m = toMatch (st', e')
               /\ ahead e = pre' ++ whole m ++ post'
               /\ (pos e <= index m)%nat
               /\ index m = (pos e + List.length pre')%nat).
    { destruct (pos st <? pos e).
      - apply IH in H. destruct H as (st' & e' & pre' & post' & H1 & H2 & H3 & H4).
        exists st', e', pre', post'. repeat split; auto. lia.
      - destruct (ahead e) as [ | c tl]; [contradiction | ].
        apply IH in H. destruct H as (st' & e' & pre' & post' & H1 & H2 & H3 & H4).
        exists st', e', (c :: pre'), post'. cbn. rewrite H3.
        repeat split; auto; lia. }
    destruct T as (st' & e' & pre' & post' & H1 & H2 & H3 & _ & H4).
    exists st', e', (pre ++ w ++ pre'), post'.
    split; [exact H1 | ]. split; [exact H2 | ].
    split.
    + rewrite Es, A, H3. now rewrite <- !app_assoc.
    + rewrite H4, P, Ps, !length_app. lia.
Qed.

Lemma boundary_match (st e : mstate) :
  Matches sentenceBoundary st e ->
  exists c w, whole (toMatch (st, e)) = c :: w /\ isTerminator c = true.
Proof.
  intros M.
  destruct (Matches_consumes _ _ _ M) as (w & A & P & _).
  rewrite (whole_consumed st e w A P).
  unfold sentenceBoundary in M.
  inversion M as [ | | a b s1 s2 s3 MA MB | | | | | | | | ]; subst.
  unfold oneOf in MA.
  inversion MA as [ | p s c tl Ac Pc | | | | | | | | | ]; subst.
  destruct (Matches_consumes _ _ _ MB) as (w2 & A2 & _ & _).
  cbn [ahead advance] in A2. rewrite Ac, A2 in A.
  exists c, w2. split; [ | exact Pc].
  change (c :: w2 ++ ahead e) with ((c :: w2) ++ ahead e) in A.
  now apply app_inv_tail in A.
Qed.

(** The boundary index cuts the text after a sentence terminator. *)
Lemma lastBoundaryIndex_cut (txt : jsstring) (k : nat) :
  lastBoundaryIndex txt = Some k ->
  exists pre c w post,
    txt = (pre ++ c :: w) ++ post
    /\ k = List.length (pre ++ c :: w)
    /\ isTerminator c = true.
Proof.
  unfold lastBoundaryIndex. intros H.
  destruct (rev (matchAll sentenceBoundary txt)) as [ | m l] eqn:R;
    [discriminate | ].
  injection H as <-.
  assert (I : In m (matchAll sentenceBoundary txt)).
  { apply in_rev. rewrite R. now left. }
  unfold matchAll in I. apply matchAllFrom_located in I.
  destruct I as (st & e & pre & post & M & E & S & X).
  destruct (boundary_match st e M) as (c & w & W & T).
  rewrite <- E in W. rewrite W in S.
  exists pre, c, w, post.
  split; [now rewrite <- app_assoc | ].
  split; [ | exact T].
  rewrite X, W, length_app. cbn. lia.
Qed.

Lemma dropWhile_length (p : ascii -> bool) (s : jsstring) :
  (List.length (dropWhile p s) <= List.length s)%nat.
Proof.
  induction s as [ | c s IH]; cbn; [lia | ].
  destruct (p c); cbn; lia.
Qed.

Lemma dropWhile_keeps (p : ascii -> bool) (s : jsstring) (c : ascii) :
  In c s -> p c = false -> In c (dropWhile p s).
Proof.
  induction s as [ | x s IH]; cbn; [tauto | ].
  intros [-> | H] P.
  - rewrite P. now left.
  - destruct (p x); [now apply IH | now right; exact H].
Qed.

Lemma trim_length (s : jsstring) :
  (List.length (trim s) <= List.length s)%nat.
Proof.
  unfold trim, trimEnd, trimStart. rewrite length_rev.
  eapply Nat.le_trans; [apply dropWhile_length | ].
  rewrite length_rev. apply dropWhile_length.
Qed.

Lemma trim_keeps (s : jsstring) (c : ascii) :
  In c s -> isSpace c = false -> In c (trim s).
Proof.
  intros H P. unfold trim, trimEnd, trimStart.
  apply -> in_rev. apply dropWhile_keeps; [ | exact P].
  apply -> in_rev. now apply dropWhile_keeps.
Qed.

(** The text cut at a boundary index is not empty once trimmed, and not
    longer than the index. *)
Lemma cut_at_boundary (txt : jsstring) (k : nat) :
  lastBoundaryIndex txt = Some k ->
  (1 <= List.length (trim (substring txt 0 k)) <= k)%nat
  /\ (k <= List.length txt)%nat.
Proof.
  intros H. apply lastBoundaryIndex_cut in H.
  destruct H as (pre & c & w & post & -> & -> & T).
  unfold substring. cbn [skipn]. rewrite Nat.sub_0_r.
  replace (List.length (pre ++ c :: w))
    with (List.length (pre ++ c :: w) + 0)%nat at 1 2 by lia.
  rewrite firstn_app_2. cbn [firstn]. rewrite app_nil_r.
  split; [ | rewrite !length_app; lia].
  split; [ | apply trim_length].
  assert (I : In c (trim (pre ++ c :: w))).
  { apply trim_keeps; [ | now apply isTerminator_not_space].
    apply in_or_app. right. now left. }
  destruct (trim (pre ++ c :: w)); [contradiction | cbn; lia].
Qed.

Lemma ofNat_le (a b : nat) : (a <= b)%nat -> ofNat a <= ofNat b.
Proof. intros H. unfold ofNat. rewrite <- Zle_Qle. lia. Qed.

Lemma ofNat_pos (a : nat) : (1 <= a)%nat -> 0 < ofNat a.
Proof.
  intros H. unfold ofNat. change 0 with (inject_Z 0). rewrite <- Zlt_Qlt. lia.
Qed.

(** X19.  When [identifyClips] cuts the text of a clip back to its last
    sentence boundary, the time span does not shrink with it: the start is
    kept, and for a clip of a duration of 0 or more the new duration is not
    below the old one and the new end not before the old one, while the
    text is not longer than before. *)
Theorem trimToSentence_never_shortens (c : Current) :
  0 <= c_duration c ->
  c_start (trimToSentence c) = c_start c
  /\ c_duration c <= c_duration (trimToSentence c)
  /\ (c_end c == c_start c + c_duration c ->
      c_end c <= c_end (trimToSentence c))
  /\ (List.length (c_text (trimToSentence c)) <= List.length (c_text c))%nat.
Proof.
  intros D. unfold trimToSentence.
  destruct (test terminatorAtEnd (trim (c_text c)));
    [repeat split; try lra; try lia; intros ->; lra | ].
  destruct (lastBoundaryIndex (c_text c)) as [k | ] eqn:B;
    [ | repeat split; try lra; try lia; intros ->; lra].
  destruct (cut_at_boundary _ _ B) as ((L1 & L2) & L3).
  cbn [c_start c_duration c_end c_text].
  set (n := List.length (trim (substring (c_text c) 0 k))) in *.
  assert (R : 1 <= ofNat k / ofNat n).
  { apply Qle_shift_div_l; [now apply ofNat_pos | ].
    rewrite Qmult_1_l. now apply ofNat_le. }
  revert R. generalize (ofNat k / ofNat n). intros ratio R.
  split; [reflexivity | ].
  split; [nra | ].
  split; [intros E; rewrite E; nra | lia].
Qed.

Lemma trimToSentence_never_shortens_witness :
  c_duration (mkCurrent 0 10 (str "One. Two. And then") 10)
  <= c_duration (trimToSentence (mkCurrent 0 10 (str "One. Two. And then") 10)).
Proof.
  refine (proj1 (proj2 (trimToSentence_never_shortens
                          (mkCurrent 0 10 (str "One. Two. And then") 10) _))).
  cbn. lra.
Defined.

(** ** The size of the mix before the cut *)

Lemma share_bound (len R : nat) :
  (1 <= R)%nat ->
  ((Z.of_nat (Nat.min len (ceil (ofNat CLIPS_FOR_AI * 0.5
                                 * (ofNat len / ofNat R)))) - 1)
   * Z.of_nat R < 30 * Z.of_nat len)%Z.
Proof.
  intros HR. unfold ceil, CLIPS_FOR_AI.
  set (x := ofNat 60 * 0.5 * (ofNat len / ofNat R)).
  pose proof (Qceiling_lt x) as L.
  assert (E : x * ofNat R == 30 * ofNat len).
  { subst x. unfold ofNat.
    assert (P : ~ inject_Z (Z.of_nat R) == 0).
    { intros Z0. apply (Qeq_bool_neq (inject_Z (Z.of_nat R)) 0); [ | exact Z0].
      unfold Qeq_bool. cbn. rewrite Z.mul_1_r.
      apply Z.eqb_neq. lia. }
    change (inject_Z (Z.of_nat 60)) with 60. field. exact P. }
  assert (P : 0 < ofNat R) by (now apply ofNat_pos).
  assert (M : inject_Z (Qceiling x - 1) * ofNat R < 30 * ofNat len).
  { rewrite <- E. apply Qmult_lt_compat_r; assumption. }
  unfold ofNat in M.
  change 30 with (inject_Z 30) in M.
  rewrite <- !inject_Z_mult, <- Zlt_Qlt in M.
  destruct (Z.le_gt_cases (Qceiling x) 0) as [N | N].
  - replace (Z.to_nat (Qceiling x)) with 0%nat by lia.
    rewrite Nat.min_0_r. lia.
  - assert (B : (Z.of_nat (Nat.min len (Z.to_nat (Qceiling x)))
                 <= Qceiling x)%Z) by lia.
    nia.
Qed.

Lemma bucketContribution_length (remainingClips : list Clip) (k : nat) :
  List.length (bucketContribution remainingClips k)
  = Nat.min (List.length (filter (inPoolBucket k) remainingClips))
            (ceil (ofNat CLIPS_FOR_AI * 0.5
                   * (ofNat (List.length
                               (filter (inPoolBucket k) remainingClips))
                      / ofNat (List.length remainingClips)))).
Proof.
  rewrite bucketContribution_firstn, length_firstn, sortBy_length. lia.
Qed.

Lemma buckets_within (remainingClips : list Clip) :
  (List.length (filter (inPoolBucket 0) remainingClips)
   + List.length (filter (inPoolBucket 1) remainingClips)
   + List.length (filter (inPoolBucket 2) remainingClips)
   + List.length (filter (inPoolBucket 3) remainingClips)
   <= List.length remainingClips)%nat.
Proof.
  pose proof (classes_perm Clip nat inPoolBucket (seq 0 4) (seq_NoDup 4 0)
                inPoolBucket_exclusive remainingClips) as P.
  apply Permutation_length in P. cbn [seq flat_map] in P.
  rewrite !length_app in P. cbn [List.length] in P. lia.
Qed.

(** X20.  Before the cut to 60 the mix of the text path holds at most 63
    clips: the 30 best of more than 60 candidates, and at most 33 from the
    four duration buckets of the others. *)
Theorem balancedMix_size (validatedClips : list Clip) :
  (List.length (balancedMix validatedClips) <= 63)%nat
  /\ ((List.length validatedClips <= 60)%nat ->
      List.length (balancedMix validatedClips) = List.length validatedClips).
Proof.
  unfold balancedMix. rewrite sortBy_length.
  destruct (CLIPS_FOR_AI <? List.length validatedClips)%nat eqn:B.
  - apply Nat.ltb_lt in B. unfold CLIPS_FOR_AI in B. split; [ | lia].
    change (floor (ofNat CLIPS_FOR_AI * 0.5)) with 30%nat.
    set (sorted := sortBy byQuality validatedClips).
    assert (LS : List.length sorted = List.length validatedClips)
      by apply sortBy_length.
    set (R := skipn 30 sorted).
    assert (LR : (1 <= List.length R)%nat).
    { subst R. rewrite length_skipn. lia. }
    rewrite length_app, length_firstn. cbn [seq flat_map].
    rewrite !length_app, !bucketContribution_length. cbn [List.length].
    pose proof (buckets_within R) as W.
    pose proof (share_bound (List.length (filter (inPoolBucket 0) R)) _ LR)
      as S0.
    pose proof (share_bound (List.length (filter (inPoolBucket 1) R)) _ LR)
      as S1.
    pose proof (share_bound (List.length (filter (inPoolBucket 2) R)) _ LR)
      as S2.
    pose proof (share_bound (List.length (filter (inPoolBucket 3) R)) _ LR)
      as S3.
    revert S0 S1 S2 S3.
    generalize (Nat.min (List.length (filter (inPoolBucket 0) R))
                  (ceil (ofNat CLIPS_FOR_AI * 0.5
                         * (ofNat (List.length (filter (inPoolBucket 0) R))
                            / ofNat (List.length R))))).
    generalize (Nat.min (List.length (filter (inPoolBucket 1) R))
                  (ceil (ofNat CLIPS_FOR_AI * 0.5
                         * (ofNat (List.length (filter (inPoolBucket 1) R))
                            / ofNat (List.length R))))).
    generalize (Nat.min (List.length (filter (inPoolBucket 2) R))
                  (ceil (ofNat CLIPS_FOR_AI * 0.5
                         * (ofNat (List.length (filter (inPoolBucket 2) R))
                            / ofNat (List.length R))))).
    generalize (Nat.min (List.length (filter (inPoolBucket 3) R))
                  (ceil (ofNat CLIPS_FOR_AI * 0.5
                         * (ofNat (List.length (filter (inPoolBucket 3) R))
                            / ofNat (List.length R))))).
    revert W LR.
    generalize (List.length (filter (inPoolBucket 0) R))
               (List.length (filter (inPoolBucket 1) R))
               (List.length (filter (inPoolBucket 2) R))
               (List.length (filter (inPoolBucket 3) R))
               (List.length R).
    intros l0 l1 l2 l3 r W LR c3 c2 c1 c0 S0 S1 S2 S3.
    assert (T : ((Z.of_nat c0 + Z.of_nat c1 + Z.of_nat c2 + Z.of_nat c3 - 4)
                 * Z.of_nat r < 30 * Z.of_nat r)%Z) by nia.
    assert (U : (Z.of_nat c0 + Z.of_nat c1 + Z.of_nat c2 + Z.of_nat c3 - 4
                 < 30)%Z) by nia.
    lia.
  - apply Nat.ltb_ge in B. unfold CLIPS_FOR_AI in B.
    rewrite sortBy_length. split; lia.
Qed.

(** ** The span of the candidates of the utterance path *)

Lemma boundary_ratio (txt : jsstring) (k : nat) :
  lastBoundaryIndex txt = Some k ->
  0 <= ofNat k / ofNat (List.length txt)
  /\ ofNat k / ofNat (List.length txt) <= 1.
Proof.
  intros H. destruct (cut_at_boundary _ _ H) as ((L1 & L2) & L3).
  assert (P : 0 < ofNat (List.length txt)) by (apply ofNat_pos; lia).
  split.
  - apply Qle_shift_div_l; [exact P | ].
    rewrite Qmult_0_l. change 0 with (ofNat 0). apply ofNat_le. lia.
  - apply Qle_shift_div_r; [exact P | ].
    rewrite Qmult_1_l. now apply ofNat_le.
Qed.

Lemma windowLoop_span (windowStart : Q) :
  forall rest wu windowEnd acc,
    Forall wellTimed rest ->
    Forall (fun c => duration c <= 60) acc ->
    Forall (fun c => duration c <= 60)
           (windowLoop windowStart rest wu windowEnd acc).
Proof.
  induction rest as [ | u rest IH]; intros wu windowEnd acc W Hacc;
    cbn [windowLoop]; [exact Hacc | ].
  inversion W as [ | x l Wu Wrest]; subst.
  destruct (gtb (u_end u / 1000 - windowStart) 60) eqn:G; [exact Hacc | ].
  apply gtb_le in G.
  cbv zeta.
  destruct (geb (u_end u / 1000 - windowStart) 5); [ | now apply IH].
  match goal with
  | |- Forall _ (windowLoop _ _ (fst ?p) (snd ?p) _) =>
      assert (E : snd p <= u_end u / 1000); [ | revert E; generalize p]
  end.
  { destruct (negb _ && _); [ | cbn [snd]; lra].
    destruct (lastBoundaryIndex (trim (u_text u))) as [k | ] eqn:B;
      cbn [snd].
    - destruct (boundary_ratio _ _ B) as (R0 & R1).
      revert R0 R1.
      generalize (ofNat k / ofNat (List.length (trim (u_text u)))).
      intros ratio R0 R1. unfold wellTimed in Wu. revert Wu.
      generalize (u_start u) (u_end u). intros s e Wu.
      unfold Qdiv. change (/ 1000) with (1 # 1000).
      assert (D0 : 0 <= (e - s) * (1 # 1000)) by lra.
      assert (M : (e - s) * (1 # 1000) * ratio <= (e - s) * (1 # 1000)).
      { revert D0. generalize ((e - s) * (1 # 1000)). intros d D0. nra. }
      revert M. generalize ((e - s) * (1 # 1000) * ratio).
      intros x M. lra.
    - unfold wellTimed in Wu. revert Wu.
      generalize (u_start u) (u_end u). intros s e Wu.
      unfold Qdiv. change (/ 1000) with (1 # 1000). lra. }
  intros [wu' windowEnd'] E. cbn [fst snd] in *. apply IH; [exact Wrest | ].
  destruct (geb (windowEnd' - windowStart) 5); [ | exact Hacc].
  apply Forall_app. split; [exact Hacc | ].
  constructor; [ | constructor].
  unfold windowCandidate, candidate. cbn [duration]. lra.
Qed.

Lemma singleCandidate_span (u : Utterance) (clip : Clip) :
  singleCandidate u = Some clip -> duration clip <= 60.
Proof.
  unfold singleCandidate. intros H.
  destruct (geb _ 5 && leb _ 60) eqn:G; [ | discriminate].
  apply andb_true_iff in G. destruct G as (G5 & G60). bool_to_Q.
  destruct (10 <=? _)%nat; [ | discriminate].
  cbv zeta in H.
  destruct (1 <=? _)%nat; [ | discriminate].
  revert H.
  match goal with
  | |- context [geb (fst ?p - _) 5] =>
      assert (E : fst p - u_start u / 1000 <= 60);
      [ | revert E; generalize p]
  end.
  { destruct (negb _); [ | cbn [fst]; unfold Qdiv in *; lra].
    destruct (lastBoundaryIndex (u_text u)) as [k | ] eqn:B; cbn [fst];
      [ | unfold Qdiv in *; lra].
    destruct (boundary_ratio _ _ B) as (R0 & R1).
    revert R0 R1. generalize (ofNat k / ofNat (List.length (u_text u))).
    intros ratio R0 R1. revert G5 G60.
    generalize ((u_end u - u_start u) / 1000) (u_start u / 1000).
    intros d s G5 G60. nra. }
  intros [adjustedEndTime adjustedText] E. cbn [fst snd] in *.
  destruct (geb _ 5); [ | discriminate].
  intros H. inversion H; subst; clear H. exact E.
Qed.

Lemma In_skipn_first (A : Type) (l : list A) (i : nat) (x : A) (tl : list A) :
  skipn i l = x :: tl -> In x l.
Proof.
  intros H. apply (In_skipn_list A i). rewrite H. now left.
Qed.

Lemma Forall_skipn (A : Type) (P : A -> Prop) (l : list A) (i : nat) :
  Forall P l -> Forall P (skipn i l).
Proof.
  intros H. apply Forall_forall. intros x Hx.
  rewrite Forall_forall in H. apply H. now apply In_skipn_list in Hx.
Qed.

(** X21.  Every candidate of the utterance path starts with an utterance
    of the transcript; and when no utterance ends before it starts, every
    candidate lasts at most 60 seconds. *)
Theorem utterance_candidates_span (utterances : list Utterance)
  (clip : Clip) :
  In clip (utterancePotentialClips utterances) ->
  (exists u, In u utterances /\ start clip = u_start u / 1000)
  /\ (Forall wellTimed utterances -> duration clip <= 60).
Proof.
  intros H. unfold utterancePotentialClips in H.
  apply in_flat_map in H. destruct H as (i & _ & H).
  destruct (skipn i utterances) as [ | first rest] eqn:S; [contradiction | ].
  unfold windowsFrom in H. split.
  - exists first. split; [now apply In_skipn_first in S | ].
    apply in_app_or in H. destruct H as [H | H].
    + assert (F : Forall (fun c => start c = u_start first / 1000)
                         (windowLoop (u_start first / 1000) (first :: rest)
                            [] (u_start first / 1000) [])).
      { apply windowLoop_all; [ | constructor]. reflexivity. }
      rewrite Forall_forall in F. now apply F.
    + destruct (singleCandidate first) as [c | ] eqn:C; [ | contradiction].
      destruct H as [<- | []]. revert C. unfold singleCandidate.
      destruct (geb _ 5 && leb _ 60); [ | discriminate].
      destruct (10 <=? _)%nat; [ | discriminate].
      cbv zeta.
      destruct (1 <=? _)%nat; [ | discriminate].
      match goal with
      | |- context [geb (fst ?p - _) 5] => generalize p
      end.
      intros [adjustedEndTime adjustedText]. cbn [fst snd].
      destruct (geb _ 5); [ | discriminate].
      intros C. now injection C as <-.
  - intros W. apply in_app_or in H. destruct H as [H | H].
    + assert (F : Forall (fun c => duration c <= 60)
                         (windowLoop (u_start first / 1000) (first :: rest)
                            [] (u_start first / 1000) [])).
      { apply windowLoop_span; [ | constructor].
        rewrite <- S. now apply Forall_skipn. }
      rewrite Forall_forall in F. now apply F.
    + destruct (singleCandidate first) as [c | ] eqn:C; [ | contradiction].
      destruct H as [<- | []]. now apply singleCandidate_span in C.
Qed.

Lemma utterance_candidates_span_witness :
  exists clip,
    In clip (utterancePotentialClips [longUtterance])
    /\ (exists u, In u [longUtterance] /\ start clip = u_start u / 1000)
    /\ duration clip <= 60.
Proof.
  assert (I : In (hd scenarioClip (utterancePotentialClips [longUtterance]))
                 (utterancePotentialClips [longUtterance])).
  { vm_compute. left. reflexivity. }
  eexists. split; [exact I | ].
  destruct (utterance_candidates_span [longUtterance] _ I) as (A & B).
  split; [exact A | ]. apply B.
  constructor; [ | constructor]. unfold wellTimed. cbn. lra.
Defined.

(** ** The fallback selects a candidate once *)

Lemma map_fst_numbered (A : Type) (l : list A) :
  forall n, map fst (combine (seq n (List.length l)) l) = seq n (List.length l).
Proof.
  induction l as [ | a l IH]; intros n; cbn; [reflexivity | ].
  now rewrite IH.
Qed.

Lemma scoreAll_positions (l : list Clip) : NoDup (map fst (scoreAll l)).
Proof.
  unfold scoreAll.
  rewrite <- (length_map scoreClip l), map_fst_numbered.
  apply seq_NoDup.
Qed.

Lemma inCategory_exclusive (j k : DurationCategory) (x : nat * Clip) :
  j <> k -> inCategory j x = true -> inCategory k x = false.
Proof.
  unfold inCategory. intros N H.
  destruct (durationCategory (snd x)) as [c | ]; [ | reflexivity].
  apply categoryEqb_eq in H. subst c.
  destruct (categoryEqb j k) eqn:E; [ | reflexivity].
  apply categoryEqb_eq in E. congruence.
Qed.

Lemma categories_NoDup : NoDup categories.
Proof.
  unfold categories.
  repeat (constructor; [cbn; intuition discriminate | ]). constructor.
Qed.

Lemma bucketPicks_sub (scoredClips : list (nat * Clip)) :
  exists rest, Permutation (bucketPicks scoredClips ++ rest) scoredClips.
Proof.
  unfold bucketPicks.
  exists (flat_map (fun cat => skipn 1 (clipsByDuration scoredClips cat))
                   categories
          ++ filter (fun x => negb (existsb (fun k => inCategory k x)
                                            categories))
                    scoredClips).
  rewrite app_assoc.
  eapply Permutation_trans;
    [ | symmetry;
        apply (classes_perm _ _ inCategory categories categories_NoDup
                 inCategory_exclusive scoredClips)].
  apply Permutation_app_tail.
  apply flat_map_split_perm. intros cat.
  rewrite firstn_skipn. unfold clipsByDuration. apply sortBy_perm.
Qed.

Lemma filter_positions :
  forall (T : Type) (keep : nat * T -> bool) (numbered : list (nat * T)),
    NoDup (map fst numbered) ->
    NoDup (map fst (filter keep numbered)).
Proof.
  intros T keep numbered. induction numbered as [ | c rest IH]; cbn.
  - intros _. constructor.
  - intros D. apply NoDup_cons_iff in D. destruct D as [Fresh D].
    destruct (keep c); cbn; [ | exact (IH D)].
    apply NoDup_cons_iff. split; [ | exact (IH D)].
    intros I. apply Fresh. apply in_map_iff in I.
    destruct I as (y & E & Hy). apply filter_In in Hy.
    apply in_map_iff. exists y. split; [exact E | exact (proj1 Hy)].
Qed.

Lemma topUp_positions :
  forall remainingClips selectedClips,
    NoDup (map fst selectedClips) ->
    NoDup (map fst remainingClips) ->
    (forall x, In x remainingClips ->
               ~ In (fst x) (map fst selectedClips)) ->
    NoDup (map fst (topUp selectedClips remainingClips)).
Proof.
  induction remainingClips as [ | c rest IH];
    intros selectedClips S R D; cbn [topUp]; [exact S | ].
  destruct (_ <? 5)%nat; [ | exact S].
  inversion R as [ | x t N R']; subst.
  destruct (existsb _ selectedClips).
  - apply IH; [exact S | exact R' | ].
    intros x Hx. apply D. now right.
  - apply IH; [ | exact R' | ].
    + rewrite map_app. cbn.
      apply NoDup_app; [exact S | constructor; [tauto | constructor] | ].
      intros a Ha. intros [<- | []]. apply (D c); [now left | exact Ha].
    + intros x Hx I. rewrite map_app in I. apply in_app_or in I.
      destruct I as [I | [I | []]].
      * apply (D x); [now right | exact I].
      * apply N. rewrite I. now apply in_map.
Qed.

Lemma isSelected_false (selectedClips : list (nat * Clip)) (x : nat * Clip) :
  isSelected selectedClips x = false ->
  ~ In (fst x) (map fst selectedClips).
Proof.
  unfold isSelected. intros H I. apply in_map_iff in I.
  destruct I as (s & E & Hs).
  assert (T : existsb (fun s => fst s =? fst x)%nat selectedClips = true).
  { apply existsb_exists. exists s. split; [exact Hs | ].
    now apply Nat.eqb_eq. }
  congruence.
Qed.

(** X22.  The fallback never selects a candidate twice: the positions in
    the pool of the clips it returns are all different. *)
Theorem fallback_selects_once (filteredClips : list Clip) :
  NoDup (map fst (fallbackSelected filteredClips))
  /\ fallbackClipSelection filteredClips
     = map snd (fallbackSelected filteredClips)
  /\ forall s, In s (fallbackSelected filteredClips) ->
               In s (scoreAll filteredClips).
Proof.
  assert (P : NoDup (map fst (bucketPicks (scoreAll filteredClips)))).
  { destruct (bucketPicks_sub (scoreAll filteredClips)) as (rest & P).
    pose proof (scoreAll_positions filteredClips) as N.
    rewrite <- P, map_app in N. now apply NoDup_app_remove_r in N. }
  split; [ | split; [reflexivity | ]].
  - unfold fallbackSelected.
    destruct filteredClips as [ | c0 l0]; [constructor | ].
    set (scored := scoreAll (c0 :: l0)) in *. cbv zeta.
    destruct (5 <? _)%nat.
    + apply (NoDup_app_remove_r _ (map fst (skipn 5
               (sortBy byFinalScore (bucketPicks scored))))).
      rewrite <- map_app, firstn_skipn.
      now rewrite (sortBy_perm _ byFinalScore).
    + destruct (_ <? 5)%nat; [ | exact P].
      apply topUp_positions; [exact P | | ].
      * rewrite (sortBy_perm _ byFinalScore).
        apply filter_positions. apply scoreAll_positions.
      * intros x Hx. apply sortBy_In in Hx. apply filter_In in Hx.
        destruct Hx as (_ & Hx). apply negb_true_iff in Hx.
        now apply isSelected_false.
  - intros s H.
    destruct (fallbackSelected_shape filteredClips) as (added & E & _ & A & _).
    rewrite E in H. apply in_app_or in H. destruct H as [H | H].
    + now apply In_bucketPicks.
    + now apply A.
Qed.

(** ** Letter case *)

Lemma allChars_all (c : ascii) : In c allChars.
Proof.
  unfold allChars. rewrite <- (ascii_nat_embedding c).
  apply in_map. apply in_seq. pose proof (nat_ascii_bounded c). lia.
Qed.

Lemma over_allChars (p : ascii -> bool) :
  forallb p allChars = true -> forall c, p c = true.
Proof.
  intros H c. rewrite forallb_forall in H. apply H. apply allChars_all.
Qed.

Lemma lowerChar_idem (c : ascii) : lowerChar (lowerChar c) = lowerChar c.
Proof.
  assert (H : forallb (fun c => eqChar (lowerChar (lowerChar c)) (lowerChar c))
                      allChars = true) by (vm_compute; reflexivity).
  apply eqChar_eq. apply (over_allChars _ H).
Qed.

Lemma lowerChar_word (c : ascii) : isWordChar (lowerChar c) = isWordChar c.
Proof.
  assert (H : forallb (fun c => Bool.eqb (isWordChar (lowerChar c))
                                         (isWordChar c))
                      allChars = true) by (vm_compute; reflexivity).
  apply eqb_prop. apply (over_allChars _ H).
Qed.

Lemma option_map_orElse (A B : Type) (f : A -> B) (x y : option A) :
  option_map f (orElse x y) = orElse (option_map f x) (option_map f y).
Proof. destruct x; reflexivity. Qed.

Lemma run_lower (r : regex) :
  caseBlind r = true ->
  forall st k k',
    (forall s, k' (lowerState s) = option_map lowerState (k s)) ->
    run r (lowerState st) k' = option_map lowerState (run r st k).
Proof.
  induction r as [ | p | a IHa b IHb | a IHa b IHb | g a IHa | n a IHa | | | ];
    intros C st k k' K; cbn [caseBlind] in C.
  - cbn. apply K.
  - cbn [run]. unfold lowerState at 1. cbn [ahead]. unfold toLowerCase.
    destruct (ahead st) as [ | c tl] eqn:E; [reflexivity | ].
    cbn [map].
    pose proof (over_allChars _ C c) as P. apply eqb_prop in P.
    rewrite P. destruct (p c); [ | reflexivity].
    rewrite <- (K (advance st c tl)). reflexivity.
  - apply andb_true_iff in C. destruct C as (Ca & Cb).
    cbn [run]. apply (IHa Ca). intros s. now apply (IHb Cb).
  - apply andb_true_iff in C. destruct C as (Ca & Cb).
    cbn [run]. rewrite option_map_orElse.
    now rewrite (IHa Ca st k k' K), (IHb Cb st k k' K).
  - cbn [run].
    replace (List.length (ahead (lowerState st)))
      with (List.length (ahead st))
      by (cbn; unfold toLowerCase; now rewrite length_map).
    generalize (List.length (ahead st)) as fuel.
    intros fuel. revert st.
    induction fuel as [ | f IHf]; intros st; [apply K | ].
    match goal with
    | |- ?L = option_map _ ?R =>
        let L' := eval cbv beta iota in L in
        let R' := eval cbv beta iota in R in
        change (L' = option_map lowerState R')
    end.
    cbv zeta.
    match goal with
    | |- context [run a (lowerState st) ?K'] =>
        match goal with
        | |- context [run a st ?K0] =>
            assert (A : run a (lowerState st) K'
                        = option_map lowerState (run a st K0))
        end
    end.
    { apply (IHa C). intros s. cbn [pos lowerState].
      destruct (pos st <? pos s); [apply IHf | reflexivity]. }
    rewrite A. destruct g; rewrite option_map_orElse; now rewrite K.
  - cbn [run]. apply (IHa C). intros s.
    replace (setCap n (lowerState st) (lowerState s))
      with (lowerState (setCap n st s)); [apply K | ].
    unfold setCap, lowerState. cbn. unfold toLowerCase.
    now rewrite firstn_map.
  - cbn. destruct (pos st =? 0)%nat; [apply K | reflexivity].
  - cbn [run lowerState ahead toLowerCase].
    destruct (ahead st); [apply K | reflexivity].
  - cbn [run lowerState ahead behind].
    replace (isWordOpt (option_map lowerChar (behind st)))
      with (isWordOpt (behind st))
      by (destruct (behind st); cbn; [now rewrite lowerChar_word | reflexivity]).
    replace (isWordOpt (hd_error (toLowerCase (ahead st))))
      with (isWordOpt (hd_error (ahead st)))
      by (destruct (ahead st); cbn; [reflexivity | now rewrite lowerChar_word]).
    destruct (xorb _ _); [apply K | reflexivity].
Qed.

Lemma searchFrom_lower (r : regex) :
  caseBlind r = true ->
  forall s p b,
    searchFrom r p (option_map lowerChar b) (toLowerCase s)
    = option_map (fun se => (lowerState (fst se), lowerState (snd se)))
                 (searchFrom r p b s).
Proof.
  intros C.
  assert (R : forall p b s,
             run r (MState p (option_map lowerChar b) (toLowerCase s) []) Some
             = option_map lowerState (run r (MState p b s []) Some)).
  { intros p b s. apply (run_lower r C (MState p b s []) Some Some).
    reflexivity. }
  induction s as [ | c s IH]; intros p b.
  - cbn [searchFrom toLowerCase map]. 
    change (@nil ascii) with (toLowerCase []) at 1. rewrite R.
    destruct (run r _ Some); reflexivity.
  - cbn [searchFrom toLowerCase map].
    change (lowerChar c :: map lowerChar s) with (toLowerCase (c :: s)) at 1.
    rewrite R. destruct (run r _ Some); [reflexivity | ].
    apply (IH (S p) (Some c)).
Qed.

Lemma test_lower (r : regex) (s : jsstring) :
  caseBlind r = true -> test r (toLowerCase s) = test r s.
Proof.
  intros C. unfold test.
  change (searchFrom r 0 None (toLowerCase s))
    with (searchFrom r 0 (option_map lowerChar None) (toLowerCase s)).
  rewrite (searchFrom_lower r C s 0 None).
  destruct (searchFrom r 0 None s); reflexivity.
Qed.

Lemma splitFrom_lower (r : regex) :
  caseBlind r = true ->
  forall fuel b acc s,
    splitFrom r fuel (option_map lowerChar b) (toLowerCase acc)
              (toLowerCase s)
    = map toLowerCase (splitFrom r fuel b acc s).
Proof.
  intros C.
  assert (R : forall b s,
             run r (MState 0 (option_map lowerChar b) (toLowerCase s) []) Some
             = option_map lowerState (run r (MState 0 b s []) Some)).
  { intros b s. apply (run_lower r C (MState 0 b s []) Some Some).
    reflexivity. }
  assert (V : forall acc, rev (toLowerCase acc) = toLowerCase (rev acc)).
  { intros acc. unfold toLowerCase. now rewrite map_rev. }
  induction fuel as [ | f IH]; intros b acc s; cbn [splitFrom].
  - cbn [map]. rewrite V. unfold toLowerCase. now rewrite map_app.
  - destruct s as [ | c tl].
    + cbn [toLowerCase map]. now rewrite V.
    + change (toLowerCase (c :: tl)) with (lowerChar c :: toLowerCase tl).
      cbv iota beta.
      change (lowerChar c :: toLowerCase tl) with (toLowerCase (c :: tl)).
      rewrite R.
      destruct (run r (MState 0 b (c :: tl) []) Some) as [e | ];
        cbn [option_map].
      * cbn [pos lowerState].
        destruct (0 <? pos e)%nat.
        -- cbn [map behind ahead]. rewrite V. f_equal.
           apply (IH (behind e) [] (ahead e)).
        -- apply (IH (Some c) (c :: acc) tl).
      * apply (IH (Some c) (c :: acc) tl).
Qed.

Lemma split_lower (r : regex) (s : jsstring) :
  caseBlind r = true ->
  split (toLowerCase s) r = map toLowerCase (split s r).
Proof.
  intros C. unfold split.
  replace (List.length (toLowerCase s)) with (List.length s)
    by (unfold toLowerCase; now rewrite length_map).
  apply (splitFrom_lower r C (S (List.length s)) None [] s).
Qed.

Lemma toLowerCase_idem (s : jsstring) :
  toLowerCase (toLowerCase s) = toLowerCase s.
Proof.
  unfold toLowerCase. rewrite map_map. apply map_ext. apply lowerChar_idem.
Qed.

Lemma join_lower (l : list jsstring) :
  toLowerCase (join (str " ") l)
  = join (str " ") (map toLowerCase l).
Proof.
  induction l as [ | x l IH]; [reflexivity | ].
  destruct l as [ | y l]; [reflexivity | ].
  change (join (str " ") (x :: y :: l))
    with (x ++ str " " ++ join (str " ") (y :: l)).
  change (join (str " ") (map toLowerCase (x :: y :: l)))
    with (toLowerCase x ++ str " "
          ++ join (str " ") (map toLowerCase (y :: l))).
  rewrite <- IH. unfold toLowerCase. now rewrite !map_app.
Qed.

Lemma phrasesOfLength_lower (ws : list jsstring) (n : nat) :
  phrasesOfLength (map toLowerCase ws) n = phrasesOfLength ws n.
Proof.
  unfold phrasesOfLength. rewrite length_map. apply map_ext. intros i.
  rewrite skipn_map, firstn_map, <- join_lower. apply toLowerCase_idem.
Qed.

Lemma findRepeatedPhrases_lower (txt : jsstring) :
  findRepeatedPhrases (toLowerCase txt) = findRepeatedPhrases txt.
Proof.
  unfold findRepeatedPhrases.
  rewrite split_lower by (vm_compute; reflexivity).
  cbv zeta. f_equal. apply flat_map_ext. intros n. unfold phraseCounts.
  now rewrite phrasesOfLength_lower.
Qed.

(** X23.  For a transcript of characters below U+0100, the strings of
    this development, the content type does not depend on the case of the
    letters: the transcript in lower case is classified as the transcript
    is.  (Beyond that range the two part: the Kelvin sign is no match of
    [k] under the [i] flag, and is [k] in lower case.) *)
Theorem detectContentType_ignores_case (txt : jsstring) :
  detectContentType (toLowerCase txt) = detectContentType txt.
Proof.
  unfold detectContentType.
  rewrite findRepeatedPhrases_lower.
  rewrite !test_lower by (vm_compute; reflexivity).
  reflexivity.
Qed.

(** ** The files of the clips *)

Lemma code_chr (n : N) : (n < 256)%N -> code (chr n) = n.
Proof. intros H. unfold code, chr. now apply N_ascii_embedding. Qed.

Lemma digitsAux_parse :
  forall fuel n acc,
    (n < 10 ^ N.of_nat fuel)%N ->
    parseInt (digitsAux fuel n acc)
    = fold_left (fun a c => (a * 10 + (code c - 48))%N) acc n.
Proof.
  induction fuel as [ | f IH]; intros n acc H.
  - change (10 ^ N.of_nat 0)%N with 1%N in H.
    assert (n = 0%N) by lia. now subst.
  - cbn [digitsAux].
    assert (M : (n mod 10 < 10)%N) by (apply N.mod_upper_bound; lia).
    assert (M' : (48 + n mod 10 < 256)%N).
    { revert M. generalize (n mod 10)%N. intros m M. lia. }
    destruct (n <? 10)%N eqn:E.
    + apply N.ltb_lt in E. unfold parseInt. cbn [fold_left].
      rewrite code_chr by exact M'. rewrite N.mod_small by exact E.
      f_equal. now rewrite (N.add_comm 48), N.add_sub.
    + apply N.ltb_ge in E. rewrite IH.
      * cbn [fold_left]. rewrite code_chr by exact M'.
        f_equal. rewrite (N.add_comm 48), N.add_sub, N.mul_comm.
        symmetry. apply N.div_mod'.
      * rewrite Nnat.Nat2N.inj_succ, N.pow_succ_r' in H.
        apply N.Div0.div_lt_upper_bound. exact H.
Qed.

Lemma parseInt_numToString (n : N) : parseInt (numToString n) = n.
Proof.
  unfold numToString.
  rewrite digitsAux_parse; [reflexivity | ].
  rewrite Nnat.Nat2N.inj_succ, Nnat.N2Nat.id.
  destruct n as [ | p]; [reflexivity | ].
  eapply N.lt_le_trans.
  - apply N.log2_spec. lia.
  - apply N.pow_le_mono_l. lia.
Qed.

Lemma digitsAux_digits :
  forall fuel n acc,
    Forall (fun c => isDigit c = true) acc ->
    Forall (fun c => isDigit c = true) (digitsAux fuel n acc).
Proof.
  induction fuel as [ | f IH]; intros n acc H; cbn [digitsAux]; [exact H | ].
  assert (M : (n mod 10 < 10)%N) by (apply N.mod_upper_bound; lia).
  assert (D : Forall (fun c => isDigit c = true)
                     (chr (48 + n mod 10) :: acc)).
  { constructor; [ | exact H]. unfold isDigit.
    revert M. generalize (n mod 10)%N. intros m M.
    rewrite code_chr by lia.
    apply andb_true_iff. split; apply N.leb_le; lia. }
  destruct (n <? 10)%N; [exact D | now apply IH].
Qed.

Lemma digitsAux_nonempty :
  forall fuel n acc, acc <> [] -> digitsAux fuel n acc <> [].
Proof.
  induction fuel as [ | f IH]; intros n acc H; cbn [digitsAux]; [exact H | ].
  destruct (n <? 10)%N; [discriminate | apply IH; discriminate].
Qed.

Lemma numToString_digits (n : N) :
  Forall (fun c => isDigit c = true) (numToString n) /\ numToString n <> [].
Proof.
  unfold numToString. split.
  - apply digitsAux_digits. constructor.
  - cbn [digitsAux]. destruct (n <? 10)%N; [discriminate | ].
    apply digitsAux_nonempty. discriminate.
Qed.

Lemma run_star_chr (p : ascii -> bool) (st : mstate)
  (k : mstate -> option mstate) :
  run (Star true (Chr p)) st k
  = match ahead st with
    | c :: tl =>
        if p c
        then orElse (run (Star true (Chr p)) (advance st c tl) k) (k st)
        else k st
    | [] => k st
    end.
Proof.
  destruct st as [n b s cs]. destruct s as [ | c tl]; [reflexivity | ].
  cbn [ahead]. cbn [run ahead List.length pos advance].
  destruct (p c); [ | reflexivity].
  assert (L : (n <? S n)%nat = true) by (apply Nat.ltb_lt; lia).
  rewrite L. reflexivity.
Qed.

Lemma run_digits_greedy (p : ascii -> bool) :
  forall ds n b rest cs k x,
    Forall (fun c => p c = true) ds ->
    match rest with c :: _ => p c = false | [] => True end ->
    k (MState (n + List.length ds) (behindAfter b ds) rest cs) = Some x ->
    run (Star true (Chr p)) (MState n b (ds ++ rest) cs) k = Some x.
Proof.
  induction ds as [ | d ds IH]; intros n b rest cs k x F R K.
  - rewrite run_star_chr. cbn [app ahead]. cbn in K.
    rewrite Nat.add_0_r in K.
    destruct rest as [ | c tl]; [exact K | ]. now rewrite R.
  - inversion F as [ | ? ? Pd F']; subst.
    rewrite run_star_chr. cbn [app ahead]. rewrite Pd.
    unfold advance. cbn [pos caps].
    rewrite (IH (S n) (Some d) rest cs k x F' R); [reflexivity | ].
    cbn [List.length] in K. rewrite Nat.add_succ_r in K. exact K.
Qed.

Lemma run_plus_digits (p : ascii -> bool) :
  forall ds n b rest cs k x,
    ds <> [] ->
    Forall (fun c => p c = true) ds ->
    match rest with c :: _ => p c = false | [] => True end ->
    k (MState (n + List.length ds) (behindAfter b ds) rest cs) = Some x ->
    run (plus (Chr p)) (MState n b (ds ++ rest) cs) k = Some x.
Proof.
  intros [ | d ds] n b rest cs k x N F R K; [now elim N | ].
  inversion F as [ | ? ? Pd F']; subst.
  unfold plus. cbn [run app ahead]. rewrite Pd. unfold advance. cbn [pos caps].
  apply run_digits_greedy; [exact F' | exact R | ].
  cbn [List.length] in K. rewrite Nat.add_succ_r in K. exact K.
Qed.

Lemma run_chars :
  forall w n b rest cs k,
    run (seqs (map (fun c => Chr (eqChar c)) w)) (MState n b (w ++ rest) cs) k
    = k (MState (n + List.length w) (behindAfter b w) rest cs).
Proof.
  induction w as [ | c w IH]; intros n b rest cs k.
  - cbn. now rewrite Nat.add_0_r.
  - assert (E : eqChar c c = true) by apply eqChar_refl.
    destruct w as [ | c' w'].
    + cbn [map seqs run app ahead]. rewrite E. unfold advance.
      cbn [pos caps List.length behindAfter fold_left].
      now rewrite Nat.add_1_r.
    + change (seqs (map (fun c => Chr (eqChar c)) (c :: c' :: w')))
        with (Seq (Chr (eqChar c))
                  (seqs (map (fun c => Chr (eqChar c)) (c' :: w')))).
      cbn [run app ahead]. rewrite E. unfold advance. cbn [pos caps].
      change (c' :: w' ++ rest) with ((c' :: w') ++ rest).
      rewrite IH. f_equal. f_equal. cbn [List.length]. lia.
Qed.

Lemma run_lit (s : string) n b rest cs k :
  run (lit s) (MState n b (str s ++ rest) cs) k
  = k (MState (n + List.length (str s)) (behindAfter b (str s)) rest cs).
Proof. apply run_chars. Qed.

Lemma firstn_read {A} (n : nat) (a b : list A) :
  firstn (n + List.length a - n) (a ++ b) = a.
Proof.
  replace (n + List.length a - n)%nat with (List.length a + 0)%nat by lia.
  rewrite firstn_app_2. cbn. apply app_nil_r.
Qed.

Lemma run_lit_end (s : string) n b cs k :
  run (lit s) (MState n b (str s) cs) k
  = k (MState (n + List.length (str s)) (behindAfter b (str s)) [] cs).
Proof.
  pose proof (run_lit s n b [] cs k) as H. now rewrite app_nil_r in H.
Qed.

Lemma searchFrom_first (r : regex) n b s e :
  run r (MState n b s []) Some = Some e ->
  searchFrom r n b s = Some (MState n b s [], e).
Proof. intros H. destruct s; cbn [searchFrom]; now rewrite H. Qed.

(** A name made of three runs of digits is read at once, and the groups
    are the second and the third run. *)
Lemma clipFileRegex_reads (T S E : jsstring) :
  let name :=
    str "clip_" ++ T ++ str "_" ++ S ++ str "_" ++ E ++ str ".mp4" in
  T <> [] -> S <> [] -> E <> [] ->
  Forall (fun c => isDigit c = true) T ->
  Forall (fun c => isDigit c = true) S ->
  Forall (fun c => isDigit c = true) E ->
  exec clipFileRegex name = Some (JsMatch name 0 [(2%nat, E); (1%nat, S)]).
Proof.
  intros name NT NS NE DT DS DE.
  assert (R : exists n b,
             run clipFileRegex (MState 0 None name []) Some
             = Some (MState n b [] [(2%nat, E); (1%nat, S)])
             /\ (List.length name <= n)%nat).
  { unfold clipFileRegex, name. cbn [seqs]. cbn [run].
    rewrite run_lit. do 2 eexists. split.
    - apply run_plus_digits; [exact NT | exact DT | reflexivity | ].
      rewrite run_lit.
      apply run_plus_digits; [exact NS | exact DS | reflexivity | ].
      unfold setCap. cbn [pos behind ahead caps].
      rewrite run_lit.
      apply run_plus_digits; [exact NE | exact DE | reflexivity | ].
      unfold setCap. cbn [pos behind ahead caps].
      rewrite run_lit_end. rewrite !firstn_read. reflexivity.
    - rewrite !length_app. lia. }
  destruct R as (n & b & R & L).
  unfold exec. rewrite (searchFrom_first _ _ _ _ _ R).
  cbn [option_map toMatch pos ahead caps].
  now rewrite Nat.sub_0_r, firstn_all2 by exact L.
Qed.

Lemma Qfloor_nonneg (x : Q) : 0 <= x -> (0 <= Qfloor x)%Z.
Proof. intros H. change 0%Z with (Qfloor 0). now apply Qfloor_resp_le. Qed.

Lemma intToString_nonneg (x : Q) :
  0 <= x -> intToString (Qfloor x) = numToString (Z.to_N (Qfloor x)).
Proof.
  intros H. apply Qfloor_nonneg in H. unfold intToString.
  destruct (Qfloor x <? 0)%Z eqn:E; [ | reflexivity].
  apply Z.ltb_lt in E. lia.
Qed.

(** The name of the file of a clip that does not start or end before 0 is
    read by the expression of [main], from its first character on. *)
Lemma clipName_exec (timestamp : N) (clipStart clipEnd : Q) :
  0 <= clipStart -> 0 <= clipEnd ->
  exec clipFileRegex (clipName timestamp clipStart clipEnd)
  = Some (JsMatch (clipName timestamp clipStart clipEnd) 0
            [(2%nat, numToString (Z.to_N (Qfloor clipEnd)));
             (1%nat, numToString (Z.to_N (Qfloor clipStart)))]).
Proof.
  intros HS HE. unfold clipName.
  rewrite (intToString_nonneg _ HS), (intToString_nonneg _ HE).
  apply clipFileRegex_reads; apply numToString_digits.
Qed.

Lemma find_first {A} (p : A -> bool) :
  forall l x,
    In x l -> p x = true ->
    exists before d after,
      l = before ++ d :: after /\ find p l = Some d /\ p d = true
      /\ Forall (fun y => p y = false) before.
Proof.
  induction l as [ | a l IH]; intros x I P; [contradiction | ].
  cbn [find]. destruct (p a) eqn:E.
  - exists [], a, l. repeat split; auto.
  - destruct I as [-> | I]; [congruence | ].
    destruct (IH x I P) as (before & d & after & -> & F & Pd & B).
    exists (a :: before), d, after. repeat split; auto.
Qed.

(** X24.  The name [generateClip] gives a clip file is read back by
    [main]: for a clip that starts and ends at 0 or later, with a time
    stamp and times below 10^21, the expression matches the whole name, and
    the numbers read are the start and the end of the clip rounded
    down. *)
Theorem clip_file_name_round_trip (timestamp : N) (clipStart clipEnd : Q) :
  0 <= clipStart -> 0 <= clipEnd ->
  (timestamp < 10 ^ 21)%N ->
  clipStart < inject_Z (10 ^ 21) -> clipEnd < inject_Z (10 ^ 21) ->
  exists m,
    exec clipFileRegex (clipName timestamp clipStart clipEnd) = Some m
    /\ index m = 0%nat
    /\ whole m = clipName timestamp clipStart clipEnd
    /\ Z.of_N (parseInt (captured m 1)) = Qfloor clipStart
    /\ Z.of_N (parseInt (captured m 2)) = Qfloor clipEnd.
Proof.
  intros HS HE _ _ _. eexists. split; [now apply clipName_exec | ].
  split; [reflexivity | ]. split; [reflexivity | ].
  unfold captured, group. cbn [groups lookupCap Nat.eqb].
  rewrite !parseInt_numToString.
  apply Qfloor_nonneg in HS, HE. split; apply Z2N.id; assumption.
Qed.

Lemma clip_file_name_round_trip_witness :
  exists m,
    exec clipFileRegex (clipName 1700000000000 (25 # 2) 40) = Some m
    /\ index m = 0%nat
    /\ whole m = clipName 1700000000000 (25 # 2) 40
    /\ Z.of_N (parseInt (captured m 1)) = Qfloor (25 # 2)
    /\ Z.of_N (parseInt (captured m 2)) = Qfloor 40.
Proof.
  apply (clip_file_name_round_trip 1700000000000 (25 # 2) 40);
    vm_compute; (reflexivity || discriminate).
Defined.

(** X25.  The summary of [main] finds details for the file of every saved
    clip that starts and ends at 0 or later: the first saved clip whose
    start, rounded down, is less than 5 from the one of the clip of the
    file, which need not be that clip. *)
Theorem clip_detail_found (timestamp : N) (clip : Clip)
  (clipsWithDetails : list Clip) :
  In clip clipsWithDetails ->
  0 <= start clip -> 0 <= end_ clip ->
  (timestamp < 10 ^ 21)%N ->
  start clip < inject_Z (10 ^ 21) -> end_ clip < inject_Z (10 ^ 21) ->
  exists before detail after,
    clipsWithDetails = before ++ detail :: after
    /\ clipDetailOf (clipName timestamp (start clip) (end_ clip))
                    clipsWithDetails
       = Some detail
    /\ (Z.abs (Qfloor (start detail) - Qfloor (start clip)) < 5)%Z
    /\ Forall (fun c =>
                 (5 <= Z.abs (Qfloor (start c) - Qfloor (start clip)))%Z)
              before.
Proof.
  intros I HS HE _ _ _.
  set (p := fun c : Clip =>
              (Z.abs (Qfloor (start c) - Qfloor (start clip)) <? 5)%Z).
  assert (P : p clip = true).
  { unfold p. rewrite Z.sub_diag. reflexivity. }
  destruct (find_first p _ _ I P) as (before & d & after & E & F & Pd & B).
  exists before, d, after. split; [exact E | ]. split; [ | split].
  - unfold clipDetailOf. rewrite (clipName_exec _ _ _ HS HE).
    assert (L : (0 <? List.length clipsWithDetails)%nat = true).
    { apply Nat.ltb_lt. destruct clipsWithDetails; [contradiction | ].
      cbn. lia. }
    rewrite L. unfold captured, group. cbn [groups lookupCap Nat.eqb].
    rewrite parseInt_numToString, Z2N.id by now apply Qfloor_nonneg.
    exact F.
  - apply Z.ltb_lt. exact Pd.
  - eapply Forall_impl; [ | exact B]. intros c Hc. cbv beta in Hc.
    apply Z.ltb_ge. exact Hc.
Qed.

Lemma clip_detail_found_witness :
  exists before detail after,
    [timedClip 10 30 None; timedClip (25 # 2) 40 None]
    = before ++ detail :: after
    /\ clipDetailOf
         (clipName 1700000000000
            (start (timedClip (25 # 2) 40 None))
            (end_ (timedClip (25 # 2) 40 None)))
         [timedClip 10 30 None; timedClip (25 # 2) 40 None]
       = Some detail
    /\ (Z.abs (Qfloor (start detail)
               - Qfloor (start (timedClip (25 # 2) 40 None))) < 5)%Z
    /\ Forall (fun c =>
                 (5 <= Z.abs (Qfloor (start c)
                              - Qfloor (start (timedClip (25 # 2) 40 None))))%Z)
              before.
Proof.
  apply (clip_detail_found 1700000000000 (timedClip (25 # 2) 40 None)
           [timedClip 10 30 None; timedClip (25 # 2) 40 None]);
    [right; left; reflexivity | | | | | ];
    vm_compute; (reflexivity || discriminate).
Defined.

Lemma Qfloor_unique (x : Q) (z : Z) :
  inject_Z z <= x -> x < inject_Z (z + 1) -> Qfloor x = z.
Proof.
  intros L U.
  pose proof (Qfloor_le x) as F. pose proof (Qlt_floor x) as G.
  assert (A : inject_Z z < inject_Z (Qfloor x + 1)) by lra.
  assert (B : inject_Z (Qfloor x) < inject_Z (z + 1)) by lra.
  rewrite <- Zlt_Qlt in A, B. lia.
Qed.

Lemma two_digits (n : nat) :
  (n < 60)%nat ->
  padStart 2 "0"%char (numToString (N.of_nat n))
  = [chr (48 + N.of_nat n / 10); chr (48 + N.of_nat n mod 10)].
Proof.
  intros H.
  do 60 (destruct n as [ | n]; [reflexivity | ]). lia.
Qed.

(** X26.  The duration the summary prints for a clip reads [M:SS]: for a
    duration of 0 or more, below 10^21, the seconds take two digits and are
    below 60, and 60 times the minutes plus the seconds is the duration
    rounded down. *)
Theorem formattedDuration_reads (durationSec : Q) :
  0 <= durationSec -> durationSec < inject_Z (10 ^ 21) ->
  exists minutes seconds : N,
    (seconds < 60)%N
    /\ Qfloor durationSec = Z.of_N (60 * minutes + seconds)
    /\ formattedDuration durationSec
       = numToString minutes ++ str ":"
         ++ [chr (48 + seconds / 10); chr (48 + seconds mod 10)].
Proof.
  intros H0 _.
  assert (D0 : 0 <= durationSec / 60).
  { unfold Qdiv. change (/ 60) with (1 # 60). lra. }
  set (m := Qfloor (durationSec / 60)).
  assert (M0 : (0 <= m)%Z) by now apply Qfloor_nonneg.
  pose proof (Qfloor_le (durationSec / 60)) as ML.
  pose proof (Qlt_floor (durationSec / 60)) as MU. fold m in ML, MU.
  rewrite inject_Z_plus in MU.
  assert (Dm : 60 * inject_Z m <= durationSec
               /\ durationSec < 60 * inject_Z m + 60).
  { revert ML MU. generalize (inject_Z m). intros im ML MU.
    unfold Qdiv in ML, MU. change (/ 60) with (1 # 60) in ML, MU.
    change (inject_Z 1) with 1 in MU. lra. }
  assert (R : remainder durationSec 60 == durationSec - 60 * inject_Z m).
  { unfold remainder. destruct (ltb (durationSec / 60) 0) eqn:E.
    - bool_to_Q. lra.
    - reflexivity. }
  set (s := Qfloor (remainder durationSec 60)).
  pose proof (Qfloor_le (remainder durationSec 60)) as SL.
  pose proof (Qlt_floor (remainder durationSec 60)) as SU. fold s in SL, SU.
  rewrite inject_Z_plus in SU. change (inject_Z 1) with 1 in SU.
  rewrite R in SL, SU.
  assert (S0 : (0 <= s < 60)%Z).
  { assert (A : inject_Z (-1) < inject_Z s).
    { change (inject_Z (-1)) with (-1 # 1). lra. }
    assert (B : inject_Z s < inject_Z 60).
    { change (inject_Z 60) with 60. lra. }
    rewrite <- Zlt_Qlt in A, B. lia. }
  exists (Z.to_N m), (Z.to_N s). split; [lia | ]. split.
  - replace (Z.of_N (60 * Z.to_N m + Z.to_N s)) with (60 * m + s)%Z by lia.
    apply Qfloor_unique.
    + rewrite inject_Z_plus, inject_Z_mult. change (inject_Z 60) with 60.
      lra.
    + rewrite !inject_Z_plus, inject_Z_mult. change (inject_Z 60) with 60.
      change (inject_Z 1) with 1. lra.
  - unfold formattedDuration. fold m. fold s. unfold intToString.
    destruct (m <? 0)%Z eqn:Em; [apply Z.ltb_lt in Em; lia | ].
    destruct (s <? 0)%Z eqn:Es; [apply Z.ltb_lt in Es; lia | ].
    f_equal. f_equal.
    rewrite <- (Nnat.N2Nat.id (Z.to_N s)). apply two_digits. lia.
Qed.

Lemma formattedDuration_reads_witness :
  exists minutes seconds : N,
    (seconds < 60)%N
    /\ Qfloor (1255 # 10) = Z.of_N (60 * minutes + seconds)
    /\ formattedDuration (1255 # 10)
       = numToString minutes ++ str ":"
         ++ [chr (48 + seconds / 10); chr (48 + seconds mod 10)].
Proof.
  apply (formattedDuration_reads (1255 # 10));
    vm_compute; (reflexivity || discriminate).
Defined.

(** X27.  Every clip [generateClips] hands to [generateClip] is a clip of
    its input that ends after it starts.  When it starts at 0 or later,
    the timing step of [generateClip] accepts it if it starts before the
    end of the video; a clip that starts exactly at the end of the video
    passes the filter of [generateClips] and is then refused. *)
Theorem generateClips_hands_over (clips : list Clip) (v : Q) (clip : Clip) :
  In clip (clipsToGenerate clips (Some v)) ->
  In clip clips
  /\ start clip < end_ clip
  /\ (0 <= start clip ->
      (start clip == v
       /\ clipTiming (start clip) (end_ clip) (Some v)
          = TimingError
              (str "Cannot generate clip: Clip start time is beyond video duration"))
      \/ (start clip < v
          /\ exists s e d,
               clipTiming (start clip) (end_ clip) (Some v) = TimingOk s e d)).
Proof.
  intros I.
  assert (F : In clip (filter (withinVideo (Some v)) (filter validClip clips))).
  { unfold clipsToGenerate in I.
    destruct (filter validClip clips); [contradiction | exact I]. }
  apply filter_In in F. destruct F as (F & W).
  apply filter_In in F. destruct F as (F & V).
  unfold validClip in V. unfold withinVideo in W.
  apply negb_true_iff in V, W. bool_to_Q.
  split; [exact F | ]. split; [lra | ]. intros H0.
  unfold clipTiming. destruct (geb (start clip) v) eqn:G; bool_to_Q.
  - left. split; [lra | reflexivity].
  - right. split; [lra | ].
    cbv zeta. unfold MIN_VIABLE_DURATION.
    generalize dependent (start clip). generalize dependent (end_ clip).
    intros en st V W H0 G.
    destruct (ltb (en - st) 6
              && ltb (Qmin v (en + Qmin 2.5 (Qmax 0.5 ((en - st) * 0.07)))
                      - Qmax 0 (st - Qmin 1.5 (Qmax 0.3 ((en - st) * 0.03))))
                     6.0) eqn:B.
    + match goal with
      | |- context [ltb ?x 6.0] => destruct (ltb x 6.0) eqn:B2
      end;
        match goal with
        | |- context [leb ?x 0] => destruct (leb x 0) eqn:B3
        end;
        [ exfalso | do 3 eexists; reflexivity
        | exfalso | do 3 eexists; reflexivity ];
        apply andb_true_iff in B; destruct B as (Ba & Bb);
        revert V W H0 G B2 B3 Ba Bb;
        minmax_intro; bool_to_Q; split_specs; lra.
    + match goal with
      | |- context [leb ?x 0] => destruct (leb x 0) eqn:B3
      end;
        [ exfalso | do 3 eexists; reflexivity ];
        revert V W H0 G B3; clear B;
        minmax_intro; bool_to_Q; split_specs; lra.
Qed.

Lemma generateClips_hands_over_witness :
  In (timedClip 100 110 None) [timedClip 100 110 None]
  /\ start (timedClip 100 110 None) < end_ (timedClip 100 110 None)
  /\ (0 <= start (timedClip 100 110 None) ->
      (start (timedClip 100 110 None) == 100
       /\ clipTiming (start (timedClip 100 110 None))
            (end_ (timedClip 100 110 None)) (Some 100)
          = TimingError
              (str "Cannot generate clip: Clip start time is beyond video duration"))
      \/ (start (timedClip 100 110 None) < 100
          /\ exists s e d,
               clipTiming (start (timedClip 100 110 None))
                 (end_ (timedClip 100 110 None)) (Some 100)
               = TimingOk s e d)).
Proof.
  apply (generateClips_hands_over [timedClip 100 110 None] 100
           (timedClip 100 110 None)).
  left. reflexivity.
Defined.
(** ** DiversitySelector: the buckets of the selection *)

Lemma startsWith_prefix (p s : jsstring) :
  startsWith p s = true <-> exists after, s = p ++ after.
Proof.
  revert s. induction p as [ | x p IH]; intros s; cbn [startsWith].
  - split; [intros _; now exists s | reflexivity].
  - destruct s as [ | y s].
    + split; [discriminate | intros (after & E); discriminate].
    + rewrite andb_true_iff, IH. split.
      * intros (E & after & ->). apply eqChar_eq in E. subst.
        now exists after.
      * intros (after & E). inversion E; subst.
        split; [apply eqChar_refl | now exists after].
Qed.

Lemma indexOfFrom_contains (p : jsstring) :
  forall s i,
    (exists n, indexOfFrom p s i = Some n) <-> Contains s p.
Proof.
  induction s as [ | c s IH]; intros i; cbn [indexOfFrom].
  - destruct (startsWith p []) eqn:SW.
    + split; [ | eauto]. intros _. apply startsWith_prefix in SW.
      destruct SW as (after & E). now exists [], after.
    + split; [intros (n & H); discriminate | ].
      intros (before & after & E).
      assert (startsWith p [] = true); [ | congruence].
      apply startsWith_prefix. destruct before; [ | discriminate].
      now exists after.
  - destruct (startsWith p (c :: s)) eqn:SW.
    + split; [ | eauto]. intros _. apply startsWith_prefix in SW.
      destruct SW as (after & E). now exists [], after.
    + rewrite (IH (S i)). split.
      * intros (before & after & ->). now exists (c :: before), after.
      * intros (before & after & E). destruct before as [ | b before].
        -- assert (startsWith p (c :: s) = true); [ | congruence].
           apply startsWith_prefix. now exists after.
        -- inversion E; subst. now exists before, after.
Qed.

Lemma includes_contains (s p : jsstring) :
  includes s p = true <-> Contains s p.
Proof.
  unfold includes, indexOf. rewrite <- (indexOfFrom_contains p s 0).
  destruct (indexOfFrom p s 0); split; eauto; try discriminate.
  intros (n & H). discriminate.
Qed.

(** The similarity test of the code is the one of the specification. *)
Lemma similarClips_spec (a b : Clip) :
  similarClips a b = true <-> NearDuplicates a b.
Proof.
  unfold similarClips, NearDuplicates, substring. cbv zeta.
  rewrite andb_true_iff, orb_true_iff, ltb_lt, !includes_contains.
  rewrite !Nat.sub_0_r. cbn [skipn]. reflexivity.
Qed.

Lemma NoNearDuplicates_code (l : list Clip) :
  NoNearDuplicates l -> NoSimilarPair l.
Proof.
  unfold NoNearDuplicates, NoSimilarPair.
  induction 1 as [ | a l Ha Hl IH]; constructor; [ | exact IH].
  eapply Forall_impl; [ | exact Ha]. intros b N. cbv beta in *.
  destruct (similarClips a b) eqn:S; [ | reflexivity].
  apply similarClips_spec in S. contradiction.
Qed.

(** The bucket the code puts a clip in is the bucket of the specification. *)
Lemma inBucketNo_spec (k : nat) (c : Clip) :
  inBucketNo k c = true <-> InBucket k (duration c).
Proof.
  unfold inBucketNo, bucketOf, durationBuckets. cbn [firstBucket].
  unfold inBucket. cbn [fst snd]. generalize (duration c). intros d.
  destruct (geb d 5 && leb d 10) eqn:B0.
  { apply andb_true_iff in B0. destruct B0. bool_to_Q.
    destruct k as [ | [ | [ | [ | [ | k]]]]]; cbn; split; intros;
      try discriminate; try reflexivity; try tauto; lra. }
  destruct (geb d 10 && leb d 15) eqn:B1.
  { apply andb_true_iff in B1. destruct B1.
    apply andb_false_iff in B0. bool_to_Q.
    destruct k as [ | [ | [ | [ | [ | k]]]]]; cbn; split; intros;
      try discriminate; try reflexivity; try tauto;
      destruct B0; bool_to_Q; lra. }
  destruct (geb d 15 && leb d 20) eqn:B2.
  { apply andb_true_iff in B2. destruct B2.
    apply andb_false_iff in B1. bool_to_Q.
    destruct k as [ | [ | [ | [ | [ | k]]]]]; cbn; split; intros;
      try discriminate; try reflexivity; try tauto;
      destruct B1; bool_to_Q; lra. }
  destruct (geb d 20 && leb d 30) eqn:B3.
  { apply andb_true_iff in B3. destruct B3.
    apply andb_false_iff in B2. bool_to_Q.
    destruct k as [ | [ | [ | [ | [ | k]]]]]; cbn; split; intros;
      try discriminate; try reflexivity; try tauto;
      destruct B2; bool_to_Q; lra. }
  destruct (geb d 30 && leb d 60) eqn:B4.
  { apply andb_true_iff in B4. destruct B4.
    apply andb_false_iff in B3. bool_to_Q.
    destruct k as [ | [ | [ | [ | [ | k]]]]]; cbn; split; intros;
      try discriminate; try reflexivity; try tauto;
      destruct B3; bool_to_Q; lra. }
  apply andb_false_iff in B0, B1, B2, B3, B4.
  split; [discriminate | ].
  destruct k as [ | [ | [ | [ | [ | k]]]]]; cbn; intros H;
    try contradiction;
    destruct B0, B1, B2, B3, B4; bool_to_Q; lra.
Qed.
Lemma heads_length (bs : list (list Clip)) :
  List.length (flat_map (firstn 1) bs)
  = List.length (filter (fun b => (0 <? List.length b)%nat) bs).
Proof.
  induction bs as [ | b bs IH]; cbn [flat_map filter]; [reflexivity | ].
  rewrite length_app, IH. destruct b; reflexivity.
Qed.

(** With fewer slots than buckets that are not empty, the buckets give
    their top clips, one each. *)
Lemma selectFromBuckets_heads (bs : list (list Clip)) (r : nat) :
  (r < List.length (filter (fun b => (0 <? List.length b)%nat) bs))%nat ->
  selectFromBuckets bs r = flat_map (firstn 1) bs.
Proof.
  intros H. unfold selectFromBuckets. cbv zeta.
  set (ne := List.length (filter _ bs)) in *.
  rewrite sum_lengths.
  assert (T : (0 <? 0 + List.length (List.concat bs))%nat = true).
  { apply Nat.ltb_lt.
    assert (L : (ne <= List.length (List.concat bs))%nat).
    { unfold ne. clear. induction bs as [ | b bs IH]; cbn; [lia | ].
      rewrite length_app. destruct b; cbn in *; lia. }
    lia. }
  rewrite T. rewrite (Nat.div_small r ne) by exact H.
  change (Nat.max 1 0) with 1%nat.
  rewrite heads_length. fold ne.
  assert (U : (ne <? r)%nat = false) by (apply Nat.ltb_ge; lia).
  now rewrite U.
Qed.

(** The top clips of the buckets, each with the number of its bucket: the
    numbers grow along the list. *)
Lemma heads_tagged (B : nat -> list Clip) :
  forall n a,
  exists hk : list (nat * Clip),
    map snd hk = flat_map (firstn 1) (map B (seq a n))
    /\ ForallOrdPairs lt (map fst hk)
    /\ forall k c, In (k, c) hk -> (a <= k)%nat /\ In c (B k).
Proof.
  induction n as [ | n IH]; intros a.
  - exists []. cbn. repeat split; [constructor | contradiction | contradiction].
  - destruct (IH (S a)) as (hk & E & S & I).
    cbn [seq map flat_map]. destruct (B a) as [ | h t] eqn:Ba.
    + exists hk. cbn [firstn app]. split; [exact E | split; [exact S | ]].
      intros k c H. destruct (I k c H). split; [lia | auto].
    + exists ((a, h) :: hk). cbn [firstn app map fst snd].
      split; [now rewrite E | split].
      * constructor; [ | exact S]. apply Forall_forall. intros k Hk.
        apply in_map_iff in Hk. destruct Hk as ([k' c] & <- & Hk).
        destruct (I k' c Hk). cbn. lia.
      * intros k c [H | H].
        -- inversion H; subst. split; [lia | ]. rewrite Ba. now left.
        -- destruct (I k c H). split; [lia | auto].
Qed.

(** The first three clips of three or more that lie in buckets of growing
    numbers lie in three different buckets. *)
Lemma three_heads (hk : list (nat * Clip)) (r : nat) :
  ForallOrdPairs lt (map fst hk) ->
  (3 <= r)%nat -> (3 <= List.length hk)%nat ->
  exists x1 x2 x3,
    (fst x1 < fst x2 < fst x3)%nat
    /\ In x1 (firstn r hk) /\ In x2 (firstn r hk) /\ In x3 (firstn r hk).
Proof.
  intros S R L.
  destruct hk as [ | x1 [ | x2 [ | x3 rest]]]; cbn in L; try lia.
  destruct r as [ | [ | [ | r]]]; try lia.
  exists x1, x2, x3. cbn [firstn map fst] in *.
  inversion S as [ | ? ? F1 S1]; subst.
  inversion S1 as [ | ? ? F2 S2]; subst.
  inversion F1; subst. inversion F2; subst.
  repeat split; cbn; auto.
Qed.

Lemma spansBucket_spec (l : list Clip) (k : nat) :
  spansBucket l k = true <-> exists c, In c l /\ InBucket k (duration c).
Proof.
  unfold spansBucket. rewrite existsb_exists. split.
  - intros (c & H & B). exists c. now rewrite <- inBucketNo_spec.
  - intros (c & H & B). exists c. now rewrite inBucketNo_spec.
Qed.

(** With a slot for every bucket that is not empty, the combined selection
    fits the limit. *)
Lemma combinedSelection_fits (scoredClips : list Clip) (maxClips : nat) :
  let preferred := preferredClips scoredClips maxClips in
  let topCount := ceil (ofNat maxClips * 0.2) in
  let remainingSlots := (maxClips - List.length (firstn topCount preferred))%nat in
  (1 <= maxClips)%nat ->
  (List.length (filter (fun b => (0 <? List.length b)%nat)
                  (sortedBuckets (skipn topCount preferred)))
   <= remainingSlots)%nat ->
  (List.length (combinedSelection scoredClips maxClips) <= maxClips)%nat.
Proof.
  intros preferred topCount remainingSlots M H.
  unfold combinedSelection. cbv zeta. fold preferred. fold topCount.
  rewrite length_app.
  pose proof (selectFromBuckets_length _ _ H) as L. fold remainingSlots.
  pose proof (ceil_fifth maxClips) as C. fold topCount in C.
  pose proof (firstn_le_length topCount preferred) as T.
  unfold remainingSlots in *. lia.
Qed.

(** From 4 clips on, the selection spans three buckets when the preferred
    clips do and none of them is a near-duplicate of another. *)
Lemma selection_spans_three (scoredClips : list Clip) (maxClips : nat) :
  (4 <= maxClips)%nat ->
  NoNearDuplicates (preferredClips scoredClips maxClips) ->
  SpansThree (preferredClips scoredClips maxClips) ->
  SpansThree (getDiverseClipSelectionWithDurations scoredClips maxClips).
Proof.
  intros M N S3.
  apply NoNearDuplicates_code in N.
  unfold getDiverseClipSelectionWithDurations. cbv zeta.
  destruct (combinedSelection_perm scoredClips maxClips) as (rest & P).
  assert (NC : NoSimilarPair (combinedSelection scoredClips maxClips)).
  { apply FOP_app_l with rest. eapply FOP_perm; [ | exact P | exact N].
    intros a b. cbv beta. now rewrite similarClips_sym. }
  rewrite (fold_pushUnique_all _ [] NC). cbn [app].
  set (preferred := preferredClips scoredClips maxClips) in *.
  set (topCount := ceil (ofNat maxClips * 0.2)).
  set (r := (maxClips - List.length (firstn topCount preferred))%nat).
  set (bs := sortedBuckets (skipn topCount preferred)).
  set (ne := List.length (filter (fun b => (0 <? List.length b)%nat) bs)).
  destruct (Nat.le_gt_cases ne r) as [Fit | Short].
  - (* every bucket has its slot: nothing is cut *)
    rewrite firstn_all2
      by (apply combinedSelection_fits; [lia | exact Fit]).
    destruct S3 as (k1 & k2 & k3 & c1 & c2 & c3 & K & I1 & I2 & I3
                    & B1 & B2 & B3).
    assert (Sp : forall k c, In c preferred -> InBucket k (duration c) ->
                 exists c', In c' (combinedSelection scoredClips maxClips)
                            /\ InBucket k (duration c')).
    { intros k c Hc Bc. apply spansBucket_spec.
      apply combinedSelection_spans. apply spansBucket_spec. eauto. }
    destruct (Sp k1 c1 I1 B1) as (d1 & D1 & E1).
    destruct (Sp k2 c2 I2 B2) as (d2 & D2 & E2).
    destruct (Sp k3 c3 I3 B3) as (d3 & D3 & E3).
    exists k1, k2, k3, d1, d2, d3. repeat split; auto; lia.
  - (* more buckets than slots: the first three top clips of the buckets *)
    pose proof (ceil_fifth maxClips) as C. fold topCount in C.
    pose proof (firstn_le_length topCount preferred) as T.
    assert (R3 : (3 <= r)%nat) by (unfold r; lia).
    unfold combinedSelection. cbv zeta. fold preferred. fold topCount.
    fold r. fold bs.
    rewrite (selectFromBuckets_heads bs r Short).
    rewrite firstn_app.
    replace (maxClips - List.length (firstn topCount preferred))%nat
      with r by reflexivity.
    unfold bs, sortedBuckets.
    destruct (heads_tagged
                (fun k => sortBy byQuality
                            (filter (inBucketNo k) (skipn topCount preferred)))
                (List.length durationBuckets) 0) as (hk & E & Srt & I).
    rewrite <- E.
    assert (L : (3 <= List.length hk)%nat).
    { assert (List.length hk = ne).
      { rewrite <- (length_map snd), E. unfold ne, bs, sortedBuckets.
        apply heads_length. }
      lia. }
    destruct (three_heads hk r Srt R3 L)
      as ([k1 c1] & [k2 c2] & [k3 c3] & K & I1 & I2 & I3).
    cbn [fst] in K.
    assert (In_sel : forall k c, In (k, c) (firstn r hk) ->
              In c (firstn maxClips (firstn topCount preferred)
                    ++ firstn r (map snd hk))
              /\ InBucket k (duration c)).
    { intros k c H. split.
      - apply in_or_app. right. rewrite firstn_map.
        apply in_map_iff. exists (k, c). auto.
      - apply In_firstn_list in H. destruct (I k c H) as (_ & Hc).
        apply sortBy_In, filter_In in Hc. apply inBucketNo_spec. tauto. }
    destruct (In_sel k1 c1 I1), (In_sel k2 c2 I2), (In_sel k3 c3 I3).
    exists k1, k2, k3, c1, c2, c3. repeat split; auto; lia.
Qed.
Lemma NoSimilarPair_spec (l : list Clip) :
  NoSimilarPair l -> NoNearDuplicates l.
Proof.
  unfold NoNearDuplicates, NoSimilarPair.
  induction 1 as [ | a l Ha Hl IH]; constructor; [ | exact IH].
  eapply Forall_impl; [ | exact Ha]. intros b S N. cbv beta in *.
  apply similarClips_spec in N. congruence.
Qed.

(** Three clips in three different buckets make three spanned buckets. *)
Lemma SpansThree_count (l : list Clip) :
  SpansThree l -> (3 <= bucketsSpanned l)%nat.
Proof.
  intros (k1 & k2 & k3 & c1 & c2 & c3 & K & I1 & I2 & I3 & B1 & B2 & B3).
  assert (S1 : spansBucket l k1 = true) by (apply spansBucket_spec; eauto).
  assert (S2 : spansBucket l k2 = true) by (apply spansBucket_spec; eauto).
  assert (S3 : spansBucket l k3 = true) by (apply spansBucket_spec; eauto).
  assert (L3 : (k3 < 5)%nat).
  { destruct k3 as [ | [ | [ | [ | [ | k]]]]]; try lia. contradiction. }
  unfold bucketsSpanned. change (List.length durationBuckets) with 5%nat.
  cbn [seq filter]. clear - K L3 S1 S2 S3.
  destruct k3 as [ | [ | [ | [ | [ | k3]]]]]; try lia;
    destruct k2 as [ | [ | [ | [ | k2]]]]; try lia;
    destruct k1 as [ | [ | [ | k1]]]; try lia;
    rewrite S1, S2, S3;
    repeat match goal with
      | |- context [if spansBucket l ?k then _ else _] =>
          destruct (spansBucket l k)
      end; cbn; lia.
Qed.

(** The preferred clips are the clips that end on a complete sentence when
    they are at least half of [maxClips], and the whole pool otherwise. *)
Lemma preferredClips_spec (scoredClips : list Clip) (maxClips : nat) :
  let complete := filter isComplete scoredClips in
  ((maxClips <= 2 * List.length complete)%nat ->
   preferredClips scoredClips maxClips = complete)
  /\ ((2 * List.length complete < maxClips)%nat ->
      preferredClips scoredClips maxClips = scoredClips).
Proof.
  intros complete. unfold preferredClips. cbv zeta. fold complete.
  set (n := List.length complete).
  assert (C : (ceil (ofNat maxClips * 0.5) <= n)%nat
              <-> (maxClips <= 2 * n)%nat).
  { unfold ceil, ofNat.
    pose proof (Qle_ceiling (inject_Z (Z.of_nat maxClips) * 0.5)) as U.
    pose proof (Qceiling_lt (inject_Z (Z.of_nat maxClips) * 0.5)) as L.
    set (c := Qceiling _) in *. clearbody c.
    assert (U' : inject_Z (Z.of_nat maxClips) <= inject_Z (2 * c)).
    { rewrite inject_Z_mult. change (inject_Z 2) with 2.
      revert U. generalize (inject_Z c) (inject_Z (Z.of_nat maxClips)).
      intros a b U. lra. }
    assert (L' : inject_Z (2 * (c - 1)) < inject_Z (Z.of_nat maxClips)).
    { rewrite inject_Z_mult. change (inject_Z 2) with 2.
      revert L. generalize (inject_Z (c - 1)) (inject_Z (Z.of_nat maxClips)).
      intros a b L. lra. }
    rewrite <- Zle_Qle in U'. rewrite <- Zlt_Qlt in L'. lia. }
  destruct (_ <=? n)%nat eqn:E;
    [apply Nat.leb_le in E | apply Nat.leb_gt in E]; split; intros H;
    try reflexivity; exfalso; lia.
Qed.

(** C7, as the code has it.  The selection never has more than [maxClips]
    clips and holds clips of the pool only.  The buckets are kept with
    respect to the preferred clips, which are the complete-sentence clips
    when these are at least half of [maxClips] and the whole pool
    otherwise: from [maxClips] 4 on, when no preferred clip is a
    near-duplicate of another, the selection spans three buckets or more
    whenever the preferred clips do. *)
Theorem diverse_selection_properties (scoredClips : list Clip)
  (maxClips : nat) :
  (List.length (getDiverseClipSelectionWithDurations scoredClips maxClips)
   <= maxClips)%nat
  /\ (forall c,
         In c (getDiverseClipSelectionWithDurations scoredClips maxClips) ->
         In c scoredClips)
  /\ ((maxClips <= 2 * List.length (filter isComplete scoredClips))%nat ->
      preferredClips scoredClips maxClips = filter isComplete scoredClips)
  /\ ((2 * List.length (filter isComplete scoredClips) < maxClips)%nat ->
      preferredClips scoredClips maxClips = scoredClips)
  /\ ((4 <= maxClips)%nat ->
      NoNearDuplicates (preferredClips scoredClips maxClips) ->
      SpansThree (preferredClips scoredClips maxClips) ->
      SpansThree (getDiverseClipSelectionWithDurations scoredClips maxClips)).
Proof.
  split; [ | split; [ | split; [ | split]]].
  - unfold getDiverseClipSelectionWithDurations. apply firstn_le_length.
  - intros c H. unfold getDiverseClipSelectionWithDurations in H.
    cbv zeta in H. apply In_firstn_list in H.
    apply fold_pushUnique_incl in H. destruct H as [[] | H].
    apply In_combinedSelection in H.
    now apply preferredClips_incl with maxClips.
  - apply (proj1 (preferredClips_spec scoredClips maxClips)).
  - apply (proj2 (preferredClips_spec scoredClips maxClips)).
  - apply selection_spans_three.
Qed.

Ltac far_apart :=
  unfold NoSimilarPair;
  repeat first [apply FOP_nil | apply FOP_cons
               | apply Forall_nil | apply Forall_cons];
  vm_compute; reflexivity.

Lemma widePool_preferred : preferredClips widePool 5 = widePool.
Proof. vm_compute. reflexivity. Qed.

Lemma widePool_spans : SpansThree widePool.
Proof.
  exists 0%nat, 1%nat, 2%nat,
    (textClip "Alpha one." 0 7 0.9), (textClip "Gamma three." 40 52 0.7),
    (textClip "Epsilon five." 80 97 0.5).
  unfold widePool.
  repeat split; cbn [In InBucket duration textClip]; auto 10; try lia; lra.
Qed.

(** Seven clips over the five buckets and five slots: one clip is taken
    from the top, and the buckets, which are more than the four slots that
    remain, give their top clips until the limit. *)
Lemma diverse_selection_properties_witness :
  SpansThree (getDiverseClipSelectionWithDurations widePool 5).
Proof.
  refine (proj2 (proj2 (proj2 (proj2
            (diverse_selection_properties widePool 5)))) _ _ _).
  - lia.
  - rewrite widePool_preferred. apply NoSimilarPair_spec.
    unfold widePool. far_apart.
  - rewrite widePool_preferred. exact widePool_spans.
Defined.

Lemma SpansThree_of_durations (l : list Clip) (c1 c2 c3 : Clip)
  (k1 k2 k3 : nat) :
  (k1 < k2 < k3)%nat -> In c1 l -> In c2 l -> In c3 l ->
  InBucket k1 (duration c1) -> InBucket k2 (duration c2) ->
  InBucket k3 (duration c3) -> SpansThree l.
Proof. intros. exists k1, k2, k3, c1, c2, c3. tauto. Qed.

(** C7 as stated fails, in three ways.  Three windows that start together,
    of 7, 12 and 17 seconds, span three buckets; with [maxClips] 15 the
    second and the third are dropped as near-duplicates of the first.  Of
    four clips far apart that span three buckets, the two that end on a
    complete sentence lie in one bucket; with [maxClips] 4 they are the
    preferred clips and the selection.  And of four complete clips far
    apart, of 7, 8, 12 and 17 seconds, [maxClips] 3 keeps the first three,
    which lie in two buckets. *)
Lemma diversity_not_preserved :
  (SpansThree nestedPool
   /\ ~ SpansThree (getDiverseClipSelectionWithDurations nestedPool 15))
  /\ (SpansThree completeFirstPool
      /\ NoNearDuplicates completeFirstPool
      /\ ~ SpansThree
             (getDiverseClipSelectionWithDurations completeFirstPool 4))
  /\ (SpansThree fourClipPool
      /\ NoNearDuplicates fourClipPool
      /\ preferredClips fourClipPool 3 = fourClipPool
      /\ ~ SpansThree (getDiverseClipSelectionWithDurations fourClipPool 3)).
Proof.
  split; [ | split].
  - split.
    + apply (SpansThree_of_durations nestedPool
               (textClip "Hello world." 0 7 0.9)
               (textClip "Hello world. More." 0 12 0.8)
               (textClip "Hello world. More. Even more." 0 17 0.7)
               0 1 2); unfold nestedPool;
        cbn [In InBucket duration textClip]; auto; try lia; lra.
    + intros H. apply SpansThree_count in H. vm_compute in H. lia.
  - split; [ | split].
    + apply (SpansThree_of_durations completeFirstPool
               (textClip "Alpha one." 0 7 0.9)
               (openClip "Gamma three" 40 52 0.7)
               (openClip "Delta four" 60 77 0.6)
               0 1 2); unfold completeFirstPool;
        cbn [In InBucket duration textClip openClip]; auto 6; try lia; lra.
    + apply NoSimilarPair_spec. unfold completeFirstPool. far_apart.
    + intros H. apply SpansThree_count in H. vm_compute in H. lia.
  - split; [ | split; [ | split]].
    + apply (SpansThree_of_durations fourClipPool
               (textClip "Alpha one." 0 7 0.9)
               (textClip "Gamma three." 40 52 0.7)
               (textClip "Delta four." 60 77 0.6)
               0 1 2); unfold fourClipPool;
        cbn [In InBucket duration textClip]; auto 6; try lia; lra.
    + apply NoSimilarPair_spec. unfold fourClipPool. far_apart.
    + vm_compute. reflexivity.
    + intros H. apply SpansThree_count in H. vm_compute in H. lia.
Qed.
